(** * geoutil: the geoset tree model and its file-format backends

    A shallow embedding of the Python package [geoutil] (modules
    [_geoset], [_utils], [geosetxml], [polylistxml], [ds9regfile]) and the
    properties of its specification that are settled against it.

    Conventions.
    - Python exceptions are values of [exn]; a computation that may raise
      returns a [result].
    - The geometry library (shapely), the FITS header library (astropy) and
      the text codecs (json, wkt) are outside the repository: they appear as
      interfaces (type classes without laws); a theorem that needs a law of
      such a library states it as a hypothesis.
    - Objects that the code mutates through several references (lists handed
      to constructors, the [Geo] and [Item] objects the region reader
      updates in place) live in an explicit store. *)

From Stdlib Require Import ZArith String Ascii List Bool DecimalString.
From stdpp Require Import base numbers strings option list.

Local Open Scope string_scope.
Local Open Scope Z_scope.
Local Open Scope list_scope.

(** ** Python string operations

    The [str] methods the backends use, on Coq strings. Indices are
    integers; a negative slice bound counts from the end. *)

Module PyStr.

Definition nl : string := String (ascii_of_nat 10) "".

Fixpoint contains_char (c : ascii) (s : string) : bool :=
  match s with
  | EmptyString => false
  | String c' s' => if Ascii.eqb c' c then true else contains_char c s'
  end.

(** [s.startswith(p)]. *)
Definition startswith (s p : string) : bool := String.prefix p s.

(** [sub in s]. *)
Fixpoint contains (sub s : string) : bool :=
  if String.prefix sub s then true
  else match s with
       | EmptyString => false
       | String _ s' => contains sub s'
       end.

(** [s.partition(c)] for a one-character separator: the text before the
    first [c], the separator found (empty if there is none) and the text
    after it. *)
Fixpoint partition (c : ascii) (s : string) : string * string * string :=
  match s with
  | EmptyString => ("", "", "")
  | String c' s' =>
      if Ascii.eqb c' c then ("", String c "", s')
      else let '(a, sep, b) := partition c s' in (String c' a, sep, b)
  end.

(** [s.replace(a, b)] for one-character [a] and [b]. *)
Fixpoint replace_char (a b : ascii) (s : string) : string :=
  match s with
  | EmptyString => ""
  | String c s' =>
      String (if Ascii.eqb c a then b else c) (replace_char a b s')
  end.

(** [s.split(sep)] for a non-empty separator: [skip] counts the characters
    of a separator just matched that are still to be passed over, [cur] is
    the piece being read. *)
Fixpoint split_go (sep : string) (skip : nat) (cur s : string) : list string :=
  match s with
  | EmptyString => [cur]
  | String c s' =>
      match skip with
      | S n => split_go sep n cur s'
      | O =>
          if String.prefix sep s
          then cur :: split_go sep (String.length sep - 1) "" s'
          else split_go sep 0 (cur +:+ String c "") s'
      end
  end.

Definition split (sep s : string) : list string := split_go sep 0 "" s.

(** [s.split(sep)[-1]] and [s.split(sep)[0]]. *)
Definition split_last (sep s : string) : string := List.last (split sep s) "".
Definition split_first (sep s : string) : string := List.hd "" (split sep s).

Definition is_space (c : ascii) : bool :=
  let n := nat_of_ascii c in
  (Nat.eqb n 32 || Nat.eqb n 9 || Nat.eqb n 10 || Nat.eqb n 11
   || Nat.eqb n 12 || Nat.eqb n 13)%bool.

(** [s.split()]: the maximal runs of characters that are not whitespace. *)
Fixpoint split_ws_go (cur s : string) : list string :=
  match s with
  | EmptyString => match cur with EmptyString => [] | _ => [cur] end
  | String c s' =>
      if is_space c
      then match cur with
           | EmptyString => split_ws_go "" s'
           | _ => cur :: split_ws_go "" s'
           end
      else split_ws_go (cur +:+ String c "") s'
  end.

Definition split_ws (s : string) : list string := split_ws_go "" s.

(** [sep.join(l)]. *)
Fixpoint join (sep : string) (l : list string) : string :=
  match l with
  | [] => ""
  | [x] => x
  | x :: l' => x +:+ sep +:+ join sep l'
  end.

(** [s[a:b]]. *)
Definition norm_index (len i : Z) : Z :=
  let i := if i <? 0 then i + len else i in
  Z.max 0 (Z.min len i).

Fixpoint drop_str (n : nat) (s : string) : string :=
  match n, s with
  | O, _ => s
  | S n', String _ s' => drop_str n' s'
  | S _, EmptyString => ""
  end.

Fixpoint take_str (n : nat) (s : string) : string :=
  match n, s with
  | S n', String c s' => String c (take_str n' s')
  | _, _ => ""
  end.

Definition slice (s : string) (a b : Z) : string :=
  let len := Z.of_nat (String.length s) in
  let a := norm_index len a in
  let b := norm_index len b in
  take_str (Z.to_nat (b - a)) (drop_str (Z.to_nat a) s).

(** [[i for i in range(len(s)) if s[i] == c]], counted from [i]. *)
Fixpoint indices_of (c : ascii) (i : Z) (s : string) : list Z :=
  match s with
  | EmptyString => []
  | String c' s' =>
      if Ascii.eqb c' c then i :: indices_of c (i + 1) s'
      else indices_of c (i + 1) s'
  end.

(** [s.rsplit(' ', 1)]: the text before the last [c] and the text after
    it, or [None] when [s] has no [c] (the list has one element then). *)
Fixpoint rsplit1 (c : ascii) (s : string) : option (string * string) :=
  match s with
  | EmptyString => None
  | String c' s' =>
      match rsplit1 c s' with
      | Some (a, b) => Some (String c' a, b)
      | None => if Ascii.eqb c' c then Some ("", s') else None
      end
  end.

(** [s[0]] and [s[-1]]. *)
Definition first_char (s : string) : option ascii :=
  match s with
  | EmptyString => None
  | String c _ => Some c
  end.

Fixpoint last_char (s : string) : option ascii :=
  match s with
  | EmptyString => None
  | String c EmptyString => Some c
  | String _ s' => last_char s'
  end.

End PyStr.
(** ** Exceptions and results *)

Inductive exn : Type :=
| ValueError
| IndexError
| NameError
| AttributeError
| TypeError
| TopologicalError
| SystemError
| LibraryError (code : nat).

Inductive result (A : Type) : Type :=
| Ok (a : A)
| Raise (e : exn).
Arguments Ok {A} a.
Arguments Raise {A} e.

#[global] Instance exn_eq_dec : EqDecision exn.
Proof. solve_decision. Defined.

#[global] Instance result_ret : MRet result := fun A a => Ok a.
#[global] Instance result_bind : MBind result :=
  fun A B f m => match m with Ok a => f a | Raise e => Raise e end.
#[global] Instance result_fmap : FMap result :=
  fun A B f m => match m with Ok a => Ok (f a) | Raise e => Raise e end.

(** [try: m except e => h] runs the handler only for the exception [e]. *)
Definition try_except {A} (m : result A) (e : exn) (h : result A) : result A :=
  match m with
  | Ok a => Ok a
  | Raise e' => if decide (e' = e) then h else Raise e'
  end.

(** [seq[i]] on a Python list. *)
Definition subscript {A} (l : list A) (i : nat) : result A :=
  match l !! i with
  | Some a => Ok a
  | None => Raise IndexError
  end.

(** A loop that threads an accumulator and may raise. *)
Fixpoint foldM {A B} (f : B -> A -> result B) (b : B) (l : list A)
  : result B :=
  match l with
  | [] => Ok b
  | x :: l' => b' ← f b x; foldM f b' l'
  end.

(** A loop that appends one result for each element to a list that starts
    empty:  [out = []; for x in l: out.append(f(x))]. *)
Definition collect {A B} (f : A -> result B) (l : list A) : result (list B) :=
  foldM (fun out x => y ← f x; Ok (out ++ [y])) [] l.

(** [enumerate(l)]. *)
Definition enumerate {A} (l : list A) : list (nat * A) :=
  zip (seq 0 (length l)) l.

(** ** Attribute maps

  An attribute map is an [OrderedDict] with string keys and scalar values;
  [None] (no attributes) is the [None] of [option]. *)

Section Attrs.
Context {float_t : Type}.

Inductive scalar : Type :=
| SInt (n : Z)
| SFloat (f : float_t)
| SStr (s : string)
| SBool (b : bool).

Definition odict := list (string * scalar).

(** [d[k] = v] on an ordered dictionary: an existing key keeps its
    position, a new key goes to the end. *)
Fixpoint od_set (k : string) (v : scalar) (d : odict) : odict :=
  match d with
  | [] => [(k, v)]
  | (k', v') :: d' =>
      if String.eqb k' k then (k, v) :: d' else (k', v') :: od_set k v d'
  end.

(** [OrderedDict(pairs)]. *)
Definition OrderedDict (pairs : list (string * scalar)) : odict :=
  fold_left (fun d kv => od_set (fst kv) (snd kv) d) pairs [].

(** [OrderedDict((key, val) for key, val in attrs.items())], the copy that
    every structural operation makes of an attribute map. *)
Definition copy_attrs (a : option odict) : option odict :=
  match a with
  | None => None
  | Some d => Some (OrderedDict d)
  end.

Fixpoint od_get (k : string) (d : odict) : option scalar :=
  match d with
  | [] => None
  | (k', v) :: d' => if String.eqb k' k then Some v else od_get k d'
  end.

(** The keys of a dictionary are distinct. *)
Definition attrs_wf (a : option odict) : Prop :=
  match a with
  | None => True
  | Some d => NoDup (map fst d)
  end.
End Attrs.
Arguments scalar : clear implicits.
Arguments odict : clear implicits.

(** ** The tree as a value: [Geo], [Item], [Geoset]

  [geom] is the geometry type of the geometry library and [header] the
  header type of the FITS library. *)

Section Tree.
Context {float_t geom header : Type}.

Record Geo : Type := mkGeo {
  geo_geo : option geom;
  geo_attrs : option (odict float_t) }.

Record Item : Type := mkItem {
  item_geos : list Geo;
  item_attrs : option (odict float_t) }.

Record Geoset : Type := mkGeoset {
  gs_items : list Item;
  gs_attrs : option (odict float_t);
  gs_hdr : option header }.
End Tree.
Arguments Geo : clear implicits.
Arguments Item : clear implicits.
Arguments Geoset : clear implicits.

(** ** External interfaces

    What the code calls and does not define: Python's [int], [float],
    float arithmetic and string formatting; the geometry library (shapely);
    the WKT codec; the FITS header and WCS types (astropy). The interfaces
    carry no laws. On a [str] argument [int] and [float] either return or
    raise [ValueError]; [int_literal] and [float_literal] are [None] in the
    second case. *)

Class Builtins (float_t : Type) : Type := {
  int_literal : string -> option Z;
  float_literal : string -> option float_t;
  str_float : float_t -> string;
  format_float : string -> float_t -> string;
  float_add : float_t -> float_t -> float_t;
  float_sub : float_t -> float_t -> float_t;
  float_is_zero : float_t -> bool }.

(** [geom_type p] is [p.type]; [geom_iter p] is the iteration [for q in p]
    over the parts of a multi-part geometry; [exterior_coords p] is
    [p.exterior.coords] and [interiors_coords p] the coordinates of the
    rings of [p.interiors]; [empty_Polygon] and [empty_Point] are
    [geometry.Polygon()] and [geometry.Point()]. *)
Class Shapely (float_t geom : Type) : Type := {
  geom_type : geom -> string;
  geom_iter : geom -> result (list geom);
  exterior_coords : geom -> result (list (float_t * float_t));
  interiors_coords : geom -> result (list (list (float_t * float_t)));
  Polygon : list (float_t * float_t) -> result geom;
  MultiPolygon : list geom -> result geom;
  empty_Polygon : geom;
  empty_Point : geom;
  geom_union : geom -> geom -> result geom;
  geom_difference : geom -> geom -> result geom;
  geom_is_empty : geom -> bool;
  geom_area : geom -> float_t }.

Class Wkt (geom : Type) : Type := {
  wkt_dumps : geom -> string;
  wkt_loads : string -> result geom }.

Class FitsHeader (float_t header : Type) : Type := {
  Header : list (string * scalar float_t) -> header;
  header_items : header -> list (string * scalar float_t);
  header_set : header -> string -> scalar float_t -> header;
  header_copy : header -> header;
  header_tostring : header -> string;
  header_fromstring : string -> result header }.

(** [WCS h] is [wcs.WCS(h)]; the two transforms are [wcs_pix2world(xy, 1)]
    and [wcs_world2pix(xy, 1)] on an array of points. *)
Class AstropyWcs (float_t header wcs_t : Type) : Type := {
  WCS : header -> result wcs_t;
  wcs_pix2world :
    wcs_t -> list (float_t * float_t) -> result (list (float_t * float_t));
  wcs_world2pix :
    wcs_t -> list (float_t * float_t) -> result (list (float_t * float_t)) }.

(** [json.dumps] on the list of pairs of an attribute map and [json.loads]
    on a text, which may raise and returns the pairs it finds. *)
Class Json (float_t : Type) : Type := {
  json_dumps : list (string * scalar float_t) -> string;
  json_loads : string -> result (list (string * scalar float_t)) }.

Section PyBuiltins.
Context {float_t : Type} `{Builtins float_t}.

(** [int(val)] and [float(val)] on a string. *)
Definition py_int (val : string) : result Z :=
  match int_literal val with
  | Some n => Ok n
  | None => Raise ValueError
  end.

Definition py_float (val : string) : result float_t :=
  match float_literal val with
  | Some f => Ok f
  | None => Raise ValueError
  end.

(** ['%d' % n]. *)
Definition format_d (n : Z) : string := NilZero.string_of_int (Z.to_int n).

(** ['%s' % val]. *)
Definition format_s (val : scalar float_t) : string :=
  match val with
  | SInt n => format_d n
  | SFloat f => str_float f
  | SStr s => s
  | SBool true => "True"
  | SBool false => "False"
  end.
End PyBuiltins.

(** ** XML elements (etree)

    An element has a tag, a dictionary of native attributes, a text, a tail
    and children; [elem[i]] and [len(elem)] refer to the children. *)

#[warnings="-register-all"]
Inductive element : Type :=
| Element (tag : string) (attrib : list (string * string))
    (text tail : option string) (children : list element).

Definition tag (e : element) : string :=
  match e with Element t _ _ _ _ => t end.
Definition attrib (e : element) : list (string * string) :=
  match e with Element _ a _ _ _ => a end.
Definition text (e : element) : option string :=
  match e with Element _ _ t _ _ => t end.
Definition tail (e : element) : option string :=
  match e with Element _ _ _ t _ => t end.
Definition children (e : element) : list element :=
  match e with Element _ _ _ _ c => c end.

Definition set_text (t : option string) (e : element) : element :=
  match e with Element g a _ tl c => Element g a t tl c end.
Definition set_tail (tl : option string) (e : element) : element :=
  match e with Element g a t _ c => Element g a t tl c end.
Definition set_children (c : list element) (e : element) : element :=
  match e with Element g a t tl _ => Element g a t tl c end.

(** [elem.attrib[k] = v]. *)
Fixpoint attrib_set (k v : string) (d : list (string * string))
  : list (string * string) :=
  match d with
  | [] => [(k, v)]
  | (k', v') :: d' =>
      if String.eqb k' k then (k, v) :: d' else (k', v') :: attrib_set k v d'
  end.

(** * _utils: transforms and repair of geometries *)

Module Utils.
Section Utils.
Context {float_t geom header wcs_t : Type}.
Context `{Builtins float_t} `{Shapely float_t geom}.
Context `{FitsHeader float_t header} `{AstropyWcs float_t header wcs_t}.

(** An argument that is either one value or a list of values
    ([isinstance(x, list)] decides). *)
Inductive one_or_list (A : Type) : Type :=
| One (a : A)
| Many (l : list A).
Arguments One {A} a.
Arguments Many {A} l.

(** [if not isinstance(x, list): x = [x] * n]. *)
Definition broadcast {A} (x : one_or_list A) (n : nat) : list A :=
  match x with
  | One a => replicate n a
  | Many l => l
  end.

Definition _PROBLEMATIC_KEYS : list string := ["CPDIS1"; "CPDIS2"].

(** The inner function [convert] of [poly_pix2world] and [poly_world2pix],
    for the transform [tr] of the header's WCS. *)
Definition convert_wcs
    (tr : list (float_t * float_t) -> result (list (float_t * float_t)))
    (poly : geom) : result geom :=
  xy ← exterior_coords poly;
  lonlat ← tr xy;
  new_poly ← Polygon lonlat;
  holes ← interiors_coords poly;
  foldM (fun new_poly hole =>
           lonlat ← tr hole;
           new_hole ← Polygon lonlat;
           geom_difference new_poly new_hole)
        new_poly holes.

Definition proxy_header (hdr : option header) : result header :=
  items ← match hdr with
          | Some h => Ok (header_items h)
          | None => Raise AttributeError
          end;
  Ok (fold_left
        (fun proxy_hdr kv =>
           if bool_decide (fst kv ∈ _PROBLEMATIC_KEYS) then proxy_hdr
           else header_set proxy_hdr (fst kv) (snd kv))
        items (Header [])).

Definition poly_wcs (tr : wcs_t -> list (float_t * float_t) ->
                          result (list (float_t * float_t)))
    (poly_list : list geom) (hdr_list : one_or_list (option header))
  : result (list geom) :=
  let hdr_list := broadcast hdr_list (length poly_list) in
  mapM (fun ph =>
          proxy_hdr ← proxy_header (snd ph);
          hwcs ← WCS proxy_hdr;
          if String.eqb (geom_type (fst ph)) "MultiPolygon"
          then subs ← geom_iter (fst ph);
               new_poly ← mapM (convert_wcs (tr hwcs)) subs;
               MultiPolygon new_poly
          else convert_wcs (tr hwcs) (fst ph))
       (zip poly_list hdr_list).

Definition poly_pix2world := poly_wcs wcs_pix2world.
Definition poly_world2pix := poly_wcs wcs_world2pix.

(** The inner function [convert] of [poly_translate]. *)
Definition shift (dx dy : float_t) (xy : float_t * float_t)
  : float_t * float_t :=
  (float_add (fst xy) dx, float_add (snd xy) dy).

Definition convert_translate (poly : geom) (dx dy : float_t) : result geom :=
  xy ← exterior_coords poly;
  new_poly ← Polygon (map (shift dx dy) xy);
  holes ← interiors_coords poly;
  foldM (fun new_poly hole =>
           new_hole ← Polygon (map (shift dx dy) hole);
           geom_difference new_poly new_hole)
        new_poly holes.

Definition poly_translate (poly_list : list geom)
    (dx_list dy_list : one_or_list float_t) : result (list geom) :=
  let dx_list := broadcast dx_list (length poly_list) in
  let dy_list := broadcast dy_list (length poly_list) in
  mapM (fun pd =>
          let '(poly, (dx, dy)) := pd in
          if String.eqb (geom_type poly) "MultiPolygon"
          then subs ← geom_iter poly;
               new_poly ← mapM (fun subpoly => convert_translate subpoly dx dy)
                            subs;
               MultiPolygon new_poly
          else convert_translate poly dx dy)
       (zip poly_list (zip dx_list dy_list)).

(** [if poly.type == 'Polygon': poly = [poly]] followed by [for p in poly]. *)
Definition components (poly : geom) : result (list geom) :=
  if String.eqb (geom_type poly) "Polygon" then Ok [poly]
  else geom_iter poly.

(** The test of the loop of [clean_poly]: the part is skipped. *)
Definition extraneous (p : geom) : bool :=
  negb (String.eqb (geom_type p) "Polygon")
  || geom_is_empty p
  || float_is_zero (geom_area p).

Definition clean_poly (poly : geom) : result geom :=
  parts ← components poly;
  let poly_list := filter (fun p => extraneous p = false) parts in
  match poly_list with
  | [] => Ok empty_Polygon
  | [p] => Ok p
  | _ => MultiPolygon poly_list
  end.

Definition safe_difference (poly1 poly2 : geom) : result geom :=
  poly ← try_except (geom_difference poly1 poly2) TopologicalError
           (poly ← geom_union poly1 empty_Polygon;
            parts ← components poly2;
            foldM geom_difference poly parts);
  clean_poly poly.

(** The retry of the specification: every component of the subtrahend is
    subtracted in turn from a copy of the first operand. *)
Definition retry_per_component (poly1 poly2 : geom) : result geom :=
  copy ← geom_union poly1 empty_Polygon;
  parts ← components poly2;
  foldM geom_difference copy parts.

(** A geometry as the cleanup pass leaves it: its parts are polygons that
    are neither empty nor of zero area; no part gives the empty polygon,
    one part gives that part, several give their multi-polygon. *)
Definition cleaned (r : geom) : Prop :=
  exists kept : list geom,
    Forall (fun p => geom_type p = "Polygon" /\ geom_is_empty p = false /\
                     float_is_zero (geom_area p) = false) kept /\
    match kept with
    | [] => r = empty_Polygon
    | [p] => r = p
    | _ => MultiPolygon kept = Ok r
    end.

(** The cleanup pass in the words of the specification: of the parts of a
    geometry, those that are not polygons, that are empty or that have no
    area are removed; none left gives the empty polygon, one left is
    returned as it is, several are returned as their multi-polygon. *)
Definition proper_part (p : geom) : bool :=
  String.eqb (geom_type p) "Polygon" && negb (geom_is_empty p)
  && negb (float_is_zero (geom_area p)).

Definition cleanup_pass (parts : list geom) : result geom :=
  match filter (fun p => proper_part p = true) parts with
  | [] => Ok empty_Polygon
  | [p] => Ok p
  | kept => MultiPolygon kept
  end.
End Utils.
Arguments One {A} a.
Arguments Many {A} l.
End Utils.
(** * _geoset: the tree as Python objects

    [Geo], [Item] and [Geoset] instances and the lists that hold them are
    objects in a store; a value is [None], a reference to an object, or a
    tuple. The address of a new object is the number of objects of its
    kind allocated so far. Geometries, attribute maps and headers are not
    mutated through aliases by the code modelled here and are stored in the
    fields as values. *)

Module GeosetModel.
Section Store.
Context {float_t geom header wcs_t : Type}.
Context `{Builtins float_t} `{Shapely float_t geom}.
Context `{FitsHeader float_t header} `{AstropyWcs float_t header wcs_t}.

#[warnings="-register-all"]
Inductive value : Type :=
| VNone
| VList (a : nat)
| VTuple (vs : list value)
| VGeo (a : nat)
| VItem (a : nat)
| VGeoset (a : nat).

Record item_obj : Type := mkItemObj {
  io_geos : value;
  io_attrs : option (odict float_t) }.

Record geoset_obj : Type := mkGeosetObj {
  go_items : value;
  go_attrs : option (odict float_t);
  go_hdr : option header;
  go__geos : value }.

Record store : Type := mkStore {
  st_lists : list (list value);
  st_geos : list (Geo float_t geom);
  st_items : list item_obj;
  st_geosets : list geoset_obj }.

Definition empty_store : store := mkStore [] [] [] [].

(** Computations on the store that may raise. *)
Definition M (A : Type) : Type := store -> result (A * store).

Definition ret {A} (a : A) : M A := fun s => Ok (a, s).
Definition bind {A B} (m : M A) (k : A -> M B) : M B :=
  fun s => match m s with
           | Ok (a, s') => k a s'
           | Raise e => Raise e
           end.
Definition raise {A} (e : exn) : M A := fun _ => Raise e.
Definition lift {A} (r : result A) : M A :=
  fun s => match r with Ok a => Ok (a, s) | Raise e => Raise e end.

(** A [for] loop over a list of values already fetched. *)
Fixpoint for_each {A} (l : list A) (body : A -> M unit) : M unit :=
  match l with
  | [] => ret tt
  | x :: l' => bind (body x) (fun _ => for_each l' body)
  end.

(** *** Lists *)

Definition alloc_list (l : list value) : M value :=
  fun s => Ok (VList (length (st_lists s)),
               mkStore (st_lists s ++ [l]) (st_geos s) (st_items s)
                       (st_geosets s)).

(** The elements that [for x in v] visits. *)
Definition iterate (v : value) : M (list value) :=
  fun s => match v with
           | VList a => match st_lists s !! a with
                        | Some l => Ok (l, s)
                        | None => Raise SystemError
                        end
           | VTuple vs => Ok (vs, s)
           | _ => Raise TypeError
           end.

(** [v.append(x)]. *)
Definition append (v x : value) : M unit :=
  fun s => match v with
           | VList a => match st_lists s !! a with
                        | Some l => Ok (tt, mkStore (<[a := l ++ [x]]> (st_lists s))
                                            (st_geos s) (st_items s)
                                            (st_geosets s))
                        | None => Raise SystemError
                        end
           | _ => Raise AttributeError
           end.

Definition is_nil {A} (l : list A) : bool :=
  match l with
  | [] => true
  | _ => false
  end.

(** [bool(v)]: [None] and empty sequences are false, instances of the three
    classes (which define neither [__len__] nor [__nonzero__]) are true. *)
Definition truthy (v : value) : M bool :=
  fun s => match v with
           | VNone => Ok (false, s)
           | VList a => match st_lists s !! a with
                        | Some l => Ok (negb (is_nil l), s)
                        | None => Raise SystemError
                        end
           | VTuple vs => Ok (negb (is_nil vs), s)
           | _ => Ok (true, s)
           end.

(** [getattr(v, '__iter__', False)] as a condition. *)
Definition has_iter (v : value) : bool :=
  match v with
  | VList _ | VTuple _ => true
  | _ => false
  end.

Definition is_None (v : value) : bool :=
  match v with
  | VNone => true
  | _ => false
  end.

(** *** Objects *)

Definition alloc_geo (g : Geo float_t geom) : M value :=
  fun s => Ok (VGeo (length (st_geos s)),
               mkStore (st_lists s) (st_geos s ++ [g]) (st_items s)
                       (st_geosets s)).

Definition alloc_item (o : item_obj) : M value :=
  fun s => Ok (VItem (length (st_items s)),
               mkStore (st_lists s) (st_geos s) (st_items s ++ [o])
                       (st_geosets s)).

Definition alloc_geoset (o : geoset_obj) : M value :=
  fun s => Ok (VGeoset (length (st_geosets s)),
               mkStore (st_lists s) (st_geos s) (st_items s)
                       (st_geosets s ++ [o])).

(** Reading the fields of [v]; a value of another class has no such field. *)
Definition get_geo (v : value) : M (Geo float_t geom) :=
  fun s => match v with
           | VGeo a => match st_geos s !! a with
                       | Some g => Ok (g, s)
                       | None => Raise SystemError
                       end
           | _ => Raise AttributeError
           end.

Definition get_item (v : value) : M item_obj :=
  fun s => match v with
           | VItem a => match st_items s !! a with
                        | Some o => Ok (o, s)
                        | None => Raise SystemError
                        end
           | _ => Raise AttributeError
           end.

Definition get_geoset (v : value) : M geoset_obj :=
  fun s => match v with
           | VGeoset a => match st_geosets s !! a with
                          | Some o => Ok (o, s)
                          | None => Raise SystemError
                          end
           | _ => Raise AttributeError
           end.

(** [v.geo = g] on a [Geo]; the three assignments on a [Geoset]. *)
Definition set_geo_geo (v : value) (g : option geom) : M unit :=
  bind (get_geo v) (fun o s =>
    match v with
    | VGeo a => Ok (tt, mkStore (st_lists s)
                          (<[a := mkGeo g (geo_attrs o)]> (st_geos s))
                          (st_items s) (st_geosets s))
    | _ => Raise AttributeError
    end).

Definition update_geoset (v : value) (f : geoset_obj -> geoset_obj) : M unit :=
  bind (get_geoset v) (fun o s =>
    match v with
    | VGeoset a => Ok (tt, mkStore (st_lists s) (st_geos s) (st_items s)
                             (<[a := f o]> (st_geosets s)))
    | _ => Raise AttributeError
    end).

Definition set_geoset_attrs (v : value) (a : option (odict float_t)) : M unit :=
  update_geoset v (fun o => mkGeosetObj (go_items o) a (go_hdr o) (go__geos o)).

Definition set_geoset__geos (v : value) (l : value) : M unit :=
  update_geoset v (fun o => mkGeosetObj (go_items o) (go_attrs o) (go_hdr o) l).

(** *** Constructors *)

Definition Geo_init (geo : option geom) (attrs : option (odict float_t))
  : M value :=
  alloc_geo (mkGeo geo attrs).

Definition Item_init (geos : value) (attrs : option (odict float_t))
  : M value :=
  bind (truthy geos) (fun t =>
  bind (if negb t then alloc_list []
        else if negb (has_iter geos) then alloc_list [geos]
        else ret geos) (fun geos =>
  alloc_item (mkItemObj geos attrs))).

Definition Geoset_init (items : value) (attrs : option (odict float_t))
    (hdr : option header) : M value :=
  bind (if is_None items then alloc_list []
        else if negb (has_iter items) then alloc_list [items]
        else ret items) (fun items =>
  alloc_geoset (mkGeosetObj items attrs hdr VNone)).

(** *** The property [Geoset.geos] *)

Definition Geoset_geos (self : value) : M value :=
  bind (alloc_list []) (fun fresh =>
  bind (set_geoset__geos self fresh) (fun _ =>
  bind (get_geoset self) (fun o =>
  bind (iterate (go_items o)) (fun items =>
  bind (for_each items (fun item =>
          bind (get_item item) (fun io =>
          bind (iterate (io_geos io)) (fun geos =>
          for_each geos (fun geo =>
            bind (get_geoset self) (fun o' =>
            append (go__geos o') geo)))))) (fun _ =>
  bind (get_geoset self) (fun o'' =>
  ret (go__geos o''))))))).

(** *** Methods of [Geo] *)

Definition Geo_translate (self : value) (dx dy : float_t) : M value :=
  bind (get_geo self) (fun o =>
  bind (match geo_geo o with
        | None => ret None
        | Some p =>
            bind (lift (Utils.poly_translate [p] (Utils.One dx) (Utils.One dy)))
                 (fun l => bind (lift (subscript l 0)) (fun q => ret (Some q)))
        end) (fun geo =>
  Geo_init geo (copy_attrs (geo_attrs o)))).

Definition Geo_pix2world (self : value) (hdr : option header) : M value :=
  bind (get_geo self) (fun o =>
  bind (match geo_geo o with
        | None => ret None
        | Some p =>
            bind (lift (Utils.poly_pix2world [p] (Utils.One hdr)))
                 (fun l => bind (lift (subscript l 0)) (fun q => ret (Some q)))
        end) (fun geo =>
  Geo_init geo (copy_attrs (geo_attrs o)))).

Definition Geo_world2pix (self : value) (hdr : option header) : M value :=
  bind (get_geo self) (fun o =>
  bind (match geo_geo o with
        | None => ret None
        | Some p =>
            bind (lift (Utils.poly_world2pix [p] (Utils.One hdr)))
                 (fun l => bind (lift (subscript l 0)) (fun q => ret (Some q)))
        end) (fun geo =>
  Geo_init geo (copy_attrs (geo_attrs o)))).

Definition Geo_copy (self : value) : M value :=
  bind (get_geo self) (fun o =>
  bind (match geo_geo o with
        | None => ret None
        | Some p => bind (lift (geom_union p empty_Point))
                         (fun q => ret (Some q))
        end) (fun geo =>
  Geo_init geo (copy_attrs (geo_attrs o)))).

(** *** Reading a tree off the store *)

Definition seq_values (s : store) (v : value) : option (list value) :=
  match v with
  | VList a => st_lists s !! a
  | VTuple vs => Some vs
  | _ => None
  end.

Definition reify_geo (s : store) (v : value) : option (Geo float_t geom) :=
  match v with
  | VGeo a => st_geos s !! a
  | _ => None
  end.

Definition reify_item (s : store) (v : value) : option (Item float_t geom) :=
  match v with
  | VItem a =>
      o ← st_items s !! a;
      vs ← seq_values s (io_geos o);
      geos ← mapM (reify_geo s) vs;
      Some (mkItem geos (io_attrs o))
  | _ => None
  end.

Definition reify_geoset (s : store) (v : value)
  : option (Geoset float_t geom header) :=
  match v with
  | VGeoset a =>
      o ← st_geosets s !! a;
      vs ← seq_values s (go_items o);
      items ← mapM (reify_item s) vs;
      Some (mkGeoset items (go_attrs o) (go_hdr o))
  | _ => None
  end.

(** The groups of a [Geoset] as lists of the values they hold. *)
Definition groups_of (s : store) (self : value) : option (list (list value)) :=
  match self with
  | VGeoset a =>
      o ← st_geosets s !! a;
      items ← seq_values s (go_items o);
      mapM (fun item =>
              match item with
              | VItem b => io ← st_items s !! b; seq_values s (io_geos io)
              | _ => None
              end) items
  | _ => None
  end.

(** The store while [Geoset.geos] fills its list: the lists of [s], then
    the list [acc] it allocated; [gs] are the [Geoset] objects after the
    assignment to [_geos]. *)
Definition filling (s : store) (gs : list geoset_obj) (acc : list value)
  : store :=
  mkStore (st_lists s ++ [acc]) (st_geos s) (st_items s) gs.

(** *** Construction normalization, as the specification words it

    [field s r] is the child sequence stored in the object [r]. An argument
    is null or falsy when it is [None] or an empty sequence, bare when it
    is neither [None] nor a list or tuple; a list argument refers to a list
    of the store. *)
Definition Item_geos_field (s : store) (r : value) : option value :=
  match r with
  | VItem a => io_geos <$> st_items s !! a
  | _ => None
  end.

Definition Geoset_items_field (s : store) (r : value) : option value :=
  match r with
  | VGeoset a => go_items <$> st_geosets s !! a
  | _ => None
  end.

Definition falsy (s : store) (arg : value) : Prop :=
  arg = VNone \/ seq_values s arg = Some [].

Definition bare (arg : value) : Prop :=
  has_iter arg = false /\ arg <> VNone.

Definition arg_ok (s : store) (arg : value) : Prop :=
  has_iter arg = true -> is_Some (seq_values s arg).

Definition normalizes
    (init : value -> option (odict float_t) -> M value)
    (field : store -> value -> option value) : Prop :=
  forall s arg attrs, arg_ok s arg ->
    exists r s' q, init arg attrs s = Ok (r, s') /\ field s' r = Some q /\
      (falsy s arg -> seq_values s' q = Some []) /\
      (bare arg -> seq_values s' q = Some [arg]) /\
      (has_iter arg = true -> q = arg).

(** The sequence [q] stored is a list that the call allocated, holding
    [l]: its address was free in [s], so no other reference to it exists. *)
Definition new_list (s s' : store) (q : value) (l : list value) : Prop :=
  q = VList (length (st_lists s)) /\ st_lists s' = st_lists s ++ [l].

(** The normalization case by case, for a constructor that replaces the
    arguments [replaced] by an empty list: such an argument gives a new
    empty list, a bare one a new list of one element, and a list or tuple
    that is not replaced is stored as it is, no list being allocated. In
    every case a falsy argument leaves an empty sequence in the field. *)
Definition normalizes_by_case (replaced : store -> value -> Prop)
    (init : value -> option (odict float_t) -> M value)
    (field : store -> value -> option value) : Prop :=
  forall s arg attrs, arg_ok s arg ->
    exists r s' q, init arg attrs s = Ok (r, s') /\ field s' r = Some q /\
      (falsy s arg -> seq_values s' q = Some []) /\
      (replaced s arg -> new_list s s' q []) /\
      (bare arg -> new_list s s' q [arg]) /\
      (has_iter arg = true -> ~ replaced s arg ->
         q = arg /\ st_lists s' = st_lists s).
End Store.
End GeosetModel.
(** * polylistxml: the legacy XML backend *)

Module Polylistxml.
Section Polylistxml.
Context {float_t geom header : Type}.
Context `{Builtins float_t} `{Wkt geom} `{FitsHeader float_t header}.

(** [add_XML_attrs(attr_list, element)] with the default [eformat] and
    [fformat]; the result is the element's new attribute dictionary. *)
Definition render (val : scalar float_t) : string :=
  match val with
  | SInt n => format_d n
  | SFloat f =>
      if PyStr.contains_char "e"%char (str_float f) then format_float "%.16e" f
      else format_float "%.16f" f
  | _ => format_s val
  end.

Definition add_XML_attrs (attr_list : odict float_t)
    (d : list (string * string)) : list (string * string) :=
  fold_left
    (fun d kv =>
       if String.eqb (fst kv) "" then d
       else attrib_set (fst kv) (render (snd kv)) d)
    attr_list d.

(** The body of the loop of [get_XML_attrs]: the nested [try] blocks. *)
Definition decode_value (val : string) : result (scalar float_t) :=
  try_except (SInt <$> py_int val) ValueError
    (try_except (SFloat <$> py_float val) ValueError
       (if String.eqb val "True" then Ok (SBool true)
        else if String.eqb val "False" then Ok (SBool false)
        else Ok (SStr val))).

Definition get_XML_attrs (e : element) : result (option (odict float_t)) :=
  attr_list ← collect (fun kv => v ← decode_value (snd kv); Ok (fst kv, v))
                 (attrib e);
  mret (match attr_list with
        | [] => None
        | _ => Some (OrderedDict attr_list)
        end).

Definition fromxml_poly (poly_xml : element)
  : result (Geo float_t geom) :=
  attrs ← get_XML_attrs poly_xml;
  poly ← match text poly_xml with
         | Some t => Some <$> wkt_loads t
         | None => Ok None
         end;
  mret (mkGeo poly attrs).

Definition fromxml_item (item_xml : element)
  : result (Item float_t geom) :=
  attrs ← get_XML_attrs item_xml;
  geos ← (if bool_decide (0 < length (children item_xml))%nat
          then collect fromxml_poly (children item_xml)
          else Ok []);
  mret (mkItem geos attrs).

Definition fromxml (polylist_xml : element)
  : result (Geoset float_t geom header) :=
  attrs ← get_XML_attrs polylist_xml;
  hdr_xml ← subscript (children polylist_xml) 0;
  hdr ← get_XML_attrs hdr_xml;
  let hdr := match hdr with
             | Some d => Some (Header d)
             | None => None
             end in
  items ← (if bool_decide (1 < length (children polylist_xml))%nat
           then collect fromxml_item (drop 1 (children polylist_xml))
           else Ok []);
  mret (mkGeoset items attrs hdr).

Definition toxml_poly (g : Geo float_t geom) : element :=
  Element "POLY"
    (match geo_attrs g with
     | Some a => add_XML_attrs a []
     | None => []
     end)
    (match geo_geo g with
     | Some p => Some (wkt_dumps p)
     | None => None
     end)
    None [].

Definition toxml_item (it : Item float_t geom) : element :=
  Element "ITEM"
    (match item_attrs it with
     | Some a => add_XML_attrs a []
     | None => []
     end)
    None None (map toxml_poly (item_geos it)).

Definition toxml (g : Geoset float_t geom header) : element :=
  let header_xml :=
    Element "HEADER"
      (match gs_hdr g with
       | Some h => add_XML_attrs (header_items h) []
       | None => []
       end)
      None None [] in
  Element "POLYLIST"
    (match gs_attrs g with
     | Some a => add_XML_attrs a []
     | None => []
     end)
    None None (header_xml :: map toxml_item (gs_items g)).

(** The trial order in the words of the specification: integer, then
    float, then the two boolean literals, else the string itself. *)
Definition infer_spec (val : string) : scalar float_t :=
  match int_literal val with
  | Some n => SInt n
  | None =>
      match float_literal val with
      | Some f => SFloat f
      | None =>
          if decide (val = "True") then SBool true
          else if decide (val = "False") then SBool false
          else SStr val
      end
  end.

Definition wrap_attrs (l : list (string * scalar float_t))
  : option (odict float_t) :=
  match l with
  | [] => None
  | _ => Some (OrderedDict l)
  end.

(** What leaves no native attribute on an element: an absent map or an
    empty one. *)
Definition no_attrs (a : option (odict float_t)) : Prop :=
  a = None \/ a = Some [].

(** Every geometry text that [toxml] writes can be loaded. *)
Definition wkt_reloads_geo (ge : Geo float_t geom) : Prop :=
  forall p, geo_geo ge = Some p -> exists p', wkt_loads (wkt_dumps p) = Ok p'.

Definition wkt_reloads (g : Geoset float_t geom header) : Prop :=
  Forall (fun it => Forall wkt_reloads_geo (item_geos it)) (gs_items g).

(** A node written without attributes is read with [None], and no node is
    read with an empty map. *)
Definition absent_kept_geo (ge ge' : Geo float_t geom) : Prop :=
  (no_attrs (geo_attrs ge) -> geo_attrs ge' = None) /\
  geo_attrs ge' <> Some [].

Definition absent_kept_item (it it' : Item float_t geom) : Prop :=
  (no_attrs (item_attrs it) -> item_attrs it' = None) /\
  item_attrs it' <> Some [] /\
  Forall2 absent_kept_geo (item_geos it) (item_geos it').
End Polylistxml.
End Polylistxml.
(** * geosetxml: the structured XML backend

    The backend reads the tree it is given and builds new elements, or
    reads elements and builds a new tree; it shares nothing with its
    argument, and is modelled on the tree as a value. *)

Module Geosetxml.
Section Geosetxml.
Context {float_t geom header : Type}.
Context `{Json float_t} `{Wkt geom} `{FitsHeader float_t header}.
Import PyStr.

(** [attrs = elem.text; if attrs is not None:
    attrs = OrderedDict(json.loads(attrs))]. *)
Definition load_attrs (t : option string) : result (option (odict float_t)) :=
  match t with
  | Some s => l ← json_loads s; Ok (Some (OrderedDict l))
  | None => Ok None
  end.

Definition fromxml_geo (geo_xml : element) : result (Geo float_t geom) :=
  attr_xml ← subscript (children geo_xml) 0;
  attrs ← load_attrs (text attr_xml);
  wkt_xml ← subscript (children geo_xml) 1;
  geo ← match text wkt_xml with
        | Some s => Some <$> wkt_loads s
        | None => Ok None
        end;
  Ok (mkGeo geo attrs).

Definition fromxml_item (item_xml : element) : result (Item float_t geom) :=
  attr_xml ← subscript (children item_xml) 0;
  attrs ← load_attrs (text attr_xml);
  geos ← (if bool_decide (1 < length (children item_xml))%nat
          then collect fromxml_geo (drop 1 (children item_xml))
          else Ok []);
  Ok (mkItem geos attrs).

Definition fromxml (geoset_xml : element)
  : result (Geoset float_t geom header) :=
  attr_xml ← subscript (children geoset_xml) 0;
  attrs ← load_attrs (text attr_xml);
  header_xml ← subscript (children geoset_xml) 1;
  hdr ← match text header_xml with
        | Some s => Some <$> header_fromstring s
        | None => Ok None
        end;
  items ← (if bool_decide (2 < length (children geoset_xml))%nat
           then collect fromxml_item (drop 2 (children geoset_xml))
           else Ok []);
  Ok (mkGeoset items attrs hdr).

(** An [ATTR] element for an attribute map. *)
Definition attr_element (a : option (odict float_t)) : element :=
  Element "ATTR" []
    (match a with Some d => Some (json_dumps d) | None => None end)
    None [].

Definition toxml_geo (g : Geo float_t geom) : element :=
  Element "GEO" [] None None
    [ attr_element (geo_attrs g);
      Element "WKT" []
        (match geo_geo g with Some p => Some (wkt_dumps p) | None => None end)
        None [] ].

Definition toxml_item (it : Item float_t geom) : element :=
  Element "ITEM" [] None None
    (attr_element (item_attrs it) :: map toxml_geo (item_geos it)).

Definition toxml (g : Geoset float_t geom header) : element :=
  Element "GEOSET" [] None None
    (attr_element (gs_attrs g)
     :: Element "HEADER" []
          (match gs_hdr g with
           | Some h => Some (header_tostring h)
           | None => None
           end)
          None []
     :: map toxml_item (gs_items g)).

(** [l[i].tail = t] and [l[-1].tail = t] on the children of an element. *)
Definition set_tail_at (i : nat) (t : string) (l : list element)
  : result (list element) :=
  match l !! i with
  | Some e => Ok (<[i := set_tail (Some t) e]> l)
  | None => Raise IndexError
  end.

Definition set_tail_last (t : string) (l : list element)
  : result (list element) :=
  match l with
  | [] => Raise IndexError
  | _ => set_tail_at (length l - 1) t l
  end.

Definition indent : string := "  ".

(** The body of the loop of [formatter] over the [ITEM] elements. *)
Definition format_item (item_xml : element) : result element :=
  let item_xml := set_text (Some (nl +:+ indent +:+ indent)) item_xml in
  c ← set_tail_at 0 (nl +:+ indent +:+ indent) (children item_xml);
  let c := if bool_decide (1 < length c)%nat
           then take 1 c ++
                map (set_tail (Some (nl +:+ indent +:+ indent))) (drop 1 c)
           else c in
  c ← set_tail_last (nl +:+ indent) c;
  Ok (set_tail (Some (nl +:+ indent)) (set_children c item_xml)).

(** [formatter(geoset_xml)]; the element formatted is returned. *)
Definition formatter (geoset_xml : element) : result element :=
  let geoset_xml := set_text (Some (nl +:+ indent)) geoset_xml in
  c ← set_tail_at 0 (nl +:+ indent) (children geoset_xml);
  c ← set_tail_at 1 (nl +:+ indent) c;
  c ← (if bool_decide (2 < length c)%nat
       then items ← mapM format_item (drop 2 c); Ok (take 2 c ++ items)
       else Ok c);
  c ← set_tail_last nl c;
  Ok (set_tail (Some nl) (set_children c geoset_xml)).

(** *** The equality of the round trip

    Attribute maps are compared key by key, geometries by their WKT,
    headers by their string form. *)
Definition attrs_eq (a b : option (odict float_t)) : Prop :=
  match a, b with
  | None, None => True
  | Some d, Some d' => forall k, od_get k d = od_get k d'
  | _, _ => False
  end.

Definition geom_eq (p q : option geom) : Prop :=
  match p, q with
  | None, None => True
  | Some p, Some q => wkt_dumps p = wkt_dumps q
  | _, _ => False
  end.

Definition hdr_eq (h h' : option header) : Prop :=
  match h, h' with
  | None, None => True
  | Some h, Some h' => header_tostring h = header_tostring h'
  | _, _ => False
  end.

Definition geo_eq (g g' : Geo float_t geom) : Prop :=
  geom_eq (geo_geo g) (geo_geo g') /\ attrs_eq (geo_attrs g) (geo_attrs g').

Definition item_eq (it it' : Item float_t geom) : Prop :=
  Forall2 geo_eq (item_geos it) (item_geos it') /\
  attrs_eq (item_attrs it) (item_attrs it').

Definition geoset_eq (g g' : Geoset float_t geom header) : Prop :=
  Forall2 item_eq (gs_items g) (gs_items g') /\
  attrs_eq (gs_attrs g) (gs_attrs g') /\
  hdr_eq (gs_hdr g) (gs_hdr g').

(** *** What the round trip asks of the codecs

    The JSON text of an attribute map loads to pairs that make the same
    map; the WKT of a geometry loads to a geometry with the same WKT; the
    string of a header parses to a header with the same string. *)
Definition json_faithful (a : option (odict float_t)) : Prop :=
  match a with
  | None => True
  | Some d => exists l, json_loads (json_dumps d) = Ok l /\
                        forall k, od_get k (OrderedDict l) = od_get k d
  end.

Definition wkt_faithful (p : option geom) : Prop :=
  match p with
  | None => True
  | Some p => exists q, wkt_loads (wkt_dumps p) = Ok q /\
                        wkt_dumps q = wkt_dumps p
  end.

Definition header_faithful (h : option header) : Prop :=
  match h with
  | None => True
  | Some h => exists h', header_fromstring (header_tostring h) = Ok h' /\
                         header_tostring h' = header_tostring h
  end.

Definition codecs_faithful_geo (g : Geo float_t geom) : Prop :=
  wkt_faithful (geo_geo g) /\ json_faithful (geo_attrs g).

Definition codecs_faithful_item (it : Item float_t geom) : Prop :=
  Forall codecs_faithful_geo (item_geos it) /\ json_faithful (item_attrs it).

Definition codecs_faithful (g : Geoset float_t geom header) : Prop :=
  Forall codecs_faithful_item (gs_items g) /\
  json_faithful (gs_attrs g) /\ header_faithful (gs_hdr g).

(** Two elements that differ in their tail at most, and two elements whose
    children differ in their tails at most. *)
Definition tail_only (e e' : element) : Prop :=
  exists t, e' = set_tail t e.

Definition item_sim (e e' : element) : Prop :=
  Forall2 tail_only (children e) (children e').
End Geosetxml.
End Geosetxml.
(** * ds9regfile: the region-text backend

    The reader works on the store: it creates the [Geoset], its [Item]s and
    [Geo]s and updates them in place through its local variables. The code
    is Python 2: the list comprehension that parses the coordinates leaves
    its variable [i] bound to the last coordinate text. *)

Module Ds9regfile.
Section Ds9regfile.
Context {float_t geom header : Type}.
Context `{Builtins float_t} `{Shapely float_t geom}.
Import PyStr GeosetModel.

(** The test on [val] in [parse_ds9_attrs] and the slice [val[1:-1]]. *)
Definition strip_quotes (val : string) : result string :=
  match first_char val, last_char val with
  | Some a, Some b =>
      if (Ascii.eqb a (ascii_of_nat 34) && Ascii.eqb b (ascii_of_nat 34))
         || (Ascii.eqb a "{" && Ascii.eqb b "}")
      then Ok (slice val 1 (-1))
      else Ok val
  | _, _ => Raise IndexError
  end.

Definition parse_ds9_attrs (attrstr : string) (global_attrs : bool)
  : result (list (string * string)) :=
  let attrstr := attrstr +:+ " junk" in
  let attrstr := if global_attrs then attrstr else "junk " +:+ attrstr in
  let j := 0 :: indices_of "=" 0 attrstr ++ [-1] in
  kv ← collect
         (fun jj =>
            match rsplit1 " " (slice attrstr (fst jj + 1) (snd jj)) with
            | None => Raise ValueError
            | Some (val, key) => val ← strip_quotes val; Ok (key, val)
            end)
         (zip (removelast j) (List.tl j));
  Ok (zip (removelast (map fst kv)) (List.tl (map snd kv))).

(** [xy[0::2]], [xy[1::2]] and [zip(x, y)]. *)
Fixpoint evens {A} (l : list A) : list A :=
  match l with
  | [] => []
  | x :: l' => x :: match l' with [] => [] | _ :: l'' => evens l'' end
  end.

Definition odds {A} (l : list A) : list A :=
  match l with
  | [] => []
  | _ :: l' => evens l'
  end.

(** [np.ravel] of an array of points. *)
Definition ravel {A} (xy : list (A * A)) : list A :=
  flat_map (fun p => [fst p; snd p]) xy.

(** What the reader takes from a polygon line before it touches the tree:
    the polygon, the hole mark, the tags with their numbers, and the last
    coordinate text (the value the comprehension leaves in [i]). *)
Record parsed : Type := mkParsed {
  p_poly : geom;
  p_is_hole : bool;
  p_idx : list (string * Z);
  p_leak : option string }.

Definition parse_index (idx : string * string) : result (string * Z) :=
  match split_ws (snd idx) with
  | [tag; n] => n ← py_int n; Ok (tag, n)
  | _ => Raise ValueError
  end.

(** The part of the loop body that reads the comment of the line: the hole
    mark and the indices. *)
Definition parse_comment (attrs : string)
  : result (bool * list (string * Z)) :=
  let is_hole := contains "background" attrs in
  let attrs := if is_hole then split_last "background" attrs else attrs in
  idx_list ← parse_ds9_attrs attrs false;
  idx ← mapM parse_index idx_list;
  Ok (is_hole, idx).

Definition parse_polygon_line (line : string) : result parsed :=
  let '(coords, _, attrs) := partition ")" (partition "(" line).2 in
  let coords := replace_char "," " " coords in
  let attrs := split_last "#" attrs in
  let toks := split_ws coords in
  xy ← mapM py_float toks;
  poly ← Polygon (zip (evens xy) (odds xy));
  hi ← parse_comment attrs;
  Ok (mkParsed poly (fst hi) (snd hi) (list.last toks)).

(** The local variables of [read]. [i] holds an integer or, through the
    comprehension, a text; [None] in [l_i], [l_j], [l_k], [l_geo], [l_item]
    is an unbound variable, [None] in [l_i0], [l_j0], [l_k0] is Python's
    [None]. *)
Inductive ival : Type :=
| IInt (n : Z)
| IStr (s : string).

#[global] Instance ival_eq_dec : EqDecision ival.
Proof. solve_decision. Defined.

Record locals : Type := mkLocals {
  l_i : option ival;
  l_j : option Z;
  l_k : option Z;
  l_i0 : option ival;
  l_j0 : option Z;
  l_k0 : option Z;
  l_geo : option value;
  l_item : option value }.

Definition init_locals : locals :=
  mkLocals None None None None None None None None.

(** Reading a local variable. *)
Definition var {A} (x : option A) : @M float_t geom header A :=
  match x with
  | Some a => ret a
  | None => raise NameError
  end.

Definition leak (tok : option string) (l : locals) : locals :=
  match tok with
  | Some s => mkLocals (Some (IStr s)) (l_j l) (l_k l) (l_i0 l) (l_j0 l)
                (l_k0 l) (l_geo l) (l_item l)
  | None => l
  end.

(** [for idx in idx_list: ... if tag == 'item': i = n ...]. *)
Definition assign_index (l : locals) (idx : string * Z) : locals :=
  let '(tag, n) := idx in
  if String.eqb tag "item"
  then mkLocals (Some (IInt n)) (l_j l) (l_k l) (l_i0 l) (l_j0 l) (l_k0 l)
         (l_geo l) (l_item l)
  else if String.eqb tag "geo"
  then mkLocals (l_i l) (Some n) (l_k l) (l_i0 l) (l_j0 l) (l_k0 l)
         (l_geo l) (l_item l)
  else if String.eqb tag "poly"
  then mkLocals (l_i l) (l_j l) (Some n) (l_i0 l) (l_j0 l) (l_k0 l)
         (l_geo l) (l_item l)
  else l.

Definition set_geo_item (l : locals) (geo item : option value) : locals :=
  mkLocals (l_i l) (l_j l) (l_k l) (l_i0 l) (l_j0 l) (l_k0 l) geo item.

(** [geo.geo = geo.geo.op(poly)]. *)
Definition update_geometry (op : geom -> geom -> result geom)
    (geo : value) (poly : geom) : @M float_t geom header unit :=
  bind (get_geo geo) (fun o =>
  bind (match geo_geo o with
        | Some g => lift (op g poly)
        | None => raise AttributeError
        end) (fun g' =>
  set_geo_geo geo (Some g'))).

(** The decision of the loop body and the final [i0, j0, k0 = i, j, k]. *)
Definition place_polygon (geoset : value) (poly : geom) (is_hole : bool)
    (l : locals) : @M float_t geom header locals :=
  bind (var (l_i l)) (fun i =>
  bind
    (if bool_decide (Some i <> l_i0 l) then
       bind (Geo_init (Some poly) None) (fun geo =>
       bind (Item_init geo None) (fun item =>
       bind (get_geoset geoset) (fun o =>
       bind (append (go_items o) item) (fun _ =>
       ret (set_geo_item l (Some geo) (Some item))))))
     else
       bind (var (l_j l)) (fun j =>
       if bool_decide (Some j <> l_j0 l) then
         bind (Geo_init (Some poly) None) (fun geo =>
         bind (var (l_item l)) (fun item =>
         bind (get_item item) (fun io =>
         bind (append (io_geos io) geo) (fun _ =>
         ret (set_geo_item l (Some geo) (l_item l))))))
       else
         bind (var (l_k l)) (fun k =>
         if bool_decide (Some k <> l_k0 l) then
           bind (var (l_geo l)) (fun geo =>
           bind (update_geometry geom_union geo poly) (fun _ => ret l))
         else if is_hole then
           bind (var (l_geo l)) (fun geo =>
           bind (update_geometry geom_difference geo poly) (fun _ => ret l))
         else ret l)))
    (fun l =>
  bind (var (l_i l)) (fun i =>
  bind (var (l_j l)) (fun j =>
  bind (var (l_k l)) (fun k =>
  ret (mkLocals (l_i l) (l_j l) (l_k l) (Some i) (Some j) (Some k)
         (l_geo l) (l_item l))))))).

Definition read_polygon (geoset : value) (p : parsed) (l : locals)
  : @M float_t geom header locals :=
  let l := fold_left assign_index (p_idx p) (leak (p_leak p) l) in
  place_polygon geoset (p_poly p) (p_is_hole p) l.

(** One iteration of the loop over the lines of the file. *)
Definition read_line (geoset : value) (l : locals) (line : string)
  : @M float_t geom header locals :=
  let line := split_first nl line in
  if startswith line "#" || bool_decide (line = "") then ret l
  else if startswith line "global" then
    bind (lift (parse_ds9_attrs line true)) (fun attrs =>
    bind (set_geoset_attrs geoset
            (Some (OrderedDict (map (fun kv => (fst kv, SStr (snd kv))) attrs))))
         (fun _ => ret l))
  else if bool_decide (line ∈ ["physical"; "fk5"]) then
    bind (get_geoset geoset) (fun o =>
    bind (set_geoset_attrs geoset
            (Some (od_set "coordsys" (SStr line)
                     (match go_attrs o with Some d => d | None => [] end))))
         (fun _ => ret l))
  else if startswith line "polygon" then
    bind (lift (parse_polygon_line line)) (fun p => read_polygon geoset p l)
  else ret l.

Fixpoint read_loop (geoset : value) (l : locals) (lines : list string)
  : @M float_t geom header locals :=
  match lines with
  | [] => ret l
  | line :: lines' =>
      bind (read_line geoset l line) (fun l' => read_loop geoset l' lines')
  end.

Definition read_lines (lines : list string) : @M float_t geom header value :=
  bind (Geoset_init VNone None None) (fun geoset =>
  bind (read_loop geoset init_locals lines) (fun _ =>
  ret geoset)).

(** [file.readlines()] on the text of a file. *)
Fixpoint readlines_go (cur s : string) : list string :=
  match s with
  | EmptyString => match cur with EmptyString => [] | _ => [cur] end
  | String c s' =>
      if Ascii.eqb c (ascii_of_nat 10)
      then (cur +:+ String c "") :: readlines_go "" s'
      else readlines_go (cur +:+ String c "") s'
  end.

Definition readlines (content : string) : list string :=
  readlines_go "" content.

(** [read], on the text of the file named. *)
Definition read (content : string) : @M float_t geom header value :=
  read_lines (readlines content).

(** *** write *)

Definition ring_text (fmt : string) (coords : list (float_t * float_t))
  : string :=
  join "," (map (format_float fmt) (ravel coords)).

Definition tag_text (name : string) (n : nat) : string :=
  " tag={" +:+ name +:+ " " +:+ format_d (Z.of_nat n) +:+ "}".

Definition polygon_line (xy : string) (background : bool)
    (itag gtag ptag : string) : string :=
  "polygon(" +:+ xy +:+ ") #"
  +:+ (if background then " background" else "")
  +:+ itag +:+ gtag +:+ ptag +:+ nl.

Definition write_lines (geoset : Geoset float_t geom header)
    (coordsys : option string) (fmt : string) : result (list string) :=
  let coordsys := match coordsys with Some c => c | None => "physical" end in
  let fmt := "{0:" +:+ fmt +:+ "}" in
  foldM (fun lines ii =>
    let itag := tag_text "item" (fst ii) in
    foldM (fun lines jg =>
      let gtag := tag_text "geo" (fst jg) in
      poly ← match geo_geo (snd jg) with
             | Some p => Ok p
             | None => Raise AttributeError
             end;
      polys ← (if String.eqb (geom_type poly) "Polygon" then Ok [poly]
               else geom_iter poly);
      foldM (fun lines ks =>
        let ptag := tag_text "poly" (fst ks) in
        ext ← exterior_coords (snd ks);
        let lines :=
          lines ++ [polygon_line (ring_text fmt ext) false itag gtag ptag] in
        holes ← interiors_coords (snd ks);
        Ok (fold_left
              (fun lines hole =>
                 lines ++
                 [polygon_line (ring_text fmt hole) true itag gtag ptag])
              holes lines))
        lines (enumerate polys))
      lines (enumerate (item_geos (snd ii))))
    [coordsys +:+ nl] (enumerate (gs_items geoset)).

(** The text that [write] puts in the file, with the default format. *)
Definition write (geoset : Geoset float_t geom header)
    (coordsys : option string) : result string :=
  lines ← write_lines geoset coordsys ".15f";
  Ok (String.concat "" lines).

(** *** The reconstruction in the words of the specification

    A tagged polygon line carries its three indices, its hole mark and its
    polygon. The reader's state is the Root, as the list of its Groups,
    each the list of the geometries of its Primitives, and the triple of
    the previous line, [None] at the start. The current Group is the last
    Group of the Root and the current Primitive the last of that Group. *)
Record tagged_line : Type := mkTagged {
  t_item : Z;
  t_geo : Z;
  t_poly : Z;
  t_hole : bool;
  t_polygon : geom }.

Definition on_last {A} (f : A -> result A) (l : list A) : result (list A) :=
  match list.last l with
  | Some x => x' ← f x; Ok (removelast l ++ [x'])
  | None => Raise NameError
  end.

Definition spec_step (st : list (list geom) * option (Z * Z * Z))
    (ln : tagged_line) : result (list (list geom) * option (Z * Z * Z)) :=
  let '(root, prev) := st in
  let poly := t_polygon ln in
  root' ←
    (if bool_decide ((fun p => fst (fst p)) <$> prev <> Some (t_item ln))
     then Ok (root ++ [[poly]])
     else if bool_decide ((fun p => snd (fst p)) <$> prev <> Some (t_geo ln))
     then on_last (fun group => Ok (group ++ [poly])) root
     else if bool_decide (snd <$> prev <> Some (t_poly ln))
     then on_last (on_last (fun g => geom_union g poly)) root
     else if t_hole ln
     then on_last (on_last (fun g => geom_difference g poly)) root
     else Ok root);
  Ok (root', Some (t_item ln, t_geo ln, t_poly ln)).

Definition spec_read (lines : list tagged_line) : result (list (list geom)) :=
  fst <$> foldM spec_step ([], None) lines.

(** The tree that a Root of the specification stands for: no attributes
    below the root, no header. *)
Definition tree_of (root : list (list geom)) (attrs : option (odict float_t))
  : Geoset float_t geom header :=
  mkGeoset
    (map (fun group => mkItem (map (fun g => mkGeo (Some g) None) group) None)
         root)
    attrs None.

(** The indices that the loop over [idx_list] leaves in [i], [j], [k] when
    it starts with none of them bound. *)
Definition tags (idx : list (string * Z)) : option Z * option Z * option Z :=
  fold_left
    (fun t idx =>
       let '(i, j, k) := t in
       if String.eqb (fst idx) "item" then (Some (snd idx), j, k)
       else if String.eqb (fst idx) "geo" then (i, Some (snd idx), k)
       else if String.eqb (fst idx) "poly" then (i, j, Some (snd idx))
       else t)
    idx (None, None, None).

(** The text [line] of the file is a polygon line that reads as [ln]: it
    carries the three tags. *)
Definition reads_as (line : string) (ln : tagged_line) : Prop :=
  startswith (split_first nl line) "polygon" = true /\
  exists p, parse_polygon_line (split_first nl line) = Ok p /\
    p_poly p = t_polygon ln /\ p_is_hole p = t_hole ln /\
    tags (p_idx p) = (Some (t_item ln), Some (t_geo ln), Some (t_poly ln)).

(** *** Coordinate texts

    A text that the reader takes as one coordinate: not empty, and free of
    whitespace, commas and closing parentheses. *)
Fixpoint all_chars (P : ascii -> bool) (s : string) : bool :=
  match s with
  | EmptyString => true
  | String c s' => P c && all_chars P s'
  end.

Definition token_char (c : ascii) : bool :=
  negb (is_space c) && negb (Ascii.eqb c ",") && negb (Ascii.eqb c ")").

Definition is_token (s : string) : Prop :=
  s <> "" /\ all_chars token_char s = true.

(** The coordinates [coords] are written in the format [fmt] as texts that
    the reader takes as the coordinates [coords']. *)
Definition rereads (fmt : string) (coords coords' : list (float_t * float_t))
  : Prop :=
  Forall is_token (map (format_float fmt) (ravel coords)) /\
  mapM py_float (map (format_float fmt) (ravel coords)) = Ok (ravel coords').

(** *** The store that the reader has built

    On the store [s0] that [read] starts from, after the reader has built
    the Root [root]: the list of the [Geoset] and one list for each
    [Item], the [Geo]s in the order of the Root, the [Item]s, and the
    [Geoset] with the attributes [attrs]. *)
Fixpoint number (start : nat) (root : list (list geom)) : list (list value) :=
  match root with
  | [] => []
  | group :: root' =>
      map VGeo (seq start (length group))
      :: number (start + length group) root'
  end.

Definition layout (s0 : @store float_t geom header) (root : list (list geom))
    (attrs : option (odict float_t)) : @store float_t geom header :=
  mkStore
    (st_lists s0
     ++ map VItem (seq (length (st_items s0)) (length root))
        :: number (length (st_geos s0)) root)
    (st_geos s0 ++ map (fun g => mkGeo (Some g) None) (concat root))
    (st_items s0
     ++ map (fun k => mkItemObj (VList (length (st_lists s0) + 1 + k)) None)
            (seq 0 (length root)))
    (st_geosets s0 ++ [mkGeosetObj (VList (length (st_lists s0))) attrs None VNone]).

(** The local variables after a line with the triple [prev], on the Root
    [root]. *)
Definition locals_for (s0 : @store float_t geom header)
    (root : list (list geom)) (prev : option (Z * Z * Z)) (l : locals) : Prop :=
  match prev with
  | None => root = [] /\ l_i0 l = None /\ l_j0 l = None /\ l_k0 l = None
  | Some (i, j, k) =>
      l_i0 l = Some (IInt i) /\ l_j0 l = Some j /\ l_k0 l = Some k /\
      exists root' group g,
        root = root' ++ [group ++ [g]] /\
        l_item l = Some (VItem (length (st_items s0) + length root')) /\
        l_geo l = Some (VGeo (length (st_geos s0) + length (concat root')
                              + length group))
  end.

(** The local variables [l] after the loop over [idx_list] has left [t]
    in [i], [j], [k], starting from [l0]. *)
Definition assigned (t : option Z * option Z * option Z) (l l0 : locals)
  : Prop :=
  l_i l = match fst (fst t) with Some n => Some (IInt n) | None => l_i l0 end /\
  l_j l = match snd (fst t) with Some n => Some n | None => l_j l0 end /\
  l_k l = match snd t with Some n => Some n | None => l_k l0 end /\
  l_i0 l = l_i0 l0 /\ l_j0 l = l_j0 l0 /\ l_k0 l = l_k0 l0 /\
  l_geo l = l_geo l0 /\ l_item l = l_item l0.

End Ds9regfile.
End Ds9regfile.
(** * A reference implementation of the interfaces

    Small executable stand-ins for the libraries: integer coordinates, a
    polygon as its shell and holes, a difference that records the hole, a
    WKT and a JSON codec for this fragment. They serve to run the
    embedding on concrete inputs. *)

Module Reference.
Import PyStr.

Definition rfloat : Type := Z.

Definition ref_int_literal (s : string) : option Z :=
  Z.of_int <$> NilZero.int_of_string s.

Fixpoint all_zeros (s : string) : bool :=
  match s with
  | EmptyString => true
  | String c s' => Ascii.eqb c "0" && all_zeros s'
  end.

(** A float literal is an integer, or an integer with a fraction of
    zeros. *)
Definition ref_float_literal (s : string) : option rfloat :=
  match partition "." s with
  | (a, EmptyString, _) => ref_int_literal a
  | (a, _, b) => if all_zeros b then ref_int_literal a else None
  end.

Definition ref_format_float (fmt : string) (f : rfloat) : string :=
  if String.eqb fmt "{0:.15f}" then format_d f +:+ ".000000000000000"
  else format_d f +:+ ".0".

#[global] Instance ref_builtins : Builtins rfloat := {|
  int_literal := ref_int_literal;
  float_literal := ref_float_literal;
  str_float f := format_d f +:+ ".0";
  format_float := ref_format_float;
  float_add := Z.add;
  float_sub := Z.sub;
  float_is_zero f := Z.eqb f 0 |}.

#[warnings="-register-all"]
Inductive rgeom : Type :=
| RPolygon (shell : list (Z * Z)) (holes : list (list (Z * Z)))
| RMulti (parts : list rgeom)
| RPoint.

Definition rparts (g : rgeom) : list rgeom :=
  match g with
  | RMulti ps => ps
  | RPolygon [] _ => []
  | RPolygon _ _ => [g]
  | RPoint => []
  end.

Definition ref_union (a b : rgeom) : result rgeom :=
  match rparts b with
  | [] => Ok a
  | pb => match rparts a ++ pb with
          | [p] => Ok p
          | ps => Ok (RMulti ps)
          end
  end.

(** Subtracting a polygon without holes from a polygon records it as a
    hole; subtracting a multi-part geometry in one step fails. *)
Definition ref_difference (a b : rgeom) : result rgeom :=
  match a, b with
  | _, RMulti _ => Raise TopologicalError
  | RPolygon s hs, RPolygon (p :: h) [] => Ok (RPolygon s (hs ++ [p :: h]))
  | _, _ => Ok a
  end.

(** Twice the area enclosed by a ring (shoelace formula). *)
Fixpoint shoelace (ring : list (Z * Z)) : Z :=
  match ring with
  | (x1, y1) :: (((x2, y2) :: _) as ring') =>
      x1 * y2 - x2 * y1 + shoelace ring'
  | _ => 0
  end.

Fixpoint ref_area (g : rgeom) : Z :=
  match g with
  | RPolygon s hs =>
      Z.abs (shoelace s) - fold_right Z.add 0 (map (fun h => Z.abs (shoelace h)) hs)
  | RMulti ps => fold_right Z.add 0 (map ref_area ps)
  | RPoint => 0
  end.

#[global] Instance ref_shapely : Shapely rfloat rgeom := {|
  geom_type g := match g with
                 | RPolygon _ _ => "Polygon"
                 | RMulti _ => "MultiPolygon"
                 | RPoint => "Point"
                 end;
  geom_iter g := match g with
                 | RMulti ps => Ok ps
                 | _ => Raise TypeError
                 end;
  exterior_coords g := match g with
                       | RPolygon s _ => Ok s
                       | _ => Raise AttributeError
                       end;
  interiors_coords g := match g with
                        | RPolygon _ hs => Ok hs
                        | _ => Raise AttributeError
                        end;
  Polygon cs := Ok (RPolygon cs []);
  MultiPolygon ps := Ok (RMulti ps);
  empty_Polygon := RPolygon [] [];
  empty_Point := RPoint;
  geom_union := ref_union;
  geom_difference := ref_difference;
  geom_is_empty g := match rparts g with [] => true | _ => false end;
  geom_area := ref_area |}.

(** WKT of a polygon: [POLYGON ((x y, x y, ...), (x y, ...))]. *)
Definition wkt_ring (r : list (Z * Z)) : string :=
  "(" +:+ join ", " (map (fun p => format_d (fst p) +:+ " " +:+ format_d (snd p)) r)
  +:+ ")".

Definition ref_wkt_dumps (g : rgeom) : string :=
  match g with
  | RPolygon [] _ => "POLYGON EMPTY"
  | RPolygon s hs => "POLYGON (" +:+ join ", " (map wkt_ring (s :: hs)) +:+ ")"
  | RMulti _ => "MULTIPOLYGON"
  | RPoint => "POINT EMPTY"
  end.

Definition parse_point (s : string) : option (Z * Z) :=
  match split_ws s with
  | [x; y] => x ← ref_int_literal x; y ← ref_int_literal y; Some (x, y)
  | _ => None
  end.

Definition parse_ring (s : string) : option (list (Z * Z)) :=
  mapM parse_point (split "," s).

Definition ref_wkt_loads (s : string) : result rgeom :=
  if String.eqb s "POLYGON EMPTY" then Ok (RPolygon [] [])
  else if String.eqb s "POINT EMPTY" then Ok RPoint
  else if String.prefix "POLYGON ((" s then
    let body := slice s 10 (-2) in
    match mapM parse_ring (split "), (" body) with
    | Some (shell :: holes) => Ok (RPolygon shell holes)
    | _ => Raise ValueError
    end
  else Raise ValueError.

#[global] Instance ref_wkt : Wkt rgeom := {|
  wkt_dumps := ref_wkt_dumps;
  wkt_loads := ref_wkt_loads |}.

(** JSON of a list of pairs with integer, boolean and plain string values:
    [[["k", 1], ["b", true], ["s", "text"]]]. *)
Definition quote : string := String (ascii_of_nat 34) "".

Definition json_scalar (v : scalar rfloat) : string :=
  match v with
  | SInt n => format_d n
  | SFloat f => format_d f +:+ ".0"
  | SStr s => quote +:+ s +:+ quote
  | SBool true => "true"
  | SBool false => "false"
  end.

Definition ref_json_dumps (l : list (string * scalar rfloat)) : string :=
  "[" +:+ join ", "
            (map (fun kv => "[" +:+ quote +:+ fst kv +:+ quote +:+ ", "
                            +:+ json_scalar (snd kv) +:+ "]") l)
  +:+ "]".

Definition parse_json_scalar (s : string) : option (scalar rfloat) :=
  if String.eqb s "true" then Some (SBool true)
  else if String.eqb s "false" then Some (SBool false)
  else if String.prefix quote s then Some (SStr (slice s 1 (-1)))
  else match ref_int_literal s with
       | Some n => Some (SInt n)
       | None => SFloat <$> ref_float_literal s
       end.

Definition parse_json_pair (s : string) : option (string * scalar rfloat) :=
  match partition "," s with
  | (k, _, v) => v ← parse_json_scalar (slice v 1 (Z.of_nat (String.length v)));
                 Some (slice k 1 (-1), v)
  end.

Definition ref_json_loads (s : string)
  : result (list (string * scalar rfloat)) :=
  if String.eqb s "[]" then Ok []
  else if String.prefix "[[" s then
    match mapM parse_json_pair (split "], [" (slice s 2 (-2))) with
    | Some l => Ok l
    | None => Raise ValueError
    end
  else Raise ValueError.

#[global] Instance ref_json : Json rfloat := {|
  json_dumps := ref_json_dumps;
  json_loads := ref_json_loads |}.

(** A header is the list of its cards; its text is their JSON. *)
Definition rheader : Type := list (string * scalar rfloat).

#[global] Instance ref_header : FitsHeader rfloat rheader := {|
  Header l := l;
  header_items h := h;
  header_set h k v := od_set k v h;
  header_copy h := h;
  header_tostring := ref_json_dumps;
  header_fromstring := ref_json_loads |}.

(** A WCS that shifts by the integer cards [CRVAL1] and [CRVAL2]. *)
Definition card (k : string) (h : rheader) : Z :=
  match od_get k h with
  | Some (SInt n) => n
  | _ => 0
  end.

#[global] Instance ref_wcs : AstropyWcs rfloat rheader (Z * Z) := {|
  WCS h := Ok (card "CRVAL1" h, card "CRVAL2" h);
  wcs_pix2world w xy := Ok (map (fun p => (fst p + fst w, snd p + snd w)) xy);
  wcs_world2pix w xy := Ok (map (fun p => (fst p - fst w, snd p - snd w)) xy) |}.

(** Two groups: a triangle, and a square with a square hole. *)
Definition triangle : rgeom := RPolygon [(0, 0); (4, 0); (0, 4); (0, 0)] [].
Definition outer_ring : list (Z * Z) :=
  [(0, 0); (10, 0); (10, 10); (0, 10); (0, 0)].
Definition hole_ring : list (Z * Z) :=
  [(2, 2); (2, 4); (4, 4); (4, 2); (2, 2)].
Definition holed_square : rgeom := RPolygon outer_ring [hole_ring].

Definition two_groups : Geoset rfloat rgeom rheader :=
  mkGeoset
    [ mkItem [mkGeo (Some triangle) None] None;
      mkItem [mkGeo (Some holed_square) (Some [("name", SStr "True")])]
             (Some [("n", SInt 7)]) ]
    (Some [("coordsys", SStr "physical"); ("epoch", SInt 2000)])
    (Some [("CRVAL1", SInt 3); ("CRVAL2", SInt 5)]).

(** A store with one [Geoset] whose three groups hold 0, 2 and 1 [Geo]s,
    the last of them without geometry. *)
Definition sample_store : @GeosetModel.store rfloat rgeom rheader :=
  GeosetModel.mkStore
    [ [GeosetModel.VItem 0; GeosetModel.VItem 1; GeosetModel.VItem 2];
      [];
      [GeosetModel.VGeo 0; GeosetModel.VGeo 1];
      [GeosetModel.VGeo 2] ]
    [ mkGeo (Some triangle) None;
      mkGeo (Some holed_square) None;
      mkGeo None (Some [("name", SStr "void"); ("n", SInt 1)]) ]
    [ GeosetModel.mkItemObj (GeosetModel.VList 1) None;
      GeosetModel.mkItemObj (GeosetModel.VList 2) None;
      GeosetModel.mkItemObj (GeosetModel.VList 3) None ]
    [ GeosetModel.mkGeosetObj (GeosetModel.VList 0) None None
        GeosetModel.VNone ].

(** The polygon lines that [write] produces for [two_groups]. *)
Definition region_lines : list string :=
  Eval vm_compute in
    match Ds9regfile.write_lines two_groups None ".15f" with
    | Ok (_ :: lines) => lines
    | _ => []
    end.
End Reference.

(** * More of Python's strings *)

Module PyStrMore.
Import PyStr.

(** [n * s]. *)
Definition times (n : nat) (s : string) : string :=
  String.concat "" (replicate n s).

(** [s.strip()]. *)
Fixpoint lstrip (s : string) : string :=
  match s with
  | EmptyString => ""
  | String c s' => if is_space c then lstrip s' else s
  end.

Definition reverse_str (s : string) : string :=
  string_of_list_ascii (rev (list_ascii_of_string s)).

Definition strip (s : string) : string :=
  reverse_str (lstrip (reverse_str (lstrip s))).

(** [not t or not t.strip()] on a text that may be [None]. *)
Definition blank (t : option string) : bool :=
  match t with
  | None => true
  | Some s => bool_decide (s = "") || bool_decide (strip s = "")
  end.
End PyStrMore.

(** * _utils: the remaining functions *)

(** What [validate_poly] and [consolidate_polys] call besides the
    interface [Shapely]: [geom_is_valid p] is [p.is_valid],
    [geom_buffer p d] is [p.buffer(d)], [geom_within h p] is
    [h.within(p)]. *)
Class ShapelyPredicates (float_t geom : Type) : Type := {
  geom_is_valid : geom -> bool;
  geom_buffer : geom -> float_t -> result geom;
  geom_within : geom -> geom -> result bool }.

Module UtilsMore.
Section UtilsMore.
Context {float_t geom : Type}.
Context `{Builtins float_t} `{Shapely float_t geom}.
Context `{ShapelyPredicates float_t geom}.

Definition validate_poly (poly : geom) (poly_buffer : float_t) : result geom :=
  if negb (geom_is_valid poly) then geom_buffer poly poly_buffer
  else Ok poly.

(** The loop of [consolidate_polys] over [hole_list]. *)
Definition add_hole (poly hole : geom) : result geom :=
  w ← geom_within hole poly;
  if w : bool then geom_difference poly hole else geom_union poly hole.

Definition consolidate_polys (poly_list : list geom)
    (hole_list : option (list geom)) : result (option geom) :=
  poly ← match poly_list with
         | [] => Ok empty_Polygon
         | [p] => Ok p
         | _ => MultiPolygon poly_list
         end;
  poly ← match hole_list with
         | Some holes => foldM add_hole poly holes
         | None => Ok poly
         end;
  Ok (if geom_is_empty poly then None else Some poly).
End UtilsMore.
End UtilsMore.

(** * _geoset: [__str__]

    The three [__str__] methods read the tree and build a text; they are
    modelled on the tree as a value. The lines are joined with a newline
    at the end. *)

Module GeosetStr.
Section GeosetStr.
Context {float_t geom header : Type}.
Context `{Builtins float_t} `{Shapely float_t geom}.
Import PyStr PyStrMore.

(** [', {0:d} attr(s)'.format(len(self.attrs))], or the empty text. *)
Definition attrstr (attrs : option (odict float_t)) : string :=
  match attrs with
  | None => ""
  | Some d => ", " +:+ format_d (Z.of_nat (length d)) +:+ " attr(s)"
  end.

Definition Geo___str__ (self : Geo float_t geom) (i n : option Z)
    (indent : string) (level : nat) : string :=
  let geostr := match geo_geo self with
                | None => "None"
                | Some p => geom_type p
                end in
  let attrstr := attrstr (geo_attrs self) in
  let istr := match i, n with
              | Some i, Some n =>
                  " " +:+ format_d i +:+ "," +:+ format_d (i + n) +:+ ": "
              | Some i, None => " " +:+ format_d i +:+ ": "
              | None, _ => ": "
              end in
  times level indent +:+ "Geo" +:+ istr +:+ geostr +:+ attrstr.

(** The list [lines] of [Item.__str__]; the geos are printed with the
    default indent. *)
Definition Item_lines (self : Item float_t geom) (i n : option Z)
    (indent : string) (level : nat) : list string :=
  let geosstr := if bool_decide (item_geos self = []) then "None"
                 else format_d (Z.of_nat (length (item_geos self)))
                      +:+ " geo(s)" in
  let attrstr := attrstr (item_attrs self) in
  let istr := match i with
              | None => ": "
              | Some i => " " +:+ format_d i +:+ ": "
              end in
  (times level indent +:+ "Item" +:+ istr +:+ geosstr +:+ attrstr)
  :: map (fun jg => Geo___str__ (snd jg) (Some (Z.of_nat (fst jg) + 1)) n
                      "    " (level + 1))
         (enumerate (item_geos self)).

Definition Item___str__ (self : Item float_t geom) (i n : option Z)
    (indent : string) (level : nat) : string :=
  join nl (Item_lines self i n indent level).

(** [sum([len(item.geos) for item in self.items])]. *)
Definition ngeos (items : list (Item float_t geom)) : Z :=
  fold_left Z.add (map (fun item => Z.of_nat (length (item_geos item))) items) 0.

(** The loop of [Geoset.__str__], which counts in [n] the geos of the
    items already printed. *)
Definition Geoset_loop (items : list (Item float_t geom)) (first : string)
  : list string * Z :=
  fold_left
    (fun '(lines, n) ji =>
       (lines ++ [Item___str__ (snd ji) (Some (Z.of_nat (fst ji) + 1)) (Some n)
                    "    " 1],
        n + Z.of_nat (length (item_geos (snd ji)))))
    (enumerate items) ([first], 0).

(** [geosstr] is assigned in the second branch only; reading it in the
    first is an [UnboundLocalError], a [NameError]. *)
Definition Geoset___str__ (self : Geoset float_t geom header) : result string :=
  let '(itemsstr, geosstr) :=
    if bool_decide (gs_items self = []) then (": None", None)
    else (": " +:+ format_d (Z.of_nat (length (gs_items self))) +:+ " item(s)",
          Some (", " +:+ format_d (ngeos (gs_items self)) +:+ " geo(s)")) in
  let attrstr := attrstr (gs_attrs self) in
  let hdrstr := match gs_hdr self with None => "" | Some _ => ", FITS header" end in
  geosstr ← match geosstr with
            | Some g => Ok g
            | None => Raise NameError
            end;
  let first := "Geoset" +:+ itemsstr +:+ geosstr +:+ attrstr +:+ hdrstr in
  Ok (join nl (fst (Geoset_loop (gs_items self) first))).
End GeosetStr.
End GeosetStr.

(** * polylistxml: [pretty_format]

    The formatter assigns to [text] and [tail] of the elements of the tree
    it is given; an element has one parent, so the tree formatted is
    returned as a value. *)

Module PolylistxmlFormat.
Import PyStr PyStrMore.

(** The statement after the loop [for elem in elem], where [elem] is the
    last child: its tail is set to [i] when blank. *)
Definition dedent_last (i : string) (c : list element) : list element :=
  alter (fun e => if blank (tail e) then set_tail (Some i) e else e)
    (length c - 1)%nat c.

(** [pretty_format(elem, level, indent)]; the recursive call leaves
    [indent] at its default. *)
Fixpoint pretty_format (elem : element) (level : nat) (indent : string)
  : element :=
  match elem with
  | Element tg at_ tx tl c =>
      let i := nl +:+ times level "  " in
      match c with
      | [] =>
          if negb (Nat.eqb level 0) && blank tl
          then Element tg at_ tx (Some i) []
          else elem
      | _ :: _ =>
          let tx := if blank tx then Some (i +:+ "  ") else tx in
          let tl := if blank tl then Some i else tl in
          let c := map (fun e => pretty_format e (level + 1) "  ") c in
          Element tg at_ tx tl (dedent_last i c)
      end
  end.

(** An element with every blank text and tail of its tree taken away: what
    is left is what an XML reader that ignores whitespace sees. *)
Fixpoint unspaced (elem : element) : element :=
  match elem with
  | Element tg at_ tx tl c =>
      Element tg at_ (if blank tx then None else tx)
        (if blank tl then None else tl) (map unspaced c)
  end.
End PolylistxmlFormat.

(** * _geoset: the methods of [Item] and [Geoset]

    [pix2world], [world2pix], [translate] and [copy] of an [Item] call the
    method of the same name on each element of [self.geos], collect the
    results in a new list, copy the attributes and build a new [Item];
    those of a [Geoset] do the same with [self.items] and copy the header.
    The elements of [self.geos] are taken to be [Geo] instances and those
    of [self.items] to be [Item] instances, as the classes document. *)

Module GeosetMethods.
Section Methods.
Context {float_t geom header wcs_t : Type}.
Context `{Builtins float_t} `{Shapely float_t geom}.
Context `{FitsHeader float_t header} `{AstropyWcs float_t header wcs_t}.
Import GeosetModel.

(** [[f(x) for x in v]]: a new list, filled in the order of [v]. *)
Definition comprehension (v : value) (f : value -> @M float_t geom header value)
  : @M float_t geom header value :=
  bind (alloc_list []) (fun out =>
  bind (iterate v) (fun xs =>
  bind (for_each xs (fun x => bind (f x) (fun y => append out y))) (fun _ =>
  ret out))).

(** The common body of the four methods of [Item], for the method
    [geo_method] of [Geo]. *)
Definition Item_rebuild (geo_method : value -> @M float_t geom header value)
    (self : value) : @M float_t geom header value :=
  bind (get_item self) (fun o =>
  bind (comprehension (io_geos o) geo_method) (fun geos =>
  bind (get_item self) (fun o' =>
  Item_init geos (copy_attrs (io_attrs o'))))).

Definition Item_pix2world (self : value) (hdr : option header)
  : @M float_t geom header value :=
  Item_rebuild (fun geo => Geo_pix2world geo hdr) self.

Definition Item_world2pix (self : value) (hdr : option header)
  : @M float_t geom header value :=
  Item_rebuild (fun geo => Geo_world2pix geo hdr) self.

Definition Item_translate (self : value) (dx dy : float_t)
  : @M float_t geom header value :=
  Item_rebuild (fun geo => Geo_translate geo dx dy) self.

Definition Item_copy (self : value) : @M float_t geom header value :=
  Item_rebuild Geo_copy self.

(** The common body of the four methods of [Geoset], after the choice of
    the header for the conversion. *)
Definition Geoset_rebuild (item_method : value -> @M float_t geom header value)
    (self : value) : @M float_t geom header value :=
  bind (get_geoset self) (fun o =>
  bind (comprehension (go_items o) item_method) (fun items =>
  bind (get_geoset self) (fun o' =>
  Geoset_init items (copy_attrs (go_attrs o'))
    (match go_hdr o' with
     | None => None
     | Some h => Some (header_copy h)
     end)))).

(** [if hdr is None: hdr = self.hdr]. *)
Definition default_hdr (self : value) (hdr : option header)
  : @M float_t geom header (option header) :=
  match hdr with
  | None => bind (get_geoset self) (fun o => ret (go_hdr o))
  | Some _ => ret hdr
  end.

Definition Geoset_pix2world (self : value) (hdr : option header)
  : @M float_t geom header value :=
  bind (default_hdr self hdr) (fun hdr =>
  Geoset_rebuild (fun item => Item_pix2world item hdr) self).

Definition Geoset_world2pix (self : value) (hdr : option header)
  : @M float_t geom header value :=
  bind (default_hdr self hdr) (fun hdr =>
  Geoset_rebuild (fun item => Item_world2pix item hdr) self).

Definition Geoset_translate (self : value) (dx dy : float_t)
  : @M float_t geom header value :=
  Geoset_rebuild (fun item => Item_translate item dx dy) self.

Definition Geoset_copy (self : value) : @M float_t geom header value :=
  Geoset_rebuild Item_copy self.

(** *** The methods on the tree as a value

    What each method does to one geometry, and the tree that results when
    that is done to every [Geo]: the geometry converted, or absent as
    before, the attribute maps copied, the header copied. *)
Definition copy_geometry (p : geom) : result geom :=
  geom_union p empty_Point.

Definition translate_geometry (dx dy : float_t) (p : geom) : result geom :=
  l ← Utils.poly_translate [p] (Utils.One dx) (Utils.One dy);
  subscript l 0.

Definition pix2world_geometry (hdr : option header) (p : geom)
  : result geom :=
  l ← Utils.poly_pix2world [p] (Utils.One hdr);
  subscript l 0.

Definition world2pix_geometry (hdr : option header) (p : geom)
  : result geom :=
  l ← Utils.poly_world2pix [p] (Utils.One hdr);
  subscript l 0.

Definition geo_step (f : geom -> result geom) (g : Geo float_t geom)
  : result (Geo float_t geom) :=
  geo ← match geo_geo g with
        | None => Ok None
        | Some p => Some <$> f p
        end;
  Ok (mkGeo geo (copy_attrs (geo_attrs g))).

Definition item_step (f : geom -> result geom) (it : Item float_t geom)
  : result (Item float_t geom) :=
  geos ← mapM (geo_step f) (item_geos it);
  Ok (mkItem geos (copy_attrs (item_attrs it))).

Definition geoset_step (f : geom -> result geom)
    (g : Geoset float_t geom header) : result (Geoset float_t geom header) :=
  items ← mapM (item_step f) (gs_items g);
  Ok (mkGeoset items (copy_attrs (gs_attrs g))
        (match gs_hdr g with
         | None => None
         | Some h => Some (header_copy h)
         end)).

(** *** The store after a method

    [Geo(geo, attrs)] adds one [Geo]. A method of [Geo] that does [f] to
    the geometry adds the [Geo] of [geo_step f], or raises what [f]
    raises. *)
Definition with_geo (s : @store float_t geom header) (g : Geo float_t geom)
  : @store float_t geom header :=
  mkStore (st_lists s) (st_geos s ++ [g]) (st_items s) (st_geosets s).

Definition geo_method_does (geo_method : value -> @M float_t geom header value)
    (f : geom -> result geom) : Prop :=
  forall (s : @store float_t geom header) (a : nat) (g : Geo float_t geom),
    st_geos s !! a = Some g ->
    geo_method (VGeo a) s
    = match geo_step f g with
      | Ok g' => Ok (VGeo (length (st_geos s)), with_geo s g')
      | Raise e => Raise e
      end.

(** A method of [Item] adds the [Geo]s of the new tree [it], the list of
    the comprehension that refers to them and, when that list is empty,
    the empty list that [Item.__init__] puts in its place, and the
    [Item]. *)
Definition with_item (s : @store float_t geom header) (it : Item float_t geom)
  : @store float_t geom header :=
  let n := length (item_geos it) in
  mkStore
    (st_lists s ++ map VGeo (seq (length (st_geos s)) n)
                   :: (if Nat.eqb n 0 then [[]] else []))
    (st_geos s ++ item_geos it)
    (st_items s
     ++ [mkItemObj (VList (if Nat.eqb n 0 then length (st_lists s) + 1
                           else length (st_lists s)))
           (item_attrs it)])
    (st_geosets s).

(** *** Stores that grow

    [s'] has every object of [s] at its address, unchanged, and maybe
    more. *)
Definition extends (s s' : @store float_t geom header) : Prop :=
  st_lists s `prefix_of` st_lists s' /\
  st_geos s `prefix_of` st_geos s' /\
  st_items s `prefix_of` st_items s' /\
  st_geosets s `prefix_of` st_geosets s'.

(** The [Item] [v] of [s'] holds the tree [it] in objects that [s] does
    not have: the [Item] itself, its list and its [Geo]s. *)
Definition new_item (s s' : @store float_t geom header) (v : value) (it : Item float_t geom)
  : Prop :=
  exists b o c gl,
    v = VItem b /\ (length (st_items s) <= b)%nat /\
    st_items s' !! b = Some o /\ io_attrs o = item_attrs it /\
    io_geos o = VList c /\ (length (st_lists s) <= c)%nat /\
    st_lists s' !! c = Some gl /\
    Forall2 (fun w g => exists d, w = VGeo d /\ (length (st_geos s) <= d)%nat /\
                                  st_geos s' !! d = Some g)
      gl (item_geos it).

(** The same for a [Geoset] and its tree. *)
Definition new_geoset (s s' : @store float_t geom header) (v : value)
    (t : Geoset float_t geom header) : Prop :=
  exists a o c il,
    v = VGeoset a /\ (length (st_geosets s) <= a)%nat /\
    st_geosets s' !! a = Some o /\
    go_attrs o = gs_attrs t /\ go_hdr o = gs_hdr t /\
    go_items o = VList c /\ (length (st_lists s) <= c)%nat /\
    st_lists s' !! c = Some il /\
    Forall2 (new_item s s') il (gs_items t).

(** The store [sk] while the comprehension of a method of [Geoset] runs
    on the store [s]: the new list is the first list after those of [s]
    and refers to the [Item]s made so far, which hold the trees [done] in
    objects that [s] does not have and in lists other than the new
    list. *)
Definition with_list (s : @store float_t geom header)
  : @store float_t geom header :=
  mkStore (st_lists s ++ [[]]) (st_geos s) (st_items s) (st_geosets s).

Definition rebuilding (s sk : @store float_t geom header)
    (done : list (Item float_t geom)) : Prop :=
  extends s sk /\
  st_geosets sk = st_geosets s /\
  length (st_items sk) = (length (st_items s) + length done)%nat /\
  st_lists sk !! length (st_lists s)
  = Some (map VItem (seq (length (st_items s)) (length done))) /\
  Forall2 (new_item (with_list s) sk)
    (map VItem (seq (length (st_items s)) (length done))) done.
End Methods.
End GeosetMethods.

(** * More of the reference implementation *)

Module ReferenceMore.
Import Reference.

(** A ring lies in the box of another. *)
Definition in_box (ring : list (Z * Z)) (p : Z * Z) : bool :=
  existsb (fun q => fst q <=? fst p) ring
  && existsb (fun q => fst p <=? fst q) ring
  && existsb (fun q => snd q <=? snd p) ring
  && existsb (fun q => snd p <=? snd q) ring.

#[global] Instance ref_predicates : ShapelyPredicates rfloat rgeom := {|
  geom_is_valid g := true;
  geom_buffer g d := Ok g;
  geom_within h p :=
    match h, p with
    | RPolygon hs _, RPolygon ps _ => Ok (forallb (in_box ps) hs)
    | _, _ => Ok false
    end |}.
End ReferenceMore.

(** * ds9regfile: attribute texts

    The text [key=value key=value ...] that [parse_ds9_attrs] is written
    for, and the pieces that the parser cuts it into. *)

Module Ds9Attrs.
Import PyStr.

Definition pair_text (kv : string * string) : string :=
  fst kv +:+ "=" +:+ snd kv.

Definition attrs_text (kvs : list (string * string)) : string :=
  join " " (map pair_text kvs).

(** A value with its pair of quotes or braces taken off: what the test on
    [val] in [parse_ds9_attrs] leaves of a value that is not empty. *)
Definition unquoted (val : string) : string :=
  match first_char val, last_char val with
  | Some a, Some b =>
      if (Ascii.eqb a (ascii_of_nat 34) && Ascii.eqb b (ascii_of_nat 34))
         || (Ascii.eqb a "{" && Ascii.eqb b "}")
      then slice val 1 (-1)
      else val
  | _, _ => val
  end.

(** A key has no space and no equals sign; a value is not empty and has
    no equals sign (it may have spaces). *)
Definition key_ok (k : string) : Prop :=
  contains_char " " k = false /\ contains_char "=" k = false.

Definition val_ok (v : string) : Prop :=
  v <> "" /\ contains_char "=" v = false.

(** The texts between the equals signs of [w key=value ... key=value junk]:
    each value with the key that follows it. *)
Fixpoint segments (w : string) (kvs : list (string * string)) : list string :=
  match kvs with
  | [] => [w +:+ " junk"]
  | kv :: kvs' => (w +:+ " " +:+ fst kv) :: segments (snd kv) kvs'
  end.

(** The same with the last character of the text left out, as the slice
    that ends at [-1] leaves it out. *)
Fixpoint segments_cut (w : string) (kvs : list (string * string))
  : list string :=
  match kvs with
  | [] => [w +:+ " jun"]
  | kv :: kvs' => (w +:+ " " +:+ fst kv) :: segments_cut (snd kv) kvs'
  end.
End Ds9Attrs.

(** * ds9regfile: a tree written and read

    What is needed to say that a tree is written by [write] and read back
    by [read]: the polygons that the reader makes of the rings written,
    the geometry that it puts together from the lines of one [Geo], and
    the state of the reader between two lines of the text. *)

From Stdlib Require DecimalPos DecimalZ.

Module Ds9RoundTrip.
Section Ds9RoundTrip.
Context {float_t geom header : Type}.
Context `{Builtins float_t} `{Shapely float_t geom}.
Import PyStr Ds9regfile.

(** A decimal digit. *)
Definition digit (c : ascii) : bool :=
  (48 <=? nat_of_ascii c)%nat && (nat_of_ascii c <=? 57)%nat.

(** The ring [ring] is written in the format [fmt] as a text that the
    reader takes as a ring of which the library makes the polygon [q]. *)
Definition ring_read (fmt : string) (ring : list (float_t * float_t))
    (q : geom) : Prop :=
  exists ring', rereads fmt ring ring' /\ Polygon ring' = Ok q.

(** [poly = geo.geo; if poly.type == 'Polygon': poly = [poly]], and the
    polygons that the loop over [poly] goes through. *)
Definition polygons_of (p : geom) : result (list geom) :=
  if String.eqb (geom_type p) "Polygon" then Ok [p] else geom_iter p.

(** The polygon [p] is written as lines that are read as the polygon of
    its exterior, [fst part], and the polygons of its holes,
    [snd part]. *)
Definition part_read (fmt : string) (p : geom) (part : geom * list geom)
  : Prop :=
  exists e hs,
    exterior_coords p = Ok e /\ interiors_coords p = Ok hs /\
    ring_read fmt e (fst part) /\ Forall2 (ring_read fmt) hs (snd part).

(** What the reader makes of the geometry [g] and the lines of one more
    polygon: the union with the exterior, less the holes one by one. *)
Definition merge_part (g : geom) (part : geom * list geom) : result geom :=
  u ← geom_union g (fst part); foldM geom_difference u (snd part).

(** The [Geo] [ge] is written in the format [fmt] as lines of which the
    reader makes the geometry [d]: its geometry has at least one polygon,
    the first is read as its exterior less its holes, and each further
    one is merged into the result. *)
Definition geo_written (fmt : string) (ge : Geo float_t geom) (d : geom)
  : Prop :=
  exists p polys part parts d0,
    geo_geo ge = Some p /\ polygons_of p = Ok polys /\
    Forall2 (part_read fmt) polys (part :: parts) /\
    foldM geom_difference (fst part) (snd part) = Ok d0 /\
    foldM merge_part d0 parts = Ok d.

(** A line of the text: it ends with its only newline. *)
Definition whole_line (line : string) : Prop :=
  exists b, line = b +:+ nl /\ contains_char (ascii_of_nat 10) b = false.

(** The lines [lines] are the line of the coordinate system and polygon
    lines that are read, from the start, as the Root [root], the last of
    them with the triple [prev]. *)
Definition lines_read (lines : list string) (root : list (list geom))
    (prev : option (Z * Z * Z)) : Prop :=
  exists L lns,
    lines = ("physical" +:+ nl) :: L /\
    Forall whole_line L /\ Forall2 reads_as L lns /\
    foldM spec_step ([], None) lns = Ok (root, prev).

(** No line has been read for the item [i] or a later one. *)
Definition before_item (i : nat) (prev : option (Z * Z * Z)) : Prop :=
  match prev with
  | None => True
  | Some (i', _, _) => i' < Z.of_nat i
  end.

(** The reader before the lines of the [Geo] number [j] of the item
    number [i], [grp] being what it has made of the [Geo]s of the item
    before that one and [r] of the items before: either nothing was
    written for this item, or its group is the last of the Root. *)
Definition next_geo (i j : nat) (r : list (list geom)) (grp : list geom)
    (root : list (list geom)) (prev : option (Z * Z * Z)) : Prop :=
  (grp = [] /\ root = r /\ before_item i prev) \/
  (grp <> [] /\ root = r ++ [grp] /\
   exists j' k', prev = Some (Z.of_nat i, j', k') /\ j' < Z.of_nat j).
End Ds9RoundTrip.
End Ds9RoundTrip.

(** A tree for the reference libraries: an item without [Geo], an item
    with a triangle and a MultiPolygon of a square with a hole and a far
    triangle, and an item with the square with its hole. *)
Module ReferenceTree.
Import Reference.

Definition far_triangle : rgeom :=
  RPolygon [(20, 20); (24, 20); (20, 24); (20, 20)] [].

Definition mixed_tree : Geoset rfloat rgeom rheader :=
  mkGeoset
    [ mkItem [] (Some [("n", SInt 0)]);
      mkItem [ mkGeo (Some triangle) None;
               mkGeo (Some (RMulti [holed_square; far_triangle]))
                 (Some [("name", SStr "two")]) ]
             None;
      mkItem [mkGeo (Some holed_square) None] None ]
    (Some [("epoch", SInt 2000)])
    (Some [("CRVAL1", SInt 3)]).
End ReferenceTree.

(** * Properties *)


(** ** Generic facts about [result] and [mapM] *)

Lemma mapM_Ok {A B} (f : A -> B) (l : list A) :
  mapM (fun x => Ok (f x)) l = Ok (map f l).
Proof.
  induction l as [|x l IH]; simpl; [reflexivity|].
  rewrite IH. reflexivity.
Qed.

Lemma mapM_ext_result {A B} (f g : A -> result B) (l : list A) :
  (forall x, x ∈ l -> f x = g x) -> mapM f l = mapM g l.
Proof.
  induction l as [|x l IH]; intros Hfg; simpl; [reflexivity|].
  rewrite (Hfg x) by constructor.
  rewrite IH; [reflexivity|]. intros y Hy. apply Hfg. by constructor.
Qed.

Lemma mapM_map_Forall2 {A B C} (f : B -> result C) (g : A -> B)
    (R : A -> C -> Prop) (l : list A) :
  (forall x, x ∈ l -> exists y, f (g x) = Ok y /\ R x y) ->
  exists k, mapM f (map g l) = Ok k /\ Forall2 R l k.
Proof.
  induction l as [|x l IH]; intros Hf; simpl.
  - exists []. split; [reflexivity|constructor].
  - destruct (Hf x) as (y & Hy & Hxy); [constructor|].
    destruct IH as (k & Hk & HF).
    { intros z Hz. apply Hf. by constructor. }
    exists (y :: k). rewrite Hy. simpl. rewrite Hk. simpl.
    split; [reflexivity|by constructor].
Qed.

Lemma foldM_collect_app {A B} (f : A -> result B) (l : list A) (acc : list B) :
  foldM (fun out x => y ← f x; Ok (out ++ [y])) acc l =
  (k ← mapM f l; Ok (acc ++ k)).
Proof.
  revert acc. induction l as [|x l IH]; intros acc; simpl.
  - by rewrite app_nil_r.
  - destruct (f x) as [y|e]; simpl; [|reflexivity].
    rewrite IH. destruct (mapM f l) as [k|e]; simpl; [|reflexivity].
    by rewrite <- app_assoc.
Qed.

Lemma collect_mapM {A B} (f : A -> result B) (l : list A) :
  collect f l = mapM f l.
Proof.
  unfold collect. rewrite foldM_collect_app.
  by destruct (mapM f l).
Qed.


(** ** _utils *)

Section UtilsFacts.
Context {float_t geom : Type}.
Context `{Builtins float_t} `{Shapely float_t geom}.
Import Utils.

Lemma extraneous_false (p : geom) :
  extraneous p = false ->
  geom_type p = "Polygon" /\ geom_is_empty p = false /\
  float_is_zero (geom_area p) = false.
Proof.
  unfold extraneous. intros Hx.
  apply orb_false_iff in Hx as [Hx Hz].
  apply orb_false_iff in Hx as [Ht He].
  apply negb_false_iff, String.eqb_eq in Ht. auto.
Qed.

Lemma kept_parts_clean (parts : list geom) :
  Forall (fun p => geom_type p = "Polygon" /\ geom_is_empty p = false /\
                   float_is_zero (geom_area p) = false)
         (filter (fun p => extraneous p = false) parts).
Proof.
  induction parts as [|p parts IH]; [constructor|].
  rewrite filter_cons. case_decide as Hp; [|exact IH].
  constructor; [by apply extraneous_false|exact IH].
Qed.

Lemma clean_poly_cleaned (poly r : geom) :
  clean_poly poly = Ok r -> cleaned r.
Proof.
  unfold clean_poly. destruct (components poly) as [parts|e]; [|discriminate].
  simpl. intros Hr.
  exists (filter (fun p => extraneous p = false) parts).
  split; [apply kept_parts_clean|].
  destruct (filter _ parts) as [|p [|q l]]; simpl in *.
  - by injection Hr.
  - by injection Hr.
  - exact Hr.
Qed.

Lemma proper_part_spec (p : geom) :
  extraneous p = false <-> proper_part p = true.
Proof.
  unfold extraneous, proper_part.
  destruct (String.eqb (geom_type p) "Polygon"), (geom_is_empty p),
    (float_is_zero (geom_area p)); simpl; split; congruence.
Qed.

(** The loop of [clean_poly] is the cleanup pass. *)
Lemma clean_poly_pass (poly : geom) :
  clean_poly poly = (parts ← components poly; cleanup_pass parts).
Proof.
  unfold clean_poly, cleanup_pass.
  destruct (components poly) as [parts|e]; [|reflexivity].
  cbn [mbind result_bind].
  rewrite (list_filter_iff _ _ parts proper_part_spec). cbv zeta.
  by destruct (filter _ parts) as [|p [|q l]].
Qed.

(** C8. [safe_difference] returns the cleaned difference when the
    library computes it; when the library raises a topological error it
    subtracts the components of the subtrahend one by one from a copy of
    the first operand and cleans that; any other failure of the first
    difference, and any failure during the retry, is raised to the caller.
    The cleanup pass is, on every geometry, the removal of the parts that
    are not polygons, are empty or have no area, and what
    [safe_difference] returns is that pass applied to the parts of the
    difference computed, at once or by the retry. *)
Theorem C8_safe_difference_recovery (poly1 poly2 : geom) :
  (forall d, geom_difference poly1 poly2 = Ok d ->
     safe_difference poly1 poly2 = clean_poly d) /\
  (geom_difference poly1 poly2 = Raise TopologicalError ->
     safe_difference poly1 poly2 =
       (poly ← retry_per_component poly1 poly2; clean_poly poly) /\
     forall e, retry_per_component poly1 poly2 = Raise e ->
       safe_difference poly1 poly2 = Raise e) /\
  (forall e, e <> TopologicalError ->
     geom_difference poly1 poly2 = Raise e ->
     safe_difference poly1 poly2 = Raise e) /\
  (forall r, safe_difference poly1 poly2 = Ok r -> cleaned r) /\
  (forall poly,
     clean_poly poly = (parts ← components poly; cleanup_pass parts)) /\
  (forall r, safe_difference poly1 poly2 = Ok r ->
     exists d parts,
       (geom_difference poly1 poly2 = Ok d \/
        geom_difference poly1 poly2 = Raise TopologicalError /\
        retry_per_component poly1 poly2 = Ok d) /\
       components d = Ok parts /\ cleanup_pass parts = Ok r).
Proof.
  unfold safe_difference, retry_per_component.
  split; [|split; [|split; [|split; [|split]]]].
  - intros d ->. reflexivity.
  - intros ->. simpl. split; [reflexivity|].
    intros e ->. reflexivity.
  - intros e He ->. simpl. rewrite decide_False by exact He. reflexivity.
  - intros r Hr.
    destruct (try_except _ _ _) as [poly|e]; [|discriminate].
    simpl in Hr. by apply clean_poly_cleaned in Hr.
  - apply clean_poly_pass.
  - intros r Hr.
    destruct (try_except _ _ _) as [d|e] eqn:Hd; [|discriminate].
    cbn [mbind result_bind] in Hr. rewrite clean_poly_pass in Hr.
    destruct (components d) as [parts|e] eqn:Hparts; [|discriminate].
    cbn [mbind result_bind] in Hr.
    exists d, parts. split; [|by split].
    unfold try_except in Hd.
    destruct (geom_difference poly1 poly2) as [d'|e]; [left; congruence|].
    destruct (decide (e = TopologicalError)) as [->|]; [|discriminate].
    by right.
Qed.
End UtilsFacts.

(** On the reference implementation: subtracting two separate squares at
    once fails, and the retry cuts both out of the outer square; the
    cleanup pass on a multi-polygon of an empty polygon, a triangle, a
    point and a polygon without area leaves the triangle. *)
Lemma C8_safe_difference_recovery_witness :
  Utils.safe_difference
    (Reference.RPolygon Reference.outer_ring [])
    (Reference.RMulti
       [Reference.RPolygon Reference.hole_ring [];
        Reference.RPolygon [(6, 6); (6, 8); (8, 8); (8, 6); (6, 6)] []])
  = Ok (Reference.RPolygon Reference.outer_ring
          [Reference.hole_ring; [(6, 6); (6, 8); (8, 8); (8, 6); (6, 6)]]) /\
  Utils.cleaned
    (Reference.RPolygon Reference.outer_ring
       [Reference.hole_ring; [(6, 6); (6, 8); (8, 8); (8, 6); (6, 6)]]) /\
  Utils.clean_poly
    (Reference.RMulti
       [Reference.RPolygon [] []; Reference.triangle; Reference.RPoint;
        Reference.RPolygon [(1, 1); (2, 2); (1, 1)] []])
  = Ok Reference.triangle.
Proof.
  pose proof (C8_safe_difference_recovery
                (Reference.RPolygon Reference.outer_ring [])
                (Reference.RMulti
                   [Reference.RPolygon Reference.hole_ring [];
                    Reference.RPolygon
                      [(6, 6); (6, 8); (8, 8); (8, 6); (6, 6)] []]))
    as (_ & Hretry & _ & Hclean & Hpass & _).
  destruct (Hretry eq_refl) as [Heq _].
  assert (Hres : Utils.safe_difference
    (Reference.RPolygon Reference.outer_ring [])
    (Reference.RMulti
       [Reference.RPolygon Reference.hole_ring [];
        Reference.RPolygon [(6, 6); (6, 8); (8, 8); (8, 6); (6, 6)] []])
    = Ok (Reference.RPolygon Reference.outer_ring
          [Reference.hole_ring; [(6, 6); (6, 8); (8, 8); (8, 6); (6, 6)]])).
  { rewrite Heq. vm_compute. reflexivity. }
  split; [exact Hres|]. split; [apply Hclean; exact Hres|].
  rewrite Hpass. vm_compute. reflexivity.
Defined.

(** ** _geoset *)

Section AttrsFacts.
Context {float_t : Type}.

Lemma od_set_fresh k (v : scalar float_t) d :
  k ∉ map fst d -> od_set k v d = d ++ [(k, v)].
Proof.
  induction d as [|[k' v'] d IH]; simpl; intros Hk; [reflexivity|].
  destruct (String.eqb_spec k' k) as [->|Hne].
  - exfalso. apply Hk. by constructor.
  - rewrite IH; [reflexivity|]. intros Hin. apply Hk. by constructor.
Qed.

Lemma OrderedDict_from (acc d : odict float_t) :
  NoDup (map fst (acc ++ d)) ->
  fold_left (fun d kv => od_set (fst kv) (snd kv) d) d acc = acc ++ d.
Proof.
  revert acc. induction d as [|[k v] d IH]; intros acc Hnd; simpl.
  - by rewrite app_nil_r.
  - rewrite od_set_fresh.
    + rewrite IH; rewrite <- app_assoc; [reflexivity|exact Hnd].
    + rewrite map_app in Hnd. simpl in Hnd.
      apply NoDup_app in Hnd as (_ & Hdisj & _).
      intros Hin. apply (Hdisj k Hin). by constructor.
Qed.

Lemma OrderedDict_id (d : odict float_t) :
  NoDup (map fst d) -> OrderedDict d = d.
Proof. intros Hnd. unfold OrderedDict. by rewrite OrderedDict_from. Qed.

Lemma copy_attrs_id (a : option (odict float_t)) :
  attrs_wf a -> copy_attrs a = a.
Proof.
  destruct a as [d|]; simpl; [|reflexivity].
  intros Hnd. by rewrite OrderedDict_id.
Qed.
End AttrsFacts.

Section GeosetFacts.
Context {float_t geom header wcs_t : Type}.
Context `{Builtins float_t} `{Shapely float_t geom}.
Context `{FitsHeader float_t header} `{AstropyWcs float_t header wcs_t}.
Import GeosetModel.

(** C9. On a [Geo] without geometry, [translate], [pix2world],
    [world2pix] and [copy] all return a new [Geo] (the next free address)
    without geometry and with the attribute map of the original, and leave
    the original as it was. The statement holds for every implementation of
    the geometry and WCS libraries, also one whose every operation raises:
    none of them takes part in the result. *)
Theorem C9_absent_geometry_propagates
    (s : @store float_t geom header) (a : nat) (g : Geo float_t geom)
    (dx dy : float_t) (hdr : option header) :
  st_geos s !! a = Some g -> geo_geo g = None -> attrs_wf (geo_attrs g) ->
  let fresh := VGeo (length (st_geos s)) in
  let s' := mkStore (st_lists s) (st_geos s ++ [mkGeo None (geo_attrs g)])
              (st_items s) (st_geosets s) in
  Geo_translate (VGeo a) dx dy s = Ok (fresh, s') /\
  Geo_pix2world (wcs_t := wcs_t) (VGeo a) hdr s = Ok (fresh, s') /\
  Geo_world2pix (wcs_t := wcs_t) (VGeo a) hdr s = Ok (fresh, s') /\
  Geo_copy (VGeo a) s = Ok (fresh, s') /\
  get_geo fresh s' = Ok (mkGeo None (geo_attrs g), s') /\
  get_geo (VGeo a) s' = Ok (g, s').
Proof.
  intros Ha Hg Hwf fresh s'.
  unfold Geo_translate, Geo_pix2world, Geo_world2pix, Geo_copy, Geo_init,
    bind, get_geo, alloc_geo, ret.
  rewrite Ha, Hg, (copy_attrs_id _ Hwf). simpl.
  repeat split.
  - by rewrite list_lookup_middle.
  - by rewrite (lookup_app_l_Some _ _ _ _ Ha).
Qed.

(** *** Construction *)

Ltac norm_case :=
  repeat split; try done; intros; simpl in *;
  first [ by apply list_lookup_middle
        | repeat match goal with
                 | Hc : _ \/ _ |- _ => destruct Hc
                 | Hc : _ /\ _ |- _ => destruct Hc
                 end; first [ congruence | done | exfalso; tauto ] ].

Lemma Geoset_init_normalizes (hdr : option header) :
  normalizes (fun arg attrs => Geoset_init arg attrs hdr)
    (Geoset_items_field (float_t := float_t) (geom := geom)).
Proof.
  intros s arg attrs Hok.
  unfold Geoset_init, bind, alloc_list, alloc_geoset, ret, falsy, bare.
  destruct arg as [|a|vs|a|a|a]; simpl;
    do 3 eexists; (split; [reflexivity|]); simpl;
    rewrite list_lookup_middle by reflexivity; simpl;
    (split; [reflexivity|]); norm_case.
Qed.

Lemma Geoset_init_by_case (hdr : option header) :
  normalizes_by_case (fun _ arg => arg = VNone)
    (fun arg attrs => Geoset_init arg attrs hdr)
    (Geoset_items_field (float_t := float_t) (geom := geom)).
Proof.
  intros s arg attrs Hok.
  unfold Geoset_init, bind, alloc_list, alloc_geoset, ret, falsy, bare,
    new_list.
  destruct arg as [|a|vs|a|a|a]; simpl;
    do 3 eexists; (split; [reflexivity|]); simpl;
    rewrite list_lookup_middle by reflexivity; simpl;
    (split; [reflexivity|]); norm_case.
Qed.

Lemma Item_init_by_case :
  normalizes_by_case falsy Item_init
    (Item_geos_field (float_t := float_t) (geom := geom) (header := header)).
Proof.
  intros s arg attrs Hok.
  unfold Item_init, bind, truthy, alloc_list, alloc_item, ret, falsy, bare,
    new_list.
  destruct arg as [|a|vs|a|a|a]; simpl.
  2: { destruct (Hok eq_refl) as [l Hl]. simpl in Hl. rewrite Hl.
       destruct l as [|x l]; simpl;
         do 3 eexists; (split; [reflexivity|]); simpl;
         rewrite list_lookup_middle by reflexivity; simpl;
         (split; [reflexivity|]); norm_case. }
  2: { destruct vs as [|x vs]; simpl;
         do 3 eexists; (split; [reflexivity|]); simpl;
         rewrite list_lookup_middle by reflexivity; simpl;
         (split; [reflexivity|]); norm_case. }
  all: do 3 eexists; (split; [reflexivity|]); simpl;
    rewrite list_lookup_middle by reflexivity; simpl;
    (split; [reflexivity|]); norm_case.
Qed.


(** *** The flattened view *)

Lemma seq_values_filling (s : @store float_t geom header) gs acc v l :
  seq_values s v = Some l -> iterate v (filling s gs acc) = Ok (l, filling s gs acc).
Proof.
  destruct v as [|a|vs|a|a|a]; simpl; try discriminate.
  - intros Hl. by rewrite (lookup_app_l_Some _ _ _ _ Hl).
  - by intros [= ->].
Qed.

Lemma fill_group (s : @store float_t geom header) gs a o acc
    (geos : list value) :
  gs !! a = Some o -> go__geos o = VList (length (st_lists s)) ->
  for_each geos
    (fun geo => bind (get_geoset (VGeoset a))
                  (fun o' => append (go__geos o') geo))
    (filling s gs acc)
  = Ok (tt, filling s gs (acc ++ geos)).
Proof.
  intros Ha Hfresh. revert acc.
  induction geos as [|geo geos IH]; intros acc; simpl.
  - by rewrite app_nil_r.
  - unfold bind at 1. unfold bind at 1. simpl. rewrite Ha, Hfresh. simpl.
    rewrite list_lookup_middle by reflexivity.
    rewrite insert_app_r_alt by reflexivity.
    rewrite Nat.sub_diag. simpl.
    change (mkStore (st_lists s ++ [acc ++ [geo]]) (st_geos s) (st_items s) gs)
      with (filling s gs (acc ++ [geo])).
    rewrite IH. by rewrite <- app_assoc.
Qed.

Lemma fill_groups (s : @store float_t geom header) gs a o acc
    (items : list value) groups :
  gs !! a = Some o -> go__geos o = VList (length (st_lists s)) ->
  mapM (fun item =>
          match item with
          | VItem b => io ← st_items s !! b; seq_values s (io_geos io)
          | _ => None
          end) items = Some groups ->
  for_each items
    (fun item =>
       bind (get_item item) (fun io =>
       bind (iterate (io_geos io)) (fun geos =>
       for_each geos (fun geo =>
         bind (get_geoset (VGeoset a)) (fun o' =>
         append (go__geos o') geo)))))
    (filling s gs acc)
  = Ok (tt, filling s gs (acc ++ concat groups)).
Proof.
  intros Ha Hfresh. revert acc groups.
  induction items as [|item items IH]; intros acc groups Hg; simpl in *.
  - injection Hg as <-. simpl. by rewrite app_nil_r.
  - destruct item as [|b|vs|b|b|b]; simpl in Hg; try discriminate.
    destruct (st_items s !! b) as [io|] eqn:Hb; simpl in Hg; [|discriminate].
    destruct (seq_values s (io_geos io)) as [geos|] eqn:Hgeos;
      simpl in Hg; [|discriminate].
    destruct (mapM _ items) as [rest|] eqn:Hrest; simpl in Hg; [|discriminate].
    injection Hg as <-.
    unfold bind at 1. unfold bind at 1. simpl. rewrite Hb.
    unfold bind at 1.
    rewrite (seq_values_filling _ _ _ _ _ Hgeos).
    rewrite (fill_group _ _ _ _ _ _ Ha Hfresh).
    rewrite (IH _ _ eq_refl). simpl. by rewrite app_assoc.
Qed.

Lemma seq_values_filling' (s : @store float_t geom header) gs acc v l :
  seq_values s v = Some l -> seq_values (filling s gs acc) v = Some l.
Proof.
  destruct v as [|b|vs|b|b|b]; simpl; try done.
  intros Hl. by rewrite (lookup_app_l_Some _ _ _ _ Hl).
Qed.

Lemma groups_filling (s : @store float_t geom header) gs acc
    (items : list value) groups :
  mapM (fun item =>
          match item with
          | VItem b => io ← st_items s !! b; seq_values s (io_geos io)
          | _ => None
          end) items = Some groups ->
  mapM (fun item =>
          match item with
          | VItem b => io ← st_items (filling s gs acc) !! b;
                       seq_values (filling s gs acc) (io_geos io)
          | _ => None
          end) items = Some groups.
Proof.
  revert groups. induction items as [|item items IH]; intros groups Hg.
  - exact Hg.
  - simpl in *.
    destruct item as [|b|vs|b|b|b]; simpl in *; try discriminate.
    destruct (st_items s !! b) as [io|]; simpl in *; [|discriminate].
    destruct (seq_values s (io_geos io)) as [geos|] eqn:Hgeos;
      simpl in *; [|discriminate].
    rewrite (seq_values_filling' _ gs acc _ _ Hgeos). simpl.
    destruct (mapM _ items) as [rest|] eqn:Hrest; simpl in *; [|discriminate].
    by rewrite (IH _ eq_refl).
Qed.

(** C6. [Geoset.geos] allocates a list on every access, fills it with
    the values of all groups in group order and within each group in the
    order of the group, and returns it; the lists it found, the [Geo]s and
    the [Item]s are as before. The result is computed from the groups as
    they are in the store at the time of the access, whatever [_geos] held,
    so an access after a mutation [m] of the groups shows the mutated
    groups. Groups of sizes 0, 2 and 1 give a view of length 3. *)
Theorem C6_flattened_view
    (s : @store float_t geom header) (a : nat) (groups : list (list value)) :
  groups_of s (VGeoset a) = Some groups ->
  (exists s', Geoset_geos (VGeoset a) s = Ok (VList (length (st_lists s)), s') /\
     st_lists s' = st_lists s ++ [concat groups] /\
     st_geos s' = st_geos s /\ st_items s' = st_items s /\
     groups_of s' (VGeoset a) = Some groups /\
     forall (m : M unit) s1 groups1,
       m s' = Ok (tt, s1) -> groups_of s1 (VGeoset a) = Some groups1 ->
       exists s2,
         Geoset_geos (VGeoset a) s1 = Ok (VList (length (st_lists s1)), s2) /\
         st_lists s2 = st_lists s1 ++ [concat groups1]) /\
  (length <$> groups = [0; 2; 1]%nat -> length (concat groups) = 3%nat).
Proof.
  assert (Hmain : forall (s : @store float_t geom header) groups,
    groups_of s (VGeoset a) = Some groups ->
    exists s', Geoset_geos (VGeoset a) s = Ok (VList (length (st_lists s)), s') /\
      st_lists s' = st_lists s ++ [concat groups] /\
      st_geos s' = st_geos s /\ st_items s' = st_items s /\
      groups_of s' (VGeoset a) = Some groups).
  { clear s groups. intros s groups Hg. unfold groups_of in Hg.
    destruct (st_geosets s !! a) as [o|] eqn:Ho; simpl in Hg; [|discriminate].
    destruct (seq_values s (go_items o)) as [items|] eqn:Hitems;
      simpl in Hg; [|discriminate].
    set (o1 := mkGeosetObj (go_items o) (go_attrs o) (go_hdr o)
                 (VList (length (st_lists s)))).
    set (gs := <[a := o1]> (st_geosets s)).
    assert (Hgs : gs !! a = Some o1).
    { apply list_lookup_insert_eq. by eapply lookup_lt_Some. }
    exists (filling s gs (concat groups)).
    split; [|repeat split].
    - unfold Geoset_geos.
      unfold bind at 1. simpl.
      unfold bind at 1. unfold set_geoset__geos, update_geoset.
      unfold bind at 1. simpl. rewrite Ho. simpl.
      fold o1. fold gs.
      change (mkStore (st_lists s ++ [[]]) (st_geos s) (st_items s) gs)
        with (filling s gs []).
      unfold bind at 1. simpl. rewrite Hgs.
      unfold bind at 1.
      rewrite (seq_values_filling _ _ _ _ _ Hitems).
      unfold bind at 1.
      rewrite (fill_groups _ _ _ _ _ _ _ Hgs eq_refl Hg). simpl.
      unfold bind. simpl. rewrite Hgs. reflexivity.
    - unfold groups_of. simpl. rewrite Hgs. simpl.
      rewrite (seq_values_filling' _ _ _ _ _ Hitems). simpl.
      by apply groups_filling. }
  intros Hg. split.
  - destruct (Hmain s groups Hg) as (s' & Hrun & Hl & Hgeos & Hitems & Hg').
    exists s'. repeat split; try done.
    intros m s1 groups1 _ Hg1.
    destruct (Hmain s1 groups1 Hg1) as (s2 & Hrun2 & Hl2 & _).
    by exists s2.
  - intros Hlen. destruct groups as [|g0 [|g1 [|g2 [|]]]]; try discriminate.
    injection Hlen as H0' H1' H2'.
    simpl. rewrite !length_app, H0', H1', H2'. reflexivity.
Qed.
End GeosetFacts.

(** *** The results on the reference implementation *)

Lemma C9_absent_geometry_propagates_witness :
  GeosetModel.Geo_translate (GeosetModel.VGeo 2) 5 7 Reference.sample_store
  = Ok (GeosetModel.VGeo 3,
        GeosetModel.mkStore
          (GeosetModel.st_lists Reference.sample_store)
          (GeosetModel.st_geos Reference.sample_store ++
             [mkGeo None (Some [("name", SStr "void"); ("n", SInt 1)])])
          (GeosetModel.st_items Reference.sample_store)
          (GeosetModel.st_geosets Reference.sample_store)).
Proof.
  refine (proj1 (C9_absent_geometry_propagates (wcs_t := (Z * Z)%type)
                   Reference.sample_store 2
                   (mkGeo None (Some [("name", SStr "void"); ("n", SInt 1)]))
                   5 7 None _ _ _)).
  - reflexivity.
  - reflexivity.
  - simpl. apply (bool_decide_unpack _). vm_compute. reflexivity.
Defined.



(** Groups of sizes 0, 2 and 1: the view has length 3; after a [Geo] is
    appended to the first group the next access returns a new list of
    length 4. *)
Lemma C6_flattened_view_witness :
  exists s',
    GeosetModel.Geoset_geos (GeosetModel.VGeoset 0) Reference.sample_store
    = Ok (GeosetModel.VList 4, s') /\
    GeosetModel.st_lists s' !! 4%nat
    = Some [GeosetModel.VGeo 0; GeosetModel.VGeo 1; GeosetModel.VGeo 2] /\
    exists s1 s2,
      GeosetModel.append (GeosetModel.VList 1) (GeosetModel.VGeo 2) s'
      = Ok (tt, s1) /\
      GeosetModel.Geoset_geos (GeosetModel.VGeoset 0) s1
      = Ok (GeosetModel.VList 5, s2) /\
      GeosetModel.st_lists s2 !! 5%nat
      = Some [GeosetModel.VGeo 2; GeosetModel.VGeo 0; GeosetModel.VGeo 1;
              GeosetModel.VGeo 2].
Proof.
  destruct (C6_flattened_view Reference.sample_store 0
              [[]; [GeosetModel.VGeo 0; GeosetModel.VGeo 1];
               [GeosetModel.VGeo 2]] eq_refl)
    as ((s' & Hrun & Hlists & _ & _ & _ & Hagain) & Hlen).
  exists s'. split; [exact Hrun|]. split.
  { rewrite Hlists. reflexivity. }
  vm_compute in Hrun. injection Hrun as <-.
  eexists. 
  destruct (Hagain (GeosetModel.append (GeosetModel.VList 1)
                      (GeosetModel.VGeo 2)) _
              [[GeosetModel.VGeo 2];
               [GeosetModel.VGeo 0; GeosetModel.VGeo 1];
               [GeosetModel.VGeo 2]] eq_refl eq_refl)
    as (s2 & Hrun2 & Hlists2).
  exists s2. split; [reflexivity|]. split; [exact Hrun2|].
  rewrite Hlists2. reflexivity.
Defined.

(** ** polylistxml *)

Section PolylistxmlFacts.
Context {float_t geom header : Type}.
Context `{Builtins float_t} `{Wkt geom} `{FitsHeader float_t header}.
Import Polylistxml.

Lemma decode_value_spec (val : string) :
  decode_value val = Ok (infer_spec val).
Proof.
  unfold decode_value, infer_spec, py_int, py_float.
  destruct (int_literal val) as [n|]; simpl; [reflexivity|].
  destruct (float_literal val) as [f|]; simpl; [reflexivity|].
  destruct (String.eqb_spec val "True") as [->|HT].
  { rewrite decide_True by reflexivity. reflexivity. }
  rewrite decide_False by assumption.
  destruct (String.eqb_spec val "False") as [->|HF].
  { rewrite decide_True by reflexivity. reflexivity. }
  rewrite decide_False by assumption. reflexivity.
Qed.

Lemma get_XML_attrs_spec (e : element) :
  get_XML_attrs e =
  Ok (wrap_attrs (map (fun kv => (fst kv, infer_spec (snd kv))) (attrib e))).
Proof.
  unfold get_XML_attrs. rewrite collect_mapM.
  rewrite (mapM_ext_result _
             (fun kv => Ok (fst kv, infer_spec (snd kv)))).
  - rewrite mapM_Ok. reflexivity.
  - intros kv _. rewrite decode_value_spec. reflexivity.
Qed.

Lemma od_set_not_nil k (v : scalar float_t) d : od_set k v d <> [].
Proof. destruct d as [|[k' v'] d]; simpl; [|destruct (String.eqb k' k)]; discriminate. Qed.

Lemma OrderedDict_not_nil (l : list (string * scalar float_t)) :
  l <> [] -> OrderedDict l <> [].
Proof.
  unfold OrderedDict. intros Hl.
  destruct l as [|kv l _] using rev_ind; [done|].
  rewrite fold_left_app. simpl. apply od_set_not_nil.
Qed.

Lemma wrap_attrs_never_empty (l : list (string * scalar float_t)) :
  wrap_attrs l <> Some [].
Proof.
  destruct l as [|kv l]; simpl; [discriminate|].
  intros [= Hd]. by apply (OrderedDict_not_nil (kv :: l)).
Qed.

Lemma no_attrs_written (a : option (odict float_t)) :
  no_attrs a ->
  match a with Some d => add_XML_attrs d [] | None => [] end = [].
Proof. intros [->| ->]; reflexivity. Qed.

(** C4. The legacy decoder infers the type of every attribute value by
    the fixed trial order integer, float, boolean literal, string: the
    decoded map is the element's attributes with [infer_spec] applied to
    each value. So a value that [int] and [float] reject and that reads
    ["True"] decodes to the boolean, also when it was written from the
    string ["True"]. *)
Theorem C4_legacy_type_inference :
  (forall e : element,
      get_XML_attrs e =
      Ok (wrap_attrs
            (map (fun kv => (fst kv, infer_spec (snd kv))) (attrib e)))) /\
  (int_literal "True" = None -> float_literal "True" = None ->
   decode_value "True" = Ok (SBool true) /\
   forall (k : string) (g : option geom), k <> "" ->
     get_XML_attrs (toxml_poly (mkGeo g (Some [(k, SStr "True")]))) =
     Ok (Some [(k, SBool true)])).
Proof.
  split; [apply get_XML_attrs_spec|].
  intros Hi Hf.
  assert (HT : infer_spec "True" = SBool true).
  { unfold infer_spec. rewrite Hi, Hf. reflexivity. }
  split.
  - rewrite decode_value_spec, HT. reflexivity.
  - intros k g Hk. rewrite get_XML_attrs_spec.
    unfold toxml_poly, add_XML_attrs. simpl.
    destruct (String.eqb_spec k "") as [->|_]; [done|].
    simpl. rewrite HT. reflexivity.
Qed.

Lemma fromxml_poly_toxml (ge : Geo float_t geom) :
  wkt_reloads_geo ge ->
  exists ge', fromxml_poly (toxml_poly ge) = Ok ge' /\ absent_kept_geo ge ge'.
Proof.
  intros Hw. unfold fromxml_poly. rewrite get_XML_attrs_spec. simpl.
  destruct (geo_geo ge) as [p|] eqn:Hp; simpl.
  - destruct (Hw p Hp) as [p' Hp']. rewrite Hp'. simpl.
    eexists. split; [reflexivity|]. split; simpl.
    + intros Hn. rewrite (no_attrs_written _ Hn). reflexivity.
    + apply wrap_attrs_never_empty.
  - eexists. split; [reflexivity|]. split; simpl.
    + intros Hn. rewrite (no_attrs_written _ Hn). reflexivity.
    + apply wrap_attrs_never_empty.
Qed.

Lemma fromxml_item_toxml (it : Item float_t geom) :
  Forall wkt_reloads_geo (item_geos it) ->
  exists it', fromxml_item (toxml_item it) = Ok it' /\ absent_kept_item it it'.
Proof.
  intros Hw. unfold fromxml_item. rewrite get_XML_attrs_spec. simpl.
  destruct (mapM_map_Forall2 fromxml_poly toxml_poly absent_kept_geo
              (item_geos it)) as (k & Hk & HF).
  { intros ge Hge. apply fromxml_poly_toxml.
    rewrite Forall_forall in Hw. by apply Hw. }
  assert (Hgeos :
    (if bool_decide (0 < length (map toxml_poly (item_geos it)))%nat
     then collect fromxml_poly (map toxml_poly (item_geos it))
     else Ok []) = Ok k).
  { rewrite collect_mapM. case_bool_decide as Hlen; [exact Hk|].
    destruct (item_geos it); simpl in *; [|lia].
    by injection Hk as <-. }
  rewrite Hgeos. simpl. eexists. split; [reflexivity|].
  split; [|split]; simpl.
  - intros Hn. rewrite (no_attrs_written _ Hn). reflexivity.
  - apply wrap_attrs_never_empty.
  - exact HF.
Qed.

(** C10. An element without native attributes decodes to the absent
    marker, and no element decodes to an empty map. Hence, when the
    geometry texts written by [toxml] can be loaded again, reading back a
    tree gives [None] for the attributes of every node (root, header,
    item, geo) that was written without attributes. *)
Theorem C10_legacy_empty_attrs_absent (g : Geoset float_t geom header) :
  wkt_reloads g ->
  (forall t txt tl c, get_XML_attrs (Element t [] txt tl c) = Ok None) /\
  (forall e, get_XML_attrs e <> Ok (Some [])) /\
  exists g', fromxml (toxml g) = Ok g' /\
    (no_attrs (gs_attrs g) -> gs_attrs g' = None) /\
    gs_attrs g' <> Some [] /\
    (gs_hdr g = None -> gs_hdr g' = None) /\
    Forall2 absent_kept_item (gs_items g) (gs_items g').
Proof.
  intros Hw. split; [|split].
  - intros. rewrite get_XML_attrs_spec. reflexivity.
  - intros e. rewrite get_XML_attrs_spec. intros [= He].
    by apply wrap_attrs_never_empty in He.
  - unfold fromxml. rewrite !get_XML_attrs_spec. simpl.
    rewrite get_XML_attrs_spec. simpl.
    destruct (mapM_map_Forall2 fromxml_item toxml_item absent_kept_item
                (gs_items g)) as (k & Hk & HF).
    { intros it Hit. apply fromxml_item_toxml.
      exact (proj1 (Forall_forall _ _) Hw it Hit). }
    assert (Hitems :
      (if bool_decide (1 < S (length (map toxml_item (gs_items g))))%nat
       then collect fromxml_item (map toxml_item (gs_items g))
       else Ok []) = Ok k).
    { rewrite collect_mapM. case_bool_decide as Hlen; [exact Hk|].
      destruct (gs_items g); simpl in *; [|lia].
      by injection Hk as <-. }
    rewrite drop_0, Hitems. simpl. eexists. split; [reflexivity|]. simpl.
    split; [|split; [|split]].
    + intros Hn. rewrite (no_attrs_written _ Hn). reflexivity.
    + apply wrap_attrs_never_empty.
    + intros ->. reflexivity.
    + exact HF.
Qed.
End PolylistxmlFacts.

(** *** The two results on the reference implementation *)

Lemma C4_legacy_type_inference_witness :
  Polylistxml.decode_value (float_t := Reference.rfloat) "True"
  = Ok (SBool true).
Proof.
  exact (proj1 (proj2 (C4_legacy_type_inference
                         (float_t := Reference.rfloat)
                         (geom := Reference.rgeom))
                 eq_refl eq_refl)).
Defined.

Lemma C10_legacy_empty_attrs_absent_witness :
  exists g',
    Polylistxml.fromxml (Polylistxml.toxml Reference.two_groups) = Ok g' /\
    item_attrs <$> gs_items g' = [None; Some [("n", SInt 7)]].
Proof.
  destruct (C10_legacy_empty_attrs_absent Reference.two_groups)
    as (_ & _ & g' & Hg' & _).
  - repeat constructor; intros p [= <-]; eexists; vm_compute; reflexivity.
  - exists g'. split; [exact Hg'|].
    vm_compute in Hg'. injection Hg' as <-. reflexivity.
Defined.


(** ** geosetxml *)

Section GeosetxmlFacts.
Context {float_t geom header : Type}.
Context `{Json float_t} `{Wkt geom} `{FitsHeader float_t header}.
Import Geosetxml.

Lemma tail_only_refl e : tail_only e e.
Proof. exists (tail e). by destruct e. Qed.

Lemma tail_only_trans e1 e2 e3 :
  tail_only e1 e2 -> tail_only e2 e3 -> tail_only e1 e3.
Proof. intros [t ->] [t' ->]. exists t'. by destruct e1. Qed.

Lemma Forall2_tail_only_refl l : Forall2 tail_only l l.
Proof. induction l; constructor; [apply tail_only_refl|done]. Qed.

Lemma Forall2_tail_only_trans l1 l2 l3 :
  Forall2 tail_only l1 l2 -> Forall2 tail_only l2 l3 -> Forall2 tail_only l1 l3.
Proof.
  intros H12. revert l3. induction H12; intros l3 H23; inversion H23; subst.
  - constructor.
  - constructor; [by eapply tail_only_trans|by apply IHForall2].
Qed.

Lemma insert_tail_only (l : list element) i t e :
  l !! i = Some e -> Forall2 tail_only l (<[i := set_tail t e]> l).
Proof.
  revert i. induction l as [|x l IH]; intros [|i] Hi; simpl in *; try done.
  - injection Hi as ->. constructor; [by exists t|apply Forall2_tail_only_refl].
  - constructor; [apply tail_only_refl|by apply IH].
Qed.

Lemma set_tail_at_ok i t (l : list element) :
  (i < length l)%nat ->
  exists l', set_tail_at i t l = Ok l' /\ Forall2 tail_only l l'.
Proof.
  intros Hi. unfold set_tail_at.
  destruct (lookup_lt_is_Some_2 l i Hi) as [e He]. rewrite He.
  eexists. split; [reflexivity|]. by apply insert_tail_only.
Qed.

Lemma set_tail_last_ok t (l : list element) :
  l <> [] ->
  exists l', set_tail_last t l = Ok l' /\ Forall2 tail_only l l'.
Proof.
  intros Hl. unfold set_tail_last. destruct l as [|x l]; [done|].
  apply set_tail_at_ok. simpl. lia.
Qed.

Lemma Forall2_map_set_tail t (l : list element) :
  Forall2 tail_only l (map (set_tail t) l).
Proof. induction l; constructor; [by exists t|done]. Qed.

Lemma tail_only_text e e' : tail_only e e' -> text e' = text e.
Proof. intros [t ->]. by destruct e. Qed.

Lemma tail_only_children e e' : tail_only e e' -> children e' = children e.
Proof. intros [t ->]. by destruct e. Qed.

Lemma fromxml_geo_tail_only e e' :
  tail_only e e' -> fromxml_geo e' = fromxml_geo e.
Proof.
  intros He. unfold fromxml_geo. by rewrite (tail_only_children _ _ He).
Qed.

Lemma mapM_Forall2_eq {A B} (f : A -> result B) (R : A -> A -> Prop) l l' :
  (forall x x', R x x' -> f x' = f x) -> Forall2 R l l' -> mapM f l' = mapM f l.
Proof.
  intros Hf HF. induction HF; simpl; [reflexivity|].
  by rewrite (Hf _ _ H2), IHHF.
Qed.

Lemma fromxml_item_sim e e' :
  item_sim e e' -> fromxml_item e' = fromxml_item e.
Proof.
  unfold item_sim, fromxml_item. intros HF.
  rewrite <- (Forall2_length _ _ _ HF).
  inversion HF as [|a a' gs gs' Ha Hgs Heq1 Heq2]; simpl; [reflexivity|].
  rewrite (tail_only_text _ _ Ha). rewrite !collect_mapM, !drop_0.
  by rewrite (mapM_Forall2_eq fromxml_geo tail_only gs gs' fromxml_geo_tail_only Hgs).
Qed.

Lemma item_sim_tail_only e1 e2 e3 :
  item_sim e1 e2 -> tail_only e2 e3 -> item_sim e1 e3.
Proof.
  unfold item_sim. intros H12 H23. by rewrite (tail_only_children _ _ H23).
Qed.

Lemma format_item_sim (e : element) :
  children e <> [] ->
  exists e', format_item e = Ok e' /\ item_sim e e'.
Proof.
  destruct e as [tg at' tx tl c]. cbn [children]. intros Hc.
  unfold format_item. cbn [set_text children].
  destruct (set_tail_at_ok 0 (PyStr.nl +:+ indent +:+ indent) c)
    as (c1 & Hc1 & H01).
  { destruct c; [done|simpl; lia]. }
  rewrite Hc1. cbn [mbind result_bind].
  set (c2 := if bool_decide (1 < length c1)%nat then _ else c1).
  assert (H12 : Forall2 tail_only c1 c2).
  { unfold c2. case_bool_decide; [|apply Forall2_tail_only_refl].
    rewrite <- (take_drop 1 c1) at 1.
    apply Forall2_app; [apply Forall2_tail_only_refl|].
    apply Forall2_map_set_tail. }
  destruct (set_tail_last_ok (PyStr.nl +:+ indent) c2) as (c3 & Hc3 & H23).
  { intros Hnil. rewrite Hnil in H12. inversion H12; subst.
    inversion H01; subst. done. }
  rewrite Hc3. cbn [mbind result_bind]. eexists. split; [reflexivity|].
  unfold item_sim. cbn [set_children set_tail children].
  eapply Forall2_tail_only_trans; [exact H01|].
  eapply Forall2_tail_only_trans; [exact H12|exact H23].
Qed.

Lemma formatter_ok (tg : string) at' tx tl (a h : element)
    (items : list element) :
  Forall (fun it => children it <> []) items ->
  exists a' h' items',
    formatter (Element tg at' tx tl (a :: h :: items))
    = Ok (Element tg at' (Some (PyStr.nl +:+ indent)) (Some PyStr.nl)
            (a' :: h' :: items')) /\
    tail_only a a' /\ tail_only h h' /\ Forall2 item_sim items items'.
Proof.
  intros Hitems. unfold formatter. cbn [set_text children].
  unfold set_tail_at at 2. cbn [lookup list_lookup]. cbn [mbind result_bind].
  cbn [insert list_insert]. unfold set_tail_at at 1.
  cbn [lookup list_lookup]. cbn [mbind result_bind]. cbn [insert list_insert].
  cbn [drop take length].
  destruct (mapM_map_Forall2 format_item id item_sim items)
    as (items1 & Hitems1 & HF1).
  { intros it Hit. apply format_item_sim.
    rewrite Forall_forall in Hitems. by apply Hitems. }
  rewrite map_id in Hitems1.
  set (a1 := set_tail _ a). set (h1 := set_tail _ h).
  assert (Hc : (if bool_decide (2 < S (S (length items)))%nat
                then items0 ← mapM format_item (drop 0 items);
                     Ok ((a1 :: h1 :: take 0 items) ++ items0)
                else Ok (a1 :: h1 :: items)) = Ok (a1 :: h1 :: items1)).
  { case_bool_decide as Hlen.
    - rewrite drop_0, take_0, Hitems1. reflexivity.
    - destruct items; simpl in *; [|lia]. by injection Hitems1 as <-. }
  rewrite Hc. cbn [mbind result_bind].
  destruct (set_tail_last_ok PyStr.nl (a1 :: h1 :: items1))
    as (c' & Hc' & HF'); [done|].
  rewrite Hc'. cbn [mbind result_bind].
  inversion HF' as [|? a2 ? ? Ha HF'' ]; subst.
  inversion HF'' as [|? h2 ? items2 Hh HF3 ]; subst.
  exists a2, h2, items2. split; [reflexivity|]. split; [|split].
  - eapply tail_only_trans; [|exact Ha]. by eexists.
  - eapply tail_only_trans; [|exact Hh]. by eexists.
  - clear -HF1 HF3. revert items2 HF3.
    induction HF1; intros items2 HF3; inversion HF3; subst; constructor.
    + by eapply item_sim_tail_only.
    + by apply IHHF1.
Qed.

Lemma formatter_toxml (g : Geoset float_t geom header) :
  exists e', formatter (toxml g) = Ok e' /\ fromxml e' = fromxml (toxml g).
Proof.
  unfold toxml.
  destruct (formatter_ok "GEOSET" [] None None (attr_element (gs_attrs g))
              (Element "HEADER" []
                 (match gs_hdr g with
                  | Some h => Some (header_tostring h)
                  | None => None
                  end) None [])
              (map toxml_item (gs_items g)))
    as (a' & h' & items' & Hfmt & Ha & Hh & HF).
  { apply Forall_forall. intros e He.
    apply list_elem_of_fmap in He as (it & -> & _). done. }
  rewrite Hfmt. eexists. split; [reflexivity|].
  unfold fromxml. cbn [children subscript lookup list_lookup].
  cbn [mbind result_bind].
  rewrite (tail_only_text _ _ Ha), (tail_only_text _ _ Hh).
  cbn [length drop]. rewrite <- (Forall2_length _ _ _ HF).
  rewrite !collect_mapM, !drop_0.
  by rewrite (mapM_Forall2_eq fromxml_item item_sim _ _ fromxml_item_sim HF).
Qed.

Lemma load_attrs_dumps (a : option (odict float_t)) :
  json_faithful a ->
  exists a', load_attrs (text (attr_element a)) = Ok a' /\ attrs_eq a' a.
Proof.
  destruct a as [d|]; simpl.
  - intros (l & Hl & Hget). rewrite Hl. simpl. by eexists.
  - intros _. by exists None.
Qed.

Lemma geosetxml_geo_round_trip (g : Geo float_t geom) :
  codecs_faithful_geo g ->
  exists g', fromxml_geo (toxml_geo g) = Ok g' /\ geo_eq g' g.
Proof.
  intros [Hw Hj]. unfold fromxml_geo, toxml_geo.
  cbn [children subscript lookup list_lookup mbind result_bind].
  destruct (load_attrs_dumps _ Hj) as (a' & Ha' & Heq). rewrite Ha'.
  cbn [mbind result_bind text].
  destruct (geo_geo g) as [p|] eqn:Hp; simpl in Hw.
  - destruct Hw as (q & Hq & Hqp). rewrite Hq. simpl.
    eexists. split; [reflexivity|]. split; simpl; [|exact Heq].
    by rewrite Hp.
  - eexists. split; [reflexivity|]. split; simpl; [|exact Heq].
    by rewrite Hp.
Qed.

Lemma geosetxml_item_round_trip (it : Item float_t geom) :
  codecs_faithful_item it ->
  exists it', fromxml_item (toxml_item it) = Ok it' /\ item_eq it' it.
Proof.
  intros [Hgeos Hj]. unfold fromxml_item, toxml_item.
  cbn [children subscript lookup list_lookup mbind result_bind].
  destruct (load_attrs_dumps _ Hj) as (a' & Ha' & Heq). rewrite Ha'.
  cbn [mbind result_bind length drop].
  destruct (mapM_map_Forall2 fromxml_geo toxml_geo (fun g g' => geo_eq g' g)
              (item_geos it)) as (k & Hk & HF).
  { intros ge Hge. apply geosetxml_geo_round_trip.
    rewrite Forall_forall in Hgeos. by apply Hgeos. }
  assert (Hc : (if bool_decide (1 < S (length (map toxml_geo (item_geos it))))%nat
                then collect fromxml_geo (drop 0 (map toxml_geo (item_geos it)))
                else Ok []) = Ok k).
  { rewrite collect_mapM, drop_0. case_bool_decide as Hlen; [exact Hk|].
    destruct (item_geos it); simpl in *; [|lia]. by injection Hk as <-. }
  rewrite Hc. cbn [mbind result_bind]. eexists. split; [reflexivity|].
  split; simpl; [|exact Heq]. by apply Forall2_flip.
Qed.

(** C2. When the three codecs are faithful on what the tree holds,
    [fromxml (toxml g)] returns a tree equal to [g] (attribute maps key by
    key, geometries by WKT, header by its string), and so does [fromxml] on
    the tree that [write] formats before it is serialized: [formatter]
    touches no text that [fromxml] reads. The statement needs none of the
    claim's non-emptiness conditions. *)
Theorem C2_structured_xml_round_trip (g : Geoset float_t geom header) :
  codecs_faithful g ->
  exists g', fromxml (toxml g) = Ok g' /\ geoset_eq g' g /\
    exists e, formatter (toxml g) = Ok e /\ fromxml e = Ok g'.
Proof.
  intros (Hitems & Hj & Hh).
  assert (Hrt : exists g', fromxml (toxml g) = Ok g' /\ geoset_eq g' g).
  { unfold fromxml, toxml.
    cbn [children subscript lookup list_lookup mbind result_bind].
    destruct (load_attrs_dumps _ Hj) as (a' & Ha' & Heq). rewrite Ha'.
    cbn [mbind result_bind text length drop].
    destruct (mapM_map_Forall2 fromxml_item toxml_item
                (fun it it' => item_eq it' it) (gs_items g)) as (k & Hk & HF).
    { intros it Hit. apply geosetxml_item_round_trip.
      rewrite Forall_forall in Hitems. by apply Hitems. }
    assert (Hc : (if bool_decide
                       (2 < S (S (length (map toxml_item (gs_items g)))))%nat
                  then collect fromxml_item
                         (drop 0 (map toxml_item (gs_items g)))
                  else Ok []) = Ok k).
    { rewrite collect_mapM, drop_0. case_bool_decide as Hlen; [exact Hk|].
      destruct (gs_items g); simpl in *; [|lia]. by injection Hk as <-. }
    destruct (gs_hdr g) as [h|] eqn:Hhdr; simpl in Hh.
    - destruct Hh as (h' & Hh' & Hstr). rewrite Hh'. simpl.
      rewrite Hc. simpl. eexists. split; [reflexivity|].
      split; [|split]; simpl; [by apply Forall2_flip|exact Heq|].
      by rewrite Hhdr.
    - simpl. rewrite Hc. simpl. eexists. split; [reflexivity|].
      split; [|split]; simpl; [by apply Forall2_flip|exact Heq|].
      by rewrite Hhdr. }
  destruct Hrt as (g' & Hg' & Heq). exists g'. split; [exact Hg'|].
  split; [exact Heq|].
  destruct (formatter_toxml g) as (e & He & Hfrom).
  exists e. split; [exact He|]. by rewrite Hfrom.
Qed.
End GeosetxmlFacts.

(** On the reference implementation the tree [two_groups] comes back as it
    was. *)
Lemma C2_structured_xml_round_trip_witness :
  Geosetxml.fromxml (Geosetxml.toxml Reference.two_groups)
  = Ok Reference.two_groups /\
  exists e, Geosetxml.formatter (Geosetxml.toxml Reference.two_groups) = Ok e /\
            Geosetxml.fromxml e = Ok Reference.two_groups.
Proof.
  destruct (C2_structured_xml_round_trip Reference.two_groups)
    as (g' & Hg' & _ & e & He & Hfrom).
  - repeat split; repeat constructor; simpl;
      try (eexists; split; [vm_compute; reflexivity|]);
      first [ reflexivity | intros k; reflexivity ].
  - vm_compute in Hg'. injection Hg' as <-.
    split; [reflexivity|]. by exists e.
Defined.


(** ** ds9regfile *)

Section Ds9Facts.
Context {float_t geom header : Type}.
Context `{Builtins float_t} `{Shapely float_t geom}.
Import PyStr GeosetModel Ds9regfile.

Abbreviation store := (@GeosetModel.store float_t geom header).

Lemma number_app start (r1 r2 : list (list geom)) :
  number start (r1 ++ r2)
  = number start r1 ++ number (start + length (concat r1)) r2.
Proof.
  revert start. induction r1 as [|g r1 IH]; intros start; simpl.
  - by rewrite Nat.add_0_r.
  - rewrite IH, length_app, Nat.add_assoc. reflexivity.
Qed.

Lemma length_number start (r : list (list geom)) :
  length (number start r) = length r.
Proof. revert start. induction r; intros; simpl; [done|by rewrite IHr]. Qed.

Lemma seq_snoc (a n : nat) : seq a (S n) = seq a n ++ [(a + n)%nat].
Proof. rewrite <- Nat.add_1_r. by rewrite seq_app. Qed.

Lemma layout_snoc (s0 : store) r (grp : list geom) attrs :
  layout s0 (r ++ [grp]) attrs =
  mkStore
    (st_lists s0
     ++ map VItem (seq (length (st_items s0)) (S (length r)))
        :: (number (length (st_geos s0)) r
            ++ [map VGeo (seq (length (st_geos s0) + length (concat r))
                              (length grp))]))
    (st_geos s0
     ++ (map (fun g => mkGeo (Some g) None) (concat r)
         ++ map (fun g => mkGeo (Some g) None) grp))
    (st_items s0
     ++ (map (fun k => mkItemObj (VList (length (st_lists s0) + 1 + k)) None)
             (seq 0 (length r))
         ++ [mkItemObj (VList (length (st_lists s0) + 1 + length r)) None]))
    (st_geosets s0
     ++ [mkGeosetObj (VList (length (st_lists s0))) attrs None VNone]).
Proof.
  unfold layout. rewrite length_app, Nat.add_1_r, number_app.
  rewrite concat_app, map_app. cbn [number concat length map].
  rewrite app_nil_r. rewrite (seq_snoc 0), map_app. reflexivity.
Qed.

Ltac len_solve :=
  repeat (rewrite ?length_app, ?length_number, ?length_map, ?length_seq;
          cbn [length]);
  lia.

(** The first branch: a new [Geo] in a new [Item] appended to the
    [Geoset]. *)
Lemma new_group_layout (s0 : store) root attrs (poly : geom) (l : locals) :
  (bind (Geo_init (Some poly) None) (fun geo =>
   bind (Item_init geo None) (fun item =>
   bind (get_geoset (VGeoset (length (st_geosets s0)))) (fun o =>
   bind (append (go_items o) item) (fun _ =>
   ret (set_geo_item l (Some geo) (Some item)))))))
    (layout s0 root attrs)
  = Ok (set_geo_item l
          (Some (VGeo (length (st_geos s0) + length (concat root))))
          (Some (VItem (length (st_items s0) + length root))),
        layout s0 (root ++ [[poly]]) attrs).
Proof.
  rewrite layout_snoc.
  unfold Geo_init, Item_init, bind, alloc_geo, alloc_item, alloc_list,
    get_geoset, append, truthy, ret, layout.
  cbn [st_lists st_geos st_items st_geosets has_iter negb].
  rewrite list_lookup_middle by reflexivity.
  cbn [go_items st_lists st_geos st_items st_geosets].
  rewrite <- (app_assoc (st_lists s0)), <- app_comm_cons.
  rewrite list_lookup_middle by reflexivity.
  rewrite insert_app_r_alt by reflexivity.
  rewrite Nat.sub_diag. cbn [insert list_insert].
  rewrite !length_app.
  rewrite !length_map, !length_seq. cbn [length].
  rewrite length_number.
  rewrite seq_snoc, map_app. cbn [map seq].
  rewrite <- !app_assoc.
  replace (length (st_lists s0) + S (length root))%nat
    with (length (st_lists s0) + 1 + length root)%nat by lia.
  reflexivity.
Qed.

(** The second branch: a new [Geo] appended to the current [Item]. *)
Lemma new_geo_layout (s0 : store) r (grp : list geom) attrs (poly : geom)
    (l : locals) :
  l_item l = Some (VItem (length (st_items s0) + length r)) ->
  (bind (Geo_init (Some poly) None) (fun geo =>
   bind (var (l_item l)) (fun item =>
   bind (get_item item) (fun io =>
   bind (append (io_geos io) geo) (fun _ =>
   ret (set_geo_item l (Some geo) (l_item l)))))))
    (layout s0 (r ++ [grp]) attrs)
  = Ok (set_geo_item l
          (Some (VGeo (length (st_geos s0) + length (concat r) + length grp)))
          (l_item l),
        layout s0 (r ++ [grp ++ [poly]]) attrs).
Proof.
  intros Hitem. rewrite !layout_snoc, Hitem.
  unfold Geo_init, var, bind, alloc_geo, get_item, append, ret.
  cbn [st_lists st_geos st_items st_geosets].
  rewrite (app_assoc (st_items s0)).
  rewrite list_lookup_middle
    by (by rewrite length_app, length_map, length_seq).
  cbn [io_geos st_lists st_geos st_items st_geosets].
  rewrite app_comm_cons, (app_assoc (st_lists s0)), app_assoc.
  rewrite list_lookup_middle.
  2: { len_solve. }
  rewrite insert_app_r_alt.
  2: { len_solve. }
  replace (_ - _)%nat with 0%nat.
  2: { len_solve. }
  cbn [insert list_insert].
  rewrite ?length_app, ?length_map, ?length_seq. cbn [length].
  replace (length grp + 1)%nat with (S (length grp)) by lia.
  rewrite !seq_snoc, !map_app. cbn [map].
  rewrite <- !app_assoc. reflexivity.
Qed.

(** The third and fourth branch: the geometry of the current [Geo] is
    replaced. *)
Lemma update_geometry_layout (s0 : store) r (grp : list geom) (g g' : geom)
    attrs (op : geom -> geom -> result geom) (poly : geom) :
  op g poly = Ok g' ->
  update_geometry op
    (VGeo (length (st_geos s0) + length (concat r) + length grp)) poly
    (layout s0 (r ++ [grp ++ [g]]) attrs)
  = Ok (tt, layout s0 (r ++ [grp ++ [g']]) attrs).
Proof.
  intros Hop. rewrite !layout_snoc.
  unfold update_geometry, set_geo_geo, bind, get_geo, lift, raise.
  cbn [st_lists st_geos st_items st_geosets].
  rewrite !map_app. cbn [map].
  rewrite !(app_assoc (st_geos s0)), !app_assoc.
  rewrite list_lookup_middle
    by (by rewrite !length_app, !length_map).
  cbn [geo_geo geo_attrs]. rewrite Hop.
  cbn [st_lists st_geos st_items st_geosets].
  rewrite list_lookup_middle
    by (by rewrite !length_app, !length_map).
  cbn [st_lists st_geos st_items st_geosets].
  rewrite insert_app_r_alt by (rewrite !length_app, !length_map; lia).
  replace (_ - _)%nat with 0%nat by (rewrite !length_app, !length_map; lia).
  cbn [insert list_insert geo_attrs].
  rewrite !length_app. reflexivity.
Qed.

Lemma update_geometry_raise (s0 : store) r (grp : list geom) (g : geom)
    attrs (op : geom -> geom -> result geom) (poly : geom) e :
  op g poly = Raise e ->
  update_geometry op
    (VGeo (length (st_geos s0) + length (concat r) + length grp)) poly
    (layout s0 (r ++ [grp ++ [g]]) attrs)
  = Raise e.
Proof.
  intros Hop. rewrite !layout_snoc.
  unfold update_geometry, set_geo_geo, bind, get_geo, lift, raise.
  cbn [st_lists st_geos st_items st_geosets].
  rewrite !map_app. cbn [map].
  rewrite !(app_assoc (st_geos s0)), !app_assoc.
  rewrite list_lookup_middle
    by (by rewrite !length_app, !length_map).
  cbn [geo_geo geo_attrs]. by rewrite Hop.
Qed.


(** *** Reading the tree off the layout *)

Lemma mapM_seq_lookup {A B} (f : nat -> option B) (g : A -> B) (l : list A) a :
  (forall k x, l !! k = Some x -> f (a + k)%nat = Some (g x)) ->
  mapM f (seq a (length l)) = Some (map g l).
Proof.
  revert a. induction l as [|x l IH]; intros a Hf; simpl; [reflexivity|].
  rewrite <- (Nat.add_0_r a) at 1. rewrite (Hf 0%nat x eq_refl). simpl.
  rewrite (IH (S a)); [reflexivity|].
  intros k y Hk. rewrite <- (Hf (S k) y Hk). f_equal. lia.
Qed.

Lemma mapM_map_option {A B C} (f : B -> option C) (h : A -> B) (l : list A) :
  mapM f (map h l) = mapM (fun x => f (h x)) l.
Proof.
  induction l as [|x l IH]; simpl; [reflexivity|]. by rewrite IH.
Qed.

Lemma reify_geo_layout (s0 : store) root attrs r1 (grp : list geom) r2 :
  root = r1 ++ grp :: r2 ->
  mapM (reify_geo (layout s0 root attrs))
    (map VGeo (seq (length (st_geos s0) + length (concat r1)) (length grp)))
  = Some (map (fun g => mkGeo (Some g) None) grp).
Proof.
  intros ->. rewrite mapM_map_option.
  apply (mapM_seq_lookup
           (fun a => reify_geo (layout s0 (r1 ++ grp :: r2) attrs) (VGeo a))).
  intros k x Hk. simpl.
  rewrite lookup_app_r by lia.
  replace (_ - _)%nat with (length (concat r1) + k)%nat by lia.
  rewrite concat_app, map_app.
  rewrite lookup_app_r by (rewrite length_map; lia).
  rewrite length_map.
  replace (_ - _)%nat with k by lia.
  cbn [concat]. rewrite map_app, lookup_app_l
    by (rewrite length_map; by eapply lookup_lt_Some).
  rewrite list_lookup_fmap, Hk. reflexivity.
Qed.

Lemma reify_item_layout (s0 : store) root attrs k (grp : list geom) :
  root !! k = Some grp ->
  reify_item (layout s0 root attrs) (VItem (length (st_items s0) + k))
  = Some (mkItem (map (fun g => mkGeo (Some g) None) grp) None).
Proof.
  intros Hk.
  pose proof (take_drop_middle _ _ _ Hk) as Hsplit. symmetry in Hsplit.
  pose proof (lookup_lt_Some _ _ _ Hk) as Hlt.
  assert (Hlen : length (take k root) = k) by (rewrite length_take; lia).
  unfold reify_item. cbn [layout st_items].
  rewrite lookup_app_r by lia.
  replace (_ - _)%nat with k by lia.
  rewrite list_lookup_fmap, lookup_seq_lt by lia. cbn [fmap option_fmap option_map mbind option_bind io_geos io_attrs].
  cbn [seq_values layout st_lists].
  rewrite cons_middle, app_assoc.
  rewrite lookup_app_r by (rewrite length_app; simpl; lia).
  replace (_ - _)%nat with k by (rewrite length_app; simpl; lia).
  rewrite Hsplit at 1. rewrite number_app. cbn [number].
  rewrite list_lookup_middle by (rewrite length_number; lia).
  cbn [mbind option_bind].
  rewrite (reify_geo_layout s0 root attrs _ _ _ Hsplit). reflexivity.
Qed.

Lemma reify_layout (s0 : store) root attrs :
  reify_geoset (layout s0 root attrs) (VGeoset (length (st_geosets s0)))
  = Some (tree_of root attrs).
Proof.
  assert (Hgs : st_geosets (layout s0 root attrs) !! length (st_geosets s0)
                = Some (mkGeosetObj (VList (length (st_lists s0))) attrs None VNone))
    by (by apply list_lookup_middle).
  assert (Hl : st_lists (layout s0 root attrs) !! length (st_lists s0)
               = Some (map VItem (seq (length (st_items s0)) (length root))))
    by (by apply list_lookup_middle).
  unfold reify_geoset. rewrite Hgs.
  cbn [mbind option_bind go_items go_attrs go_hdr seq_values].
  rewrite Hl. cbn [mbind option_bind].
  rewrite mapM_map_option.
  rewrite (mapM_seq_lookup
             (fun a => reify_item (layout s0 root attrs) (VItem a))
             (fun grp => mkItem (map (fun g => mkGeo (Some g) None) grp) None)).
  - reflexivity.
  - intros k grp Hk. by apply reify_item_layout.
Qed.

(** *** One polygon line *)

Lemma assign_index_assigned idx t l l0 :
  assigned t l l0 ->
  assigned
    (fold_left
       (fun t idx =>
          let '(i, j, k) := t in
          if String.eqb (fst idx) "item" then (Some (snd idx), j, k)
          else if String.eqb (fst idx) "geo" then (i, Some (snd idx), k)
          else if String.eqb (fst idx) "poly" then (i, j, Some (snd idx))
          else t) idx t)
    (fold_left assign_index idx l) l0.
Proof.
  revert t l. induction idx as [|[tag n] idx IH]; intros t l Ha; [exact Ha|].
  simpl. apply IH. destruct t as [[ti tj] tk].
  destruct Ha as (Hi & Hj & Hk & Hrest). unfold assign_index. simpl in *.
  destruct Hrest as (? & ? & ? & ? & ?).
  destruct (String.eqb tag "item"); [by repeat split|].
  destruct (String.eqb tag "geo"); [by repeat split|].
  destruct (String.eqb tag "poly"); by repeat split.
Qed.

Lemma assigned_tags idx l i j k :
  tags idx = (Some i, Some j, Some k) ->
  exists l', fold_left assign_index idx l = l' /\
    l_i l' = Some (IInt i) /\ l_j l' = Some j /\ l_k l' = Some k /\
    l_i0 l' = l_i0 l /\ l_j0 l' = l_j0 l /\ l_k0 l' = l_k0 l /\
    l_geo l' = l_geo l /\ l_item l' = l_item l.
Proof.
  intros Ht. eexists. split; [reflexivity|].
  pose proof (assign_index_assigned idx (None, None, None) l l) as Ha.
  fold (tags idx) in Ha. rewrite Ht in Ha. apply Ha. by repeat split.
Qed.

Lemma on_last_snoc {A} (f : A -> result A) (r : list A) (x : A) :
  on_last f (r ++ [x]) = (x' ← f x; Ok (r ++ [x'])).
Proof. unfold on_last. by rewrite last_snoc, removelast_last. Qed.

Lemma leak_fields tok l :
  l_j (leak tok l) = l_j l /\ l_k (leak tok l) = l_k l /\
  l_i0 (leak tok l) = l_i0 l /\ l_j0 (leak tok l) = l_j0 l /\
  l_k0 (leak tok l) = l_k0 l /\ l_geo (leak tok l) = l_geo l /\
  l_item (leak tok l) = l_item l.
Proof. by destruct tok. Qed.

Lemma bind_var {A B} (x : option A) (a : A)
    (k : A -> @M float_t geom header B) s :
  x = Some a -> bind (var x) k s = k a s.
Proof. by intros ->. Qed.

Lemma bind_ret {A B} (a : A) (k : A -> @M float_t geom header B) :
  bind (ret a) k = k a.
Proof. reflexivity. Qed.

Lemma bind_ok {A B} (m : @M float_t geom header A) (k : A -> M B) s a s' :
  m s = Ok (a, s') -> bind m k s = k a s'.
Proof. unfold bind. by intros ->. Qed.

Lemma bind_raise {A B} (m : @M float_t geom header A) (k : A -> M B) s e :
  m s = Raise e -> bind m k s = Raise e.
Proof. unfold bind. by intros ->. Qed.

(** The assignment [i0, j0, k0 = i, j, k]. *)
Lemma remember_triple (l : locals) i j k (s : store) :
  l_i l = Some (IInt i) -> l_j l = Some j -> l_k l = Some k ->
  bind (var (l_i l)) (fun i =>
  bind (var (l_j l)) (fun j =>
  bind (var (l_k l)) (fun k =>
  ret (mkLocals (l_i l) (l_j l) (l_k l) (Some i) (Some j) (Some k)
         (l_geo l) (l_item l))))) s
  = Ok (mkLocals (l_i l) (l_j l) (l_k l) (Some (IInt i)) (Some j) (Some k)
          (l_geo l) (l_item l), s).
Proof. by intros -> -> ->. Qed.

Lemma read_polygon_step (s0 : store) attrs root prev l p ln :
  locals_for s0 root prev l ->
  p_poly p = t_polygon ln -> p_is_hole p = t_hole ln ->
  tags (p_idx p) = (Some (t_item ln), Some (t_geo ln), Some (t_poly ln)) ->
  match spec_step (root, prev) ln with
  | Ok (root', prev') =>
      exists l',
        read_polygon (VGeoset (length (st_geosets s0))) p l
          (layout s0 root attrs)
        = Ok (l', layout s0 root' attrs) /\
        locals_for s0 root' prev' l'
  | Raise e =>
      read_polygon (VGeoset (length (st_geosets s0))) p l
        (layout s0 root attrs) = Raise e
  end.
Proof.
  intros Hloc Hpoly Hhole Htags.
  destruct (assigned_tags (p_idx p) (leak (p_leak p) l) _ _ _ Htags)
    as (l1 & Hl1 & Hi & Hj & Hk & Hi0 & Hj0 & Hk0 & Hgeo & Hitem).
  destruct (leak_fields (p_leak p) l)
    as (_ & _ & Hi0' & Hj0' & Hk0' & Hgeo' & Hitem').
  rewrite Hi0' in Hi0. rewrite Hj0' in Hj0. rewrite Hk0' in Hk0.
  rewrite Hgeo' in Hgeo. rewrite Hitem' in Hitem.
  unfold read_polygon. rewrite Hl1, Hpoly, Hhole.
  clear Hl1 Hi0' Hj0' Hk0' Hgeo' Hitem' Hpoly Hhole Htags.
  unfold spec_step, place_polygon.
  rewrite Hi, Hj, Hk. cbn [var]. rewrite !bind_ret. rewrite Hi0, Hj0, Hk0.
  destruct prev as [[[i' j'] k']|]; cbn [locals_for] in Hloc.
  - destruct Hloc as (Hli0 & Hlj0 & Hlk0 & r & grp & g & -> & Hlitem & Hlgeo).
    rewrite Hli0, Hlj0, Hlk0. cbn [fmap option_fmap option_map fst snd].
    rewrite <- Hitem in Hlitem. rewrite <- Hgeo in Hlgeo.
    destruct (decide (i' = t_item ln)) as [->|Hne_i].
    + rewrite (bool_decide_eq_false_2 (Some (IInt (t_item ln)) <> _))
        by (intros Hc; by apply Hc).
      rewrite (bool_decide_eq_false_2 (Some (t_item ln) <> _))
        by (intros Hc; by apply Hc).
      destruct (decide (j' = t_geo ln)) as [->|Hne_j].
      * rewrite !(bool_decide_eq_false_2 (Some (t_geo ln) <> _))
          by (intros Hc; by apply Hc).
        destruct (decide (k' = t_poly ln)) as [->|Hne_k].
        -- rewrite !(bool_decide_eq_false_2 (Some (t_poly ln) <> _))
             by (intros Hc; by apply Hc).
           destruct (t_hole ln).
           ++ rewrite !on_last_snoc.
              destruct (geom_difference g (t_polygon ln)) as [g'|e] eqn:Hop;
                cbn [mbind result_bind].
              ** erewrite bind_ok.
                 2: { rewrite (bind_var _ _ _ _ Hlgeo).
                      erewrite bind_ok;
                        [reflexivity|by apply update_geometry_layout]. }
                 rewrite (remember_triple _ _ _ _ _ Hi Hj Hk).
                 eexists. split; [reflexivity|].
                 cbn [locals_for l_i0 l_j0 l_k0 l_geo l_item]. repeat split.
                 by exists r, grp, g'.
              ** erewrite bind_raise; [reflexivity|].
                 rewrite (bind_var _ _ _ _ Hlgeo).
                 erewrite bind_raise;
                   [reflexivity|by apply update_geometry_raise].
           ++ cbn [mbind result_bind]. erewrite bind_ok; [|reflexivity].
              rewrite (remember_triple _ _ _ _ _ Hi Hj Hk).
              eexists. split; [reflexivity|].
              cbn [locals_for l_i0 l_j0 l_k0 l_geo l_item]. repeat split.
              by exists r, grp, g.
        -- rewrite (bool_decide_eq_true_2 (Some (t_poly ln) <> _)) by congruence.
           rewrite (bool_decide_eq_true_2 (Some k' <> _)) by congruence.
           rewrite !on_last_snoc.
           destruct (geom_union g (t_polygon ln)) as [g'|e] eqn:Hop;
             cbn [mbind result_bind].
           ++ erewrite bind_ok.
              2: { rewrite (bind_var _ _ _ _ Hlgeo).
                   erewrite bind_ok;
                     [reflexivity|by apply update_geometry_layout]. }
              rewrite (remember_triple _ _ _ _ _ Hi Hj Hk).
              eexists. split; [reflexivity|].
              cbn [locals_for l_i0 l_j0 l_k0 l_geo l_item]. repeat split.
              by exists r, grp, g'.
           ++ erewrite bind_raise; [reflexivity|].
              rewrite (bind_var _ _ _ _ Hlgeo).
              erewrite bind_raise;
                [reflexivity|by apply update_geometry_raise].
      * rewrite (bool_decide_eq_true_2 (Some (t_geo ln) <> _)) by congruence.
        rewrite (bool_decide_eq_true_2 (Some j' <> _)) by congruence.
        rewrite on_last_snoc. cbn [mbind result_bind].
        erewrite bind_ok.
        2: { by apply (new_geo_layout s0 r (grp ++ [g])). }
        cbn [set_geo_item].
        erewrite remember_triple; [|exact Hi|exact Hj|exact Hk].
        eexists. split; [reflexivity|].
        cbn [locals_for l_i0 l_j0 l_k0 l_geo l_item]. repeat split.
        exists r, (grp ++ [g]), (t_polygon ln). by repeat split.
    + rewrite (bool_decide_eq_true_2 (Some (IInt (t_item ln)) <> _)) by congruence.
      rewrite (bool_decide_eq_true_2 (Some i' <> _)) by congruence.
      cbn [mbind result_bind].
      erewrite bind_ok; [|by apply new_group_layout].
      cbn [set_geo_item].
      erewrite remember_triple; [|exact Hi|exact Hj|exact Hk].
      eexists. split; [reflexivity|].
      cbn [locals_for l_i0 l_j0 l_k0 l_geo l_item]. repeat split.
      exists (r ++ [grp ++ [g]]), [], (t_polygon ln). repeat split.
      cbn [l_geo set_geo_item length]. do 2 f_equal. lia.
  - destruct Hloc as (-> & Hli0 & Hlj0 & Hlk0).
    rewrite Hli0. cbn [fmap option_fmap option_map].
    rewrite !bool_decide_eq_true_2 by discriminate.
    cbn [mbind result_bind].
    erewrite bind_ok; [|by apply new_group_layout].
    cbn [set_geo_item].
    erewrite remember_triple; [|exact Hi|exact Hj|exact Hk].
    eexists. split; [reflexivity|].
    cbn [locals_for l_i0 l_j0 l_k0 l_geo l_item]. repeat split.
    exists [], [], (t_polygon ln). repeat split.
    cbn [l_geo set_geo_item length]. do 2 f_equal. lia.
Qed.

(** *** The loop over the lines *)

Lemma polygon_prefix (body : string) :
  String.prefix "polygon" body = true ->
  exists rest, body = String "p" (String "o" rest).
Proof.
  destruct body as [|c1 body]; cbn [String.prefix]; [done|].
  destruct (ascii_dec "p" c1) as [<-|]; [|done].
  destruct body as [|c2 body]; cbn [String.prefix]; [done|].
  destruct (ascii_dec "o" c2) as [<-|]; [|done].
  intros _. by exists body.
Qed.

Lemma polygon_line_dispatch (geoset : value) (l : locals) (line : string)
    (p : parsed) (s : store) :
  startswith (split_first nl line) "polygon" = true ->
  parse_polygon_line (split_first nl line) = Ok p ->
  read_line geoset l line s = read_polygon geoset p l s.
Proof.
  unfold read_line. generalize (split_first nl line). intros body Hpre Hp.
  rewrite Hpre, Hp. unfold startswith in *.
  destruct (polygon_prefix _ Hpre) as [rest ->].
  cbn [String.prefix orb]. simpl. reflexivity.
Qed.

Lemma read_loop_refines (s0 : store) attrs lines lns :
  Forall2 reads_as lines lns ->
  forall root prev l, locals_for s0 root prev l ->
  match foldM spec_step (root, prev) lns with
  | Ok (root', prev') =>
      exists l',
        read_loop (VGeoset (length (st_geosets s0))) l lines
          (layout s0 root attrs)
        = Ok (l', layout s0 root' attrs) /\
        locals_for s0 root' prev' l'
  | Raise e =>
      read_loop (VGeoset (length (st_geosets s0))) l lines
        (layout s0 root attrs) = Raise e
  end.
Proof.
  induction 1 as [|line ln lines lns Hline _ IH]; intros root prev l Hloc.
  - simpl. by exists l.
  - destruct Hline as (Hpre & p & Hp & Hpoly & Hhole & Htags).
    cbn [foldM read_loop].
    pose proof (read_polygon_step s0 attrs root prev l p ln Hloc Hpoly Hhole
                  Htags) as Hstep.
    destruct (spec_step (root, prev) ln) as [[root1 prev1]|e];
      cbn [mbind result_bind].
    + destruct Hstep as (l1 & Hrun & Hloc1).
      specialize (IH root1 prev1 l1 Hloc1).
      erewrite bind_ok;
        [|by rewrite (polygon_line_dispatch _ _ _ _ _ Hpre Hp)].
      exact IH.
    + erewrite bind_raise; [reflexivity|].
      by rewrite (polygon_line_dispatch _ _ _ _ _ Hpre Hp).
Qed.

Lemma Geoset_init_layout (s0 : store) :
  Geoset_init VNone None None s0
  = Ok (VGeoset (length (st_geosets s0)), layout s0 [] None).
Proof.
  unfold Geoset_init, bind, alloc_list, alloc_geoset, layout. simpl.
  by rewrite !app_nil_r.
Qed.

Lemma hole_needs_same_triple (geoset : value) (poly : geom) (l : locals)
    (s : store) :
  (l_i l, l_j l, l_k l) <> (l_i0 l, l_j0 l, l_k0 l) ->
  place_polygon geoset poly true l s = place_polygon geoset poly false l s.
Proof.
  intros Hne. unfold place_polygon.
  destruct (l_i l) as [i|] eqn:Hi; [|reflexivity].
  cbn [var]. rewrite !bind_ret.
  case_bool_decide as H1; [reflexivity|].
  destruct (l_j l) as [j|] eqn:Hj; [|reflexivity].
  cbn [var]. rewrite !bind_ret.
  case_bool_decide as H2; [reflexivity|].
  destruct (l_k l) as [k|] eqn:Hk; [|reflexivity].
  cbn [var]. rewrite !bind_ret.
  case_bool_decide as H3; [reflexivity|].
  exfalso. apply Hne. congruence.
Qed.

(** C1. For every sequence of polygon lines that carry the three tags,
    [read] ends with a [Geoset] whose tree is the Root that the decision
    order of the specification builds from the lines (and raises what that
    order raises when the geometry library fails): a new item index starts
    a Group, else a new geo index a Primitive of the current Group, else a
    new poly index is united with the current Primitive, else a hole is
    subtracted from it. The hole mark is consulted only when the three
    indices equal those remembered: on any other line the reader does
    what it does for the same line without the mark. *)
Theorem C1_region_read_reconstruction :
  (forall (s0 : store) (lines : list string) (lns : list tagged_line),
      Forall2 reads_as lines lns ->
      match spec_read lns with
      | Ok root =>
          exists s',
            read_lines lines s0 = Ok (VGeoset (length (st_geosets s0)), s') /\
            reify_geoset s' (VGeoset (length (st_geosets s0)))
            = Some (tree_of root None)
      | Raise e => read_lines lines s0 = Raise e
      end) /\
  (forall (geoset : value) (poly : geom) (l : locals) (s : store),
      (l_i l, l_j l, l_k l) <> (l_i0 l, l_j0 l, l_k0 l) ->
      place_polygon geoset poly true l s = place_polygon geoset poly false l s).
Proof.
  split; [|apply hole_needs_same_triple].
  intros s0 lines lns Hlines. unfold spec_read, read_lines.
  pose proof (read_loop_refines s0 None lines lns Hlines [] None init_locals)
    as Hloop.
  destruct (foldM spec_step ([], None) lns) as [[root prev]|e]; simpl.
  - destruct Hloop as (l' & Hrun & _); [by repeat split|].
    exists (layout s0 root None). split; [|apply reify_layout].
    erewrite bind_ok; [|apply Geoset_init_layout].
    erewrite bind_ok; [|exact Hrun]. reflexivity.
  - erewrite bind_ok; [|apply Geoset_init_layout].
    erewrite bind_raise; [reflexivity|]. apply Hloop. by repeat split.
Qed.
End Ds9Facts.

(** On the reference implementation: the three polygon lines that [write]
    produces for [two_groups] are read as two groups, the hole cut out of
    the second. *)
Lemma C1_region_read_reconstruction_witness :
  exists s',
    Ds9regfile.read_lines (header := Reference.rheader)
      Reference.region_lines GeosetModel.empty_store
    = Ok (GeosetModel.VGeoset 0, s') /\
    GeosetModel.reify_geoset s' (GeosetModel.VGeoset 0)
    = Some (Ds9regfile.tree_of
              [[Reference.triangle]; [Reference.holed_square]] None).
Proof.
  refine (proj1 (C1_region_read_reconstruction (header := Reference.rheader))
            GeosetModel.empty_store Reference.region_lines
            [ Ds9regfile.mkTagged 0 0 0 false Reference.triangle;
              Ds9regfile.mkTagged 1 0 0 false
                (Reference.RPolygon Reference.outer_ring []);
              Ds9regfile.mkTagged 1 0 0 true
                (Reference.RPolygon Reference.hole_ring []) ] _).
  repeat constructor;
    (eexists; split; [vm_compute; reflexivity|by repeat split]).
Defined.

(** ** Python strings *)

Section PyStrFacts.
Import PyStr.

Lemma append_cons x (a b : string) : String x a +:+ b = String x (a +:+ b).
Proof. reflexivity. Qed.

Lemma append_nil_l (b : string) : "" +:+ b = b.
Proof. reflexivity. Qed.

Lemma append_assoc (a b c : string) : (a +:+ b) +:+ c = a +:+ (b +:+ c).
Proof.
  induction a as [|x a IH]; [reflexivity|].
  by rewrite !append_cons, IH.
Qed.

Lemma append_nil_r (a : string) : a +:+ "" = a.
Proof.
  induction a as [|x a IH]; [reflexivity|]. by rewrite append_cons, IH.
Qed.

Lemma contains_char_app c (a b : string) :
  contains_char c (a +:+ b) = contains_char c a || contains_char c b.
Proof.
  induction a as [|x a IH]; [reflexivity|].
  rewrite append_cons. cbn [contains_char].
  destruct (Ascii.eqb x c); [reflexivity|exact IH].
Qed.

Lemma prefix_char c x (s : string) :
  String.prefix (String c "") (String x s) = Ascii.eqb x c.
Proof.
  cbn [String.prefix]. destruct (ascii_dec c x) as [->|Hne].
  - rewrite Ascii.eqb_refl. by destruct s.
  - symmetry. apply Ascii.eqb_neq. congruence.
Qed.

(** A separator of one character that does not occur in [s]. *)
Lemma split_go_char c (cur s rest : string) :
  contains_char c s = false ->
  split_go (String c "") 0 cur (s +:+ String c rest)
  = (cur +:+ s) :: split_go (String c "") 0 "" rest.
Proof.
  revert cur. induction s as [|x s IH]; intros cur Hs.
  - rewrite append_nil_l. cbn [split_go]. rewrite prefix_char, Ascii.eqb_refl.
    by rewrite append_nil_r.
  - cbn [contains_char] in Hs. destruct (Ascii.eqb x c) eqn:Hx; [discriminate|].
    rewrite append_cons. cbn [split_go]. rewrite prefix_char, Hx.
    rewrite (IH _ Hs), append_assoc. reflexivity.
Qed.

Lemma split_first_line (s rest : string) :
  contains_char (ascii_of_nat 10) s = false ->
  split_first nl (s +:+ nl +:+ rest) = s.
Proof.
  intros Hs. unfold split_first, split, nl.
  rewrite append_cons, append_nil_l.
  by rewrite (split_go_char _ "" s rest Hs).
Qed.

Lemma partition_app c (s rest : string) :
  contains_char c s = false ->
  partition c (s +:+ String c rest) = (s, String c "", rest).
Proof.
  induction s as [|x s IH]; intros Hs.
  - rewrite append_nil_l. cbn [partition]. by rewrite Ascii.eqb_refl.
  - rewrite append_cons. cbn [partition].
    cbn [contains_char] in Hs. destruct (Ascii.eqb x c); [discriminate|].
    by rewrite (IH Hs).
Qed.
End PyStrFacts.

Section TokenFacts.
Context {float_t geom header : Type}.
Context `{Builtins float_t} `{Shapely float_t geom}.
Import PyStr Ds9regfile.

Lemma all_chars_contains P c (s : string) :
  all_chars P s = true -> P c = false -> contains_char c s = false.
Proof.
  intros Hs Hc. induction s as [|x s IH]; [reflexivity|].
  cbn [all_chars contains_char] in *.
  apply andb_true_iff in Hs as [Hx Hs].
  destruct (Ascii.eqb_spec x c) as [->|_]; [congruence|by apply IH].
Qed.

Lemma split_ws_token (cur tok rest : string) :
  all_chars token_char tok = true ->
  split_ws_go cur (replace_char "," " " (tok +:+ rest))
  = split_ws_go (cur +:+ tok) (replace_char "," " " rest).
Proof.
  revert cur. induction tok as [|c tok IH]; intros cur Ht.
  - by rewrite append_nil_r.
  - cbn [all_chars] in Ht. apply andb_true_iff in Ht as [Hc Ht].
    unfold token_char in Hc.
    apply andb_true_iff in Hc as [Hc Hparen].
    apply andb_true_iff in Hc as [Hsp Hcomma].
    apply negb_true_iff in Hsp, Hcomma.
    rewrite append_cons. cbn [replace_char split_ws_go]. rewrite Hcomma, Hsp.
    rewrite (IH _ Ht), append_assoc. reflexivity.
Qed.

Lemma split_ws_join (toks : list string) :
  Forall is_token toks ->
  split_ws (replace_char "," " " (join "," toks)) = toks.
Proof.
  unfold split_ws. induction 1 as [|t toks [Hne Ht] Htoks IH]; [reflexivity|].
  destruct toks as [|t' toks].
  - cbn [join]. rewrite <- (append_nil_r t) at 1.
    rewrite (split_ws_token _ _ _ Ht). rewrite append_nil_l.
    cbn [replace_char split_ws_go]. by destruct t.
  - change (join "," (t :: t' :: toks))
      with (t +:+ "," +:+ join "," (t' :: toks)).
    rewrite (split_ws_token _ _ _ Ht). rewrite append_nil_l, append_cons.
    cbn [replace_char split_ws_go]. simpl (is_space _). simpl (Ascii.eqb _ _).
    cbn iota. rewrite append_nil_l, IH. by destruct t.
Qed.

Lemma contains_char_join c (toks : list string) :
  Ascii.eqb "," c = false ->
  Forall (fun t => contains_char c t = false) toks ->
  contains_char c (join "," toks) = false.
Proof.
  intros Hc. induction 1 as [|t toks Ht Htoks IH]; [reflexivity|].
  destruct toks as [|t' toks]; [exact Ht|].
  change (join "," (t :: t' :: toks))
    with (t +:+ "," +:+ join "," (t' :: toks)).
  rewrite !contains_char_app, Ht, IH. cbn [contains_char]. by rewrite Hc.
Qed.

Lemma tokens_free_of c (toks : list string) :
  token_char c = false -> Ascii.eqb "," c = false ->
  Forall is_token toks -> contains_char c (join "," toks) = false.
Proof.
  intros Hc Hcomma Htoks. apply contains_char_join; [exact Hcomma|].
  eapply Forall_impl; [exact Htoks|].
  intros t [_ Ht]. by eapply all_chars_contains.
Qed.

Lemma zip_evens_odds {A} (xy : list (A * A)) :
  zip (evens (ravel xy)) (odds (ravel xy)) = xy.
Proof.
  induction xy as [|[x y] xy IH]; [reflexivity|].
  change (ravel ((x, y) :: xy)) with (x :: y :: ravel xy).
  cbn [evens odds zip]. fold (odds (ravel xy)).
  by rewrite <- IH at 3.
Qed.
End TokenFacts.

(** ** The lines that [write] produces, read back *)

Section WrittenLines.
Context {float_t geom header : Type}.
Context `{Builtins float_t} `{Shapely float_t geom}.
Import PyStr GeosetModel Ds9regfile.

Abbreviation store := (@GeosetModel.store float_t geom header).

Lemma prefix_append (a b : string) : String.prefix a (a +:+ b) = true.
Proof.
  induction a as [|x a IH]; [by destruct b|].
  rewrite append_cons. cbn [String.prefix].
  by destruct (ascii_dec x x).
Qed.

Lemma readlines_go_line (cur body rest : string) :
  contains_char (ascii_of_nat 10) body = false ->
  readlines_go cur (body +:+ nl +:+ rest)
  = (cur +:+ body +:+ nl) :: readlines_go "" rest.
Proof.
  revert cur. induction body as [|x body IH]; intros cur Hb.
  - reflexivity.
  - cbn [contains_char] in Hb.
    destruct (Ascii.eqb x (ascii_of_nat 10)) eqn:Hx; [discriminate|].
    rewrite append_cons. cbn [readlines_go]. rewrite Hx.
    rewrite (IH _ Hb), append_assoc. reflexivity.
Qed.

(** A line as [write] lays it out, [T] being the comment with its [#], is
    read as the polygon of its coordinates with the mark and the indices of
    the comment. *)
Lemma reads_written_line (toks : list string) (T : string)
    (xy' : list float_t) (poly' : geom) (hole : bool) (idx : list (string * Z))
    (i j k : Z) :
  Forall is_token toks ->
  mapM py_float toks = Ok xy' ->
  Polygon (zip (evens xy') (odds xy')) = Ok poly' ->
  contains_char (ascii_of_nat 10) T = false ->
  parse_comment (split_last "#" T) = Ok (hole, idx) ->
  tags idx = (Some i, Some j, Some k) ->
  reads_as ("polygon(" +:+ join "," toks +:+ ")" +:+ T +:+ nl)
    (mkTagged i j k hole poly').
Proof.
  intros Htoks Hxy Hpoly HT Hcomment Htags.
  assert (Hnl : contains_char (ascii_of_nat 10) (join "," toks) = false)
    by (by apply tokens_free_of).
  assert (Hparen : contains_char ")" (join "," toks) = false)
    by (by apply tokens_free_of).
  assert (Hbody : split_first nl
            ("polygon(" +:+ join "," toks +:+ ")" +:+ T +:+ nl)
          = "polygon(" +:+ join "," toks +:+ ")" +:+ T).
  { rewrite <- (split_first_line
                  ("polygon(" +:+ join "," toks +:+ ")" +:+ T) "").
    - by rewrite append_nil_r, !append_assoc.
    - rewrite !contains_char_app, Hnl, HT. reflexivity. }
  unfold reads_as. rewrite Hbody. split.
  - unfold startswith.
    change ("polygon(" +:+ join "," toks +:+ ")" +:+ T)
      with ("polygon" +:+ "(" +:+ join "," toks +:+ ")" +:+ T).
    apply prefix_append.
  - exists (mkParsed poly' hole idx (list.last toks)).
    split; [|by repeat split].
    unfold parse_polygon_line.
    change ("polygon(" +:+ join "," toks +:+ ")" +:+ T)
      with ("polygon" +:+ String "(" (join "," toks +:+ String ")" T)).
    rewrite (partition_app "(" "polygon") by reflexivity.
    cbn [snd]. rewrite (partition_app ")" _ _ Hparen).
    rewrite (split_ws_join _ Htoks), Hxy. cbn [mbind result_bind].
    rewrite Hpoly. cbn [mbind result_bind]. rewrite Hcomment. reflexivity.
Qed.

Lemma rereads_line (fmt : string) (coords coords' : list (float_t * float_t))
    (poly' : geom) (T : string) (hole : bool) (idx : list (string * Z))
    (i j k : Z) :
  rereads fmt coords coords' ->
  Polygon coords' = Ok poly' ->
  contains_char (ascii_of_nat 10) T = false ->
  parse_comment (split_last "#" T) = Ok (hole, idx) ->
  tags idx = (Some i, Some j, Some k) ->
  reads_as ("polygon(" +:+ ring_text fmt coords +:+ ")" +:+ T +:+ nl)
    (mkTagged i j k hole poly').
Proof.
  intros [Htoks Hxy] Hpoly HT Hcomment Htags.
  eapply reads_written_line; try eassumption.
  by rewrite zip_evens_odds.
Qed.

Lemma parse_comment_eq (attrs : string) (hole : bool)
    (idxl : list (string * string)) (idx : list (string * Z)) :
  contains "background" attrs = hole ->
  parse_ds9_attrs (if hole then split_last "background" attrs else attrs) false
  = Ok idxl ->
  mapM parse_index idxl = Ok idx ->
  parse_comment attrs = Ok (hole, idx).
Proof.
  intros Hhole Hattrs Hidx. unfold parse_comment.
  rewrite Hhole, Hattrs. cbn [mbind result_bind]. by rewrite Hidx.
Qed.

Lemma parse_index_eq (key v tagname sn : string) (n : Z) :
  split_ws v = [tagname; sn] -> int_literal sn = Some n ->
  parse_index (key, v) = Ok (tagname, n).
Proof.
  intros Hsplit Hn. unfold parse_index, py_int. cbn [snd].
  by rewrite Hsplit, Hn.
Qed.

Lemma three_indices (si sj sk : string) (i j k : Z) :
  int_literal si = Some i -> int_literal sj = Some j ->
  int_literal sk = Some k ->
  split_ws ("item " +:+ si) = ["item"; si] ->
  split_ws ("geo " +:+ sj) = ["geo"; sj] ->
  split_ws ("poly " +:+ sk) = ["poly"; sk] ->
  mapM parse_index
    [("tag", "item " +:+ si); ("tag", "geo " +:+ sj); ("tag", "poly " +:+ sk)]
  = Ok [("item", i); ("geo", j); ("poly", k)].
Proof.
  intros Hi Hj Hk Hsi Hsj Hsk. cbn [mapM].
  rewrite (parse_index_eq _ _ _ _ _ Hsi Hi).
  rewrite (parse_index_eq _ _ _ _ _ Hsj Hj).
  rewrite (parse_index_eq _ _ _ _ _ Hsk Hk). reflexivity.
Qed.
End WrittenLines.

(** ** Writing and reading a region file *)

Section RoundTrip.
Context {float_t geom header : Type}.
Context `{Builtins float_t} `{Shapely float_t geom}.
Import PyStr GeosetModel Ds9regfile.

Abbreviation store := (@GeosetModel.store float_t geom header).

Lemma write_two_groups (P1 P2 : geom) (e1 e2 h : list (float_t * float_t))
    (a1 a2 ga1 ga2 attrs : option (odict float_t)) (hdr : option header) :
  geom_type P1 = "Polygon" -> exterior_coords P1 = Ok e1 ->
  interiors_coords P1 = Ok [] ->
  geom_type P2 = "Polygon" -> exterior_coords P2 = Ok e2 ->
  interiors_coords P2 = Ok [h] ->
  write_lines
    (mkGeoset [mkItem [mkGeo (Some P1) ga1] a1; mkItem [mkGeo (Some P2) ga2] a2]
       attrs hdr) None ".15f"
  = Ok [ "physical" +:+ nl;
         "polygon(" +:+ ring_text "{0:.15f}" e1 +:+ ")"
           +:+ " # tag={item 0} tag={geo 0} tag={poly 0}" +:+ nl;
         "polygon(" +:+ ring_text "{0:.15f}" e2 +:+ ")"
           +:+ " # tag={item 1} tag={geo 0} tag={poly 0}" +:+ nl;
         "polygon(" +:+ ring_text "{0:.15f}" h +:+ ")"
           +:+ " # background tag={item 1} tag={geo 0} tag={poly 0}" +:+ nl ].
Proof.
  intros Ht1 He1 Hi1 Ht2 He2 Hi2.
  unfold write_lines.
  cbn [gs_items item_geos geo_geo enumerate length seq zip zip_with foldM fst snd
       mbind result_bind].
  rewrite Ht1, Ht2. simpl (String.eqb _ _). cbn iota.
  cbn [gs_items item_geos geo_geo enumerate length seq zip zip_with foldM fst snd
       mbind result_bind].
  rewrite He1, Hi1, He2, Hi2.
  cbn [mbind result_bind fold_left app].
  reflexivity.
Qed.

Lemma readlines_lines (bodies : list string) :
  Forall (fun b => contains_char (ascii_of_nat 10) b = false) bodies ->
  readlines (String.concat "" (map (fun b => b +:+ nl) bodies))
  = map (fun b => b +:+ nl) bodies.
Proof.
  unfold readlines. induction 1 as [|b bodies Hb Hbodies IH]; [reflexivity|].
  destruct bodies as [|b' bodies].
  - cbn [map String.concat].
    rewrite <- (append_nil_r (b +:+ nl)), append_assoc.
    by rewrite (readlines_go_line _ _ _ Hb).
  - change (String.concat "" (map (fun b => b +:+ nl) (b :: b' :: bodies)))
      with ((b +:+ nl) +:+ ""
            +:+ String.concat "" (map (fun b => b +:+ nl) (b' :: bodies))).
    rewrite append_nil_l, append_assoc.
    rewrite (readlines_go_line _ _ _ Hb), IH. reflexivity.
Qed.

Lemma coordsys_line (s0 : store) (l : locals) :
  read_line (VGeoset (length (st_geosets s0))) l ("physical" +:+ nl)
    (layout s0 [] None)
  = Ok (l, layout s0 [] (Some [("coordsys", SStr "physical")])).
Proof.
  unfold read_line.
  replace (split_first nl ("physical" +:+ nl)) with "physical"
    by (vm_compute; reflexivity).
  replace (startswith "physical" "#") with false by reflexivity.
  replace (startswith "physical" "global") with false by reflexivity.
  rewrite (bool_decide_eq_false_2 ("physical" = "")) by discriminate.
  rewrite (bool_decide_eq_true_2 ("physical" ∈ ["physical"; "fk5"]))
    by constructor.
  cbn [orb].
  unfold bind, get_geoset, set_geoset_attrs, update_geoset, bind, get_geoset,
    ret, layout.
  cbn [st_geosets]. rewrite list_lookup_middle by reflexivity.
  cbn [st_lists st_geos st_items st_geosets go_items go_attrs go_hdr go__geos].
  rewrite list_lookup_middle by reflexivity.
  cbn [st_lists st_geos st_items st_geosets go_items go_attrs go_hdr go__geos].
  rewrite insert_app_r_alt by reflexivity. rewrite Nat.sub_diag.
  reflexivity.
Qed.

(** C3. A tree of two groups, the first with one primitive of a single
    polygon [P1] without holes, the second with one primitive of a polygon
    [P2] with one hole, is written as four lines; when the coordinate
    texts are read back as the rings [e1'], [e2'], [h'] and the library
    builds the polygons [Q1], [Q2], [Qh] of these rings and the difference
    [D] of [Q2] and [Qh], reading the text gives a tree of two groups:
    [Q1] in the first, and in the second [D], the outer polygon with the
    hole subtracted. Where the library's difference has the area of the
    outer polygon less the area of the hole, that is the area of the
    geometry read. Attributes below the root and the header are not
    written. *)
Theorem C3_region_hierarchy_round_trip
    (P1 P2 : geom) (e1 e2 h e1' e2' h' : list (float_t * float_t))
    (Q1 Q2 Qh D : geom) (a1 a2 ga1 ga2 attrs : option (odict float_t))
    (hdr : option header) (s0 : store) :
  geom_type P1 = "Polygon" -> exterior_coords P1 = Ok e1 ->
  interiors_coords P1 = Ok [] ->
  geom_type P2 = "Polygon" -> exterior_coords P2 = Ok e2 ->
  interiors_coords P2 = Ok [h] ->
  int_literal "0" = Some 0 -> int_literal "1" = Some 1 ->
  rereads "{0:.15f}" e1 e1' -> rereads "{0:.15f}" e2 e2' ->
  rereads "{0:.15f}" h h' ->
  Polygon e1' = Ok Q1 -> Polygon e2' = Ok Q2 -> Polygon h' = Ok Qh ->
  geom_difference Q2 Qh = Ok D ->
  geom_area D = float_sub (geom_area Q2) (geom_area Qh) ->
  exists content s' tree,
    write (mkGeoset [mkItem [mkGeo (Some P1) ga1] a1;
                     mkItem [mkGeo (Some P2) ga2] a2] attrs hdr) None
    = Ok content /\
    read content s0 = Ok (VGeoset (length (st_geosets s0)), s') /\
    reify_geoset s' (VGeoset (length (st_geosets s0))) = Some tree /\
    tree = tree_of [[Q1]; [D]] (Some [("coordsys", SStr "physical")]) /\
    length (gs_items tree) = 2%nat /\
    exists g,
      (gs_items tree !! 1%nat ≫= fun it => item_geos it !! 0%nat ≫= geo_geo)
      = Some g /\
      geom_area g = float_sub (geom_area Q2) (geom_area Qh).
Proof.
  intros Ht1 He1 Hi1 Ht2 He2 Hi2 H0' H1' Hr1 Hr2 Hrh HQ1 HQ2 HQh HD Harea.
  set (T1 := " # tag={item 0} tag={geo 0} tag={poly 0}").
  set (T2 := " # tag={item 1} tag={geo 0} tag={poly 0}").
  set (T3 := " # background tag={item 1} tag={geo 0} tag={poly 0}").
  set (b1 := "polygon(" +:+ ring_text "{0:.15f}" e1 +:+ ")" +:+ T1).
  set (b2 := "polygon(" +:+ ring_text "{0:.15f}" e2 +:+ ")" +:+ T2).
  set (b3 := "polygon(" +:+ ring_text "{0:.15f}" h +:+ ")" +:+ T3).
  assert (Hfree : forall e e', rereads "{0:.15f}" e e' ->
            contains_char (ascii_of_nat 10) (ring_text "{0:.15f}" e) = false).
  { intros e e' [Htoks _]. by apply tokens_free_of. }
  assert (Hlines :
    write_lines (mkGeoset [mkItem [mkGeo (Some P1) ga1] a1;
                           mkItem [mkGeo (Some P2) ga2] a2] attrs hdr)
      None ".15f"
    = Ok (map (fun b => b +:+ nl) ["physical"; b1; b2; b3])).
  { rewrite (write_two_groups P1 P2 e1 e2 h) by assumption.
    unfold b1, b2, b3. cbn [map]. by rewrite !append_assoc. }
  assert (Hidx : forall si i, int_literal si = Some i ->
            split_ws ("item " +:+ si) = ["item"; si] ->
            mapM parse_index
              [("tag", "item " +:+ si); ("tag", "geo 0"); ("tag", "poly 0")]
            = Ok [("item", i); ("geo", 0); ("poly", 0)]).
  { intros si i Hsi Hsplit.
    by apply (three_indices si "0" "0"). }
  assert (Hl1 : reads_as (b1 +:+ nl) (mkTagged 0 0 0 false Q1)).
  { unfold b1. rewrite !append_assoc.
    apply (rereads_line _ e1 e1' Q1 T1 false [("item", 0); ("geo", 0); ("poly", 0)]);
      try done.
    apply (parse_comment_eq _ false
             [("tag", "item 0"); ("tag", "geo 0"); ("tag", "poly 0")]);
      [reflexivity|reflexivity|by apply (Hidx "0")]. }
  assert (Hl2 : reads_as (b2 +:+ nl) (mkTagged 1 0 0 false Q2)).
  { unfold b2. rewrite !append_assoc.
    apply (rereads_line _ e2 e2' Q2 T2 false [("item", 1); ("geo", 0); ("poly", 0)]);
      try done.
    apply (parse_comment_eq _ false
             [("tag", "item 1"); ("tag", "geo 0"); ("tag", "poly 0")]);
      [reflexivity|reflexivity|by apply (Hidx "1")]. }
  assert (Hl3 : reads_as (b3 +:+ nl) (mkTagged 1 0 0 true Qh)).
  { unfold b3. rewrite !append_assoc.
    apply (rereads_line _ h h' Qh T3 true [("item", 1); ("geo", 0); ("poly", 0)]);
      try done.
    apply (parse_comment_eq _ true
             [("tag", "item 1"); ("tag", "geo 0"); ("tag", "poly 0")]);
      [reflexivity|reflexivity|by apply (Hidx "1")]. }
  pose proof (read_loop_refines s0 (Some [("coordsys", SStr "physical")])
                [b1 +:+ nl; b2 +:+ nl; b3 +:+ nl]
                [mkTagged 0 0 0 false Q1; mkTagged 1 0 0 false Q2;
                 mkTagged 1 0 0 true Qh]
                ltac:(repeat (constructor; [assumption|]); constructor)
                [] None init_locals
                ltac:(by repeat split)) as Hloop.
  assert (Hspec :
    foldM spec_step ([], None)
      [mkTagged 0 0 0 false Q1; mkTagged 1 0 0 false Q2; mkTagged 1 0 0 true Qh]
    = Ok ([[Q1]; [D]], Some (1, 0, 0))).
  { cbn [foldM]. unfold spec_step at 1. simpl. unfold on_last. simpl.
    rewrite HD. reflexivity. }
  rewrite Hspec in Hloop. destruct Hloop as (l' & Hrun & _).
  eexists _, (layout s0 [[Q1]; [D]] (Some [("coordsys", SStr "physical")])), _.
  split; [|split; [|split; [apply reify_layout|split; [reflexivity|split]]]].
  - unfold write. rewrite Hlines. reflexivity.
  - unfold read. rewrite readlines_lines.
    2: { repeat constructor; unfold b1, b2, b3;
           rewrite ?contains_char_app, ?(Hfree _ _ Hr1), ?(Hfree _ _ Hr2),
             ?(Hfree _ _ Hrh); reflexivity. }
    unfold read_lines. cbn [map read_loop].
    erewrite bind_ok; [|apply Geoset_init_layout].
    erewrite bind_ok.
    2: { erewrite bind_ok; [|apply coordsys_line]. exact Hrun. }
    reflexivity.
  - reflexivity.
  - exists D. split; [reflexivity|exact Harea].
Qed.
End RoundTrip.

(** The tree [two_groups] of the reference libraries, written and read
    back: two groups, the second a square of area 200 / 2 less a hole of
    area 8 / 2 (the areas are kept doubled). *)
Lemma C3_region_hierarchy_round_trip_witness :
  exists content s'
         (tree : Geoset Reference.rfloat Reference.rgeom Reference.rheader),
    Ds9regfile.write Reference.two_groups None = Ok content /\
    Ds9regfile.read content GeosetModel.empty_store
    = Ok (GeosetModel.VGeoset 0, s') /\
    GeosetModel.reify_geoset s' (GeosetModel.VGeoset 0) = Some tree /\
    tree = Ds9regfile.tree_of
             [[Reference.triangle]; [Reference.holed_square]]
             (Some [("coordsys", SStr "physical")]) /\
    length (gs_items tree) = 2%nat /\
    exists g,
      (gs_items tree !! 1%nat ≫= fun it => item_geos it !! 0%nat ≫= geo_geo)
      = Some g /\
      geom_area g
      = float_sub (geom_area (Reference.RPolygon Reference.outer_ring []))
                  (geom_area (Reference.RPolygon Reference.hole_ring [])).
Proof.
  apply (C3_region_hierarchy_round_trip (header := Reference.rheader)
           Reference.triangle Reference.holed_square
           [(0, 0); (4, 0); (0, 4); (0, 0)] Reference.outer_ring
           Reference.hole_ring
           [(0, 0); (4, 0); (0, 4); (0, 0)] Reference.outer_ring
           Reference.hole_ring
           Reference.triangle (Reference.RPolygon Reference.outer_ring [])
           (Reference.RPolygon Reference.hole_ring [])
           Reference.holed_square);
    try reflexivity;
    (split; [apply (bool_decide_unpack _); vm_compute; reflexivity
            |vm_compute; reflexivity]).
Defined.

(** ** _utils: lists of polygons, headers *)

Section UtilsMoreFacts.
Context {float_t geom header wcs_t : Type}.
Context `{Builtins float_t} `{Shapely float_t geom}.
Context `{FitsHeader float_t header} `{AstropyWcs float_t header wcs_t}.
Context `{ShapelyPredicates float_t geom}.
Import Utils UtilsMore.

Lemma mapM_result_length {A B} (f : A -> result B) (l : list A) (k : list B) :
  mapM f l = Ok k -> length k = length l.
Proof.
  revert k. induction l as [|x l IH]; simpl; intros k.
  - by intros [= <-].
  - destruct (f x) as [y|e]; simpl; [|discriminate].
    destruct (mapM f l) as [k'|e]; simpl; [|discriminate].
    intros [= <-]. simpl. by rewrite (IH k').
Qed.

Lemma mapM_result_lookup {A B} (f : A -> result B) (l : list A) (k : list B)
    (i : nat) (x : A) :
  mapM f l = Ok k -> l !! i = Some x ->
  exists y, k !! i = Some y /\ f x = Ok y.
Proof.
  revert k i. induction l as [|x' l IH]; simpl; intros k i; [done|].
  destruct (f x') as [y|e] eqn:Hy; simpl; [|discriminate].
  destruct (mapM f l) as [k'|e]; simpl; [|discriminate].
  intros [= <-]. destruct i as [|i]; simpl.
  - intros [= ->]. by exists y.
  - intros Hi. by apply IH.
Qed.

(** The body of the loop of [poly_translate] on one polygon and its
    shifts is what [poly_translate] does on the list of that polygon. *)
Lemma poly_translate_one (p q : geom) (dx dy : float_t) :
  (if String.eqb (geom_type p) "MultiPolygon"
   then subs ← geom_iter p;
        new_poly ← mapM (fun subpoly => convert_translate subpoly dx dy) subs;
        MultiPolygon new_poly
   else convert_translate p dx dy) = Ok q ->
  poly_translate [p] (One dx) (One dy) = Ok [q].
Proof.
  intros Hq. unfold poly_translate. cbn [length broadcast replicate zip_with mapM].
  rewrite Hq. reflexivity.
Qed.


Lemma proxy_fold (items : list (string * scalar float_t)) (acc : header) :
  fold_left
    (fun proxy_hdr kv =>
       if bool_decide (fst kv ∈ _PROBLEMATIC_KEYS) then proxy_hdr
       else header_set proxy_hdr (fst kv) (snd kv))
    items acc
  = fold_left (fun proxy_hdr kv => header_set proxy_hdr (fst kv) (snd kv))
      (filter (fun kv => fst kv ∉ _PROBLEMATIC_KEYS) items) acc.
Proof.
  revert acc. induction items as [|kv items IH]; intros acc; [reflexivity|].
  cbn [fold_left]. rewrite filter_cons. case_bool_decide as Hk.
  - rewrite decide_False by (intros Hn; by apply Hn). apply IH.
  - rewrite decide_True by assumption. cbn [fold_left]. apply IH.
Qed.


(** X3. [consolidate_polys] returns [None] or a geometry that is not
    empty, never an empty geometry. A single polygon without holes is
    returned as it is when it is not empty, with no call of the library's
    constructors or set operations. Where the library's [Polygon()] is
    empty, the result for an empty [poly_list] without holes is [None]. *)
Theorem consolidate_polys_nonempty :
  (forall (ps : list geom) (hs : option (list geom)) (p : geom),
      consolidate_polys ps hs = Ok (Some p) -> geom_is_empty p = false) /\
  (forall p : geom, geom_is_empty p = false ->
      consolidate_polys [p] None = Ok (Some p) /\
      consolidate_polys [p] (Some []) = Ok (Some p)) /\
  (geom_is_empty empty_Polygon = true ->
   consolidate_polys [] None = Ok None /\
   consolidate_polys [] (Some []) = Ok None).
Proof.
  split; [|split].
  - intros ps hs p. unfold consolidate_polys.
    destruct (match ps with
              | [] => Ok empty_Polygon
              | [p0] => Ok p0
              | _ => MultiPolygon ps
              end) as [poly|e]; cbn [mbind result_bind]; [|discriminate].
    destruct (match hs with
              | Some holes => foldM add_hole poly holes
              | None => Ok poly
              end) as [poly'|e]; cbn [mbind result_bind]; [|discriminate].
    destruct (geom_is_empty poly') eqn:He; [discriminate|].
    by intros [= <-].
  - intros p Hp. unfold consolidate_polys. cbn [mbind result_bind foldM].
    by rewrite Hp.
  - intros He. unfold consolidate_polys. cbn [mbind result_bind foldM].
    by rewrite He.
Qed.
End UtilsMoreFacts.


Lemma consolidate_polys_nonempty_witness :
  geom_is_empty Reference.holed_square = false.
Proof.
  apply (proj1 consolidate_polys_nonempty
           [Reference.RPolygon Reference.outer_ring []]
           (Some [Reference.RPolygon Reference.hole_ring []])).
  vm_compute. reflexivity.
Defined.

(** ** _geoset: the text of a tree *)

Section GeosetStrFacts.
Context {float_t geom header : Type}.
Context `{Builtins float_t} `{Shapely float_t geom}.
Import PyStr GeosetStr.

Lemma join_cons_cons (sep x y : string) (l : list string) :
  join sep (x :: y :: l) = x +:+ sep +:+ join sep (y :: l).
Proof. reflexivity. Qed.

Lemma join_app (sep : string) (l1 l2 : list string) :
  l1 <> [] -> l2 <> [] ->
  join sep (l1 ++ l2) = join sep l1 +:+ sep +:+ join sep l2.
Proof.
  intros H1 H2. induction l1 as [|x l1 IH]; [done|].
  destruct l1 as [|y l1].
  - destruct l2 as [|z l2]; [done|]. reflexivity.
  - change ((x :: y :: l1) ++ l2) with (x :: y :: (l1 ++ l2)).
    rewrite !join_cons_cons.
    change (y :: l1 ++ l2) with ((y :: l1) ++ l2).
    rewrite IH by done. by rewrite !append_assoc.
Qed.

(** Joining texts that are themselves joined lines joins all the lines. *)
Lemma join_concat (sep : string) (gs : list (list string)) :
  gs <> [] -> Forall (fun g => g <> []) gs ->
  join sep (map (join sep) gs) = join sep (concat gs).
Proof.
  intros Hne Hall. induction Hall as [|g gs Hg Hall IH]; [done|].
  destruct gs as [|g' gs].
  - cbn [map concat]. by rewrite app_nil_r.
  - cbn [map]. rewrite join_cons_cons.
    change (join sep g' :: map (join sep) gs) with (map (join sep) (g' :: gs)).
    rewrite IH by done. cbn [concat].
    rewrite (join_app sep g (g' ++ concat gs)); [reflexivity|done|].
    inversion Hall; subst. by destruct g'.
Qed.

(** The number of geos in the first [j] items. *)
Abbreviation geos_before j items :=
  (Z.of_nat (length (concat (map item_geos (take j items))))).

Lemma Geoset_loop_from (items : list (Item float_t geom)) (a : nat)
    (acc : list string) (n : Z) :
  fold_left
    (fun '(lines, n) ji =>
       (lines ++ [Item___str__ (snd ji) (Some (Z.of_nat (fst ji) + 1)) (Some n)
                    "    " 1],
        n + Z.of_nat (length (item_geos (snd ji)))))
    (zip (seq a (length items)) items) (acc, n)
  = (acc ++ imap (fun j it =>
                    Item___str__ it (Some (Z.of_nat (a + j) + 1))
                      (Some (n + geos_before j items)) "    " 1) items,
     n + Z.of_nat (length (concat (map item_geos items)))).
Proof.
  revert a acc n. induction items as [|it items IH]; intros a acc n.
  - cbn. rewrite app_nil_r. f_equal. lia.
  - cbn [length seq zip_with fold_left fst snd].
    rewrite IH. cbn [imap map concat take].
    rewrite <- app_assoc. cbn [app]. f_equal.
    + f_equal. f_equal.
      * rewrite Nat.add_0_r. cbn [length]. by rewrite Z.add_0_r.
      * apply imap_ext. intros j it' _. unfold compose.
        cbn [map concat take]. rewrite length_app.
        f_equal; [do 2 f_equal; lia|f_equal; lia].
    + rewrite length_app. lia.
Qed.

Lemma Item_lines_length (it : Item float_t geom) i n indent level :
  length (Item_lines it i n indent level) = S (length (item_geos it)).
Proof.
  unfold Item_lines, enumerate. cbn [length].
  by rewrite length_map, length_zip_with, length_seq, Nat.min_id.
Qed.

Lemma ngeos_length (items : list (Item float_t geom)) :
  ngeos items = Z.of_nat (length (concat (map item_geos items))).
Proof.
  unfold ngeos.
  assert (Hgen : forall a : Z,
             fold_left Z.add
               (map (fun item => Z.of_nat (length (item_geos item))) items) a
             = a + Z.of_nat (length (concat (map item_geos items)))).
  { induction items as [|it items IH]; intros a; cbn [map fold_left concat].
    - cbn. lia.
    - rewrite IH, length_app. lia. }
  by rewrite Hgen.
Qed.

Lemma concat_imap_length {A B} (f : nat -> A -> list B) (size : A -> nat)
    (l : list A) :
  (forall k x, length (f k x) = S (size x)) ->
  length (concat (imap f l)) = (length l + sum_list (map size l))%nat.
Proof.
  revert f. induction l as [|x l IH]; intros f Hf; [reflexivity|].
  cbn [imap concat]. rewrite length_app, Hf, IH.
  - simpl. lia.
  - intros k y. apply Hf.
Qed.

Lemma concat_length_sum {A} (ls : list (list A)) :
  length (concat ls) = sum_list (map length ls).
Proof.
  induction ls as [|l ls IH]; [reflexivity|].
  simpl. by rewrite length_app, IH.
Qed.

Lemma concat_imap_lookup {A B} (f : nat -> A -> list B) (l : list A)
    (j i : nat) (x : A) (y : B) :
  l !! j = Some x -> f j x !! i = Some y ->
  concat (imap f l) !! (length (concat (imap f (take j l))) + i)%nat = Some y.
Proof.
  intros Hj Hi.
  replace (imap f l) with (imap f (take j l ++ x :: drop (S j) l))
    by (by rewrite take_drop_middle).
  rewrite imap_app, concat_app, lookup_app_r by lia.
  replace (length (concat (imap f (take j l))) + i
           - length (concat (imap f (take j l))))%nat with i by lia.
  cbn [imap concat].
  rewrite length_take_le, Nat.add_0_r
    by (apply Nat.lt_le_incl; by eapply lookup_lt_Some).
  rewrite lookup_app_l by (by eapply lookup_lt_Some). exact Hi.
Qed.

(** X4. [str] of a [Geoset] without items raises: the text for the number
    of geos is assigned only when there are items, and is read in both
    cases. *)
Theorem Geoset_str_empty_raises (g : Geoset float_t geom header) :
  gs_items g = [] -> Geoset___str__ g = Raise NameError.
Proof.
  intros Hg. unfold Geoset___str__. by rewrite Hg.
Qed.

(** X5. [str] of a [Geoset] with items is a first line with the number of
    items and the number of geos of the whole tree, then one line for each
    item and each geo: the geo at position [i] of the item at position
    [j] is on line [j + m + 2], where [m] is its position among all the
    geos of the tree (the position it has in [Geoset.geos]), and is
    printed with the numbers [i + 1] and [m + 1]. *)
Theorem Geoset_str_numbering (g : Geoset float_t geom header) :
  gs_items g <> [] ->
  exists lines : list string,
    Geoset___str__ g
    = Ok (join nl
            (("Geoset: " +:+ format_d (Z.of_nat (length (gs_items g)))
              +:+ " item(s), "
              +:+ format_d (Z.of_nat (length (concat (map item_geos (gs_items g)))))
              +:+ " geo(s)" +:+ attrstr (gs_attrs g)
              +:+ match gs_hdr g with None => "" | Some _ => ", FITS header" end)
             :: lines)) /\
    length lines
    = (length (gs_items g)
       + length (concat (map item_geos (gs_items g))))%nat /\
    forall (j i : nat) (it : Item float_t geom) (geo : Geo float_t geom),
      gs_items g !! j = Some it -> item_geos it !! i = Some geo ->
      let m := (length (concat (map item_geos (take j (gs_items g)))) + i)%nat in
      lines !! (j + m + 1)%nat
      = Some ("        Geo " +:+ format_d (Z.of_nat i + 1) +:+ ","
              +:+ format_d (Z.of_nat m + 1) +:+ ": "
              +:+ match geo_geo geo with
                  | None => "None"
                  | Some p => geom_type p
                  end
              +:+ attrstr (geo_attrs geo)).
Proof.
  intros Hne.
  set (f := fun (j : nat) (it : Item float_t geom) =>
              Item_lines it (Some (Z.of_nat j + 1))
                (Some (geos_before j (gs_items g))) "    " 1).
  exists (concat (imap f (gs_items g))). split; [|split].
  - unfold Geoset___str__, Geoset_loop, enumerate.
    rewrite bool_decide_eq_false_2 by exact Hne.
    cbn [mbind result_bind]. rewrite Geoset_loop_from. cbn [fst app].
    rewrite ngeos_length.
    set (first := "Geoset" +:+ _).
    set (first' := "Geoset: " +:+ _).
    assert (Hfirst : first = first').
    { unfold first, first'. by rewrite !append_assoc. }
    rewrite Hfirst.
    change (first' :: concat (imap f (gs_items g)))
      with (concat ([first'] :: imap f (gs_items g))).
    rewrite <- join_concat.
    + cbn [map]. do 3 f_equal. unfold f, Item___str__.
      change (map (join nl) (imap f (gs_items g)))
        with (join nl <$> imap f (gs_items g)).
      rewrite fmap_imap. apply imap_ext. intros j it _.
      unfold compose, f. by rewrite Z.add_0_l.
    + done.
    + constructor; [done|]. apply Forall_forall. intros ls Hls.
      apply elem_of_lookup_imap_1 in Hls as (j & it & -> & _).
      unfold f, Item_lines. done.
  - rewrite (concat_imap_length f (fun it => length (item_geos it))).
    + by rewrite concat_length_sum, map_map.
    + intros k it. apply Item_lines_length.
  - intros j i it geo Hj Hi m.
    assert (Hpos : (j + m + 1 =
                    length (concat (imap f (take j (gs_items g)))) + S i)%nat).
    { rewrite (concat_imap_length f (fun it => length (item_geos it)))
        by (intros k x; apply Item_lines_length).
      rewrite length_take_le
        by (apply Nat.lt_le_incl; by eapply lookup_lt_Some).
      unfold m. rewrite concat_length_sum, map_map. lia. }
    rewrite Hpos. apply (concat_imap_lookup f _ j (S i) it); [exact Hj|].
    unfold f, Item_lines.
    match goal with
    | |- (?x :: map ?g ?l) !! S i = _ =>
        change ((x :: map g l) !! S i) with ((g <$> l) !! i)
    end.
    rewrite list_lookup_fmap. unfold enumerate.
    rewrite (proj2 (lookup_zip_with_Some pair _ _ i (i, geo))).
    2:{ exists i, geo. split; [reflexivity|]. split; [|exact Hi].
        apply lookup_seq. split; [reflexivity|]. by eapply lookup_lt_Some. }
    cbn [fmap option_fmap option_map fst snd]. f_equal.
    unfold Geo___str__, m. rewrite !append_assoc.
    rewrite Nat2Z.inj_add. 
    replace (Z.of_nat i + 1 +
             Z.of_nat (length (concat (map item_geos (take j (gs_items g))))))
      with (Z.of_nat (length (concat (map item_geos (take j (gs_items g)))))
            + Z.of_nat i + 1) by lia.
    reflexivity.
Qed.
End GeosetStrFacts.

Lemma Geoset_str_empty_raises_witness :
  GeosetStr.Geoset___str__ (float_t := Reference.rfloat)
    (geom := Reference.rgeom) (header := Reference.rheader)
    (mkGeoset [] (Some [("coordsys", SStr "fk5")]) None)
  = Raise NameError.
Proof.
  apply (Geoset_str_empty_raises
           (mkGeoset [] (Some [("coordsys", SStr "fk5")]) None)).
  reflexivity.
Defined.

(** The text of [two_groups]: the second geo of the tree is the first of
    the second item. *)
Lemma Geoset_str_numbering_witness :
  exists lines : list string,
    GeosetStr.Geoset___str__ Reference.two_groups
    = Ok (PyStr.join PyStr.nl
            ("Geoset: 2 item(s), 2 geo(s), 2 attr(s), FITS header" :: lines)) /\
    length lines = 4%nat /\
    lines !! 3%nat = Some "        Geo 1,2: Polygon, 1 attr(s)".
Proof.
  destruct (Geoset_str_numbering Reference.two_groups) as (lines & Hs & Hl & Hg);
    [discriminate|].
  exists lines. split; [exact Hs|]. split; [exact Hl|].
  exact (Hg 1%nat 0%nat _ _ eq_refl eq_refl).
Defined.

(** ** polylistxml: the formatter *)

Section PrettyFormatFacts.
Import PyStr PyStrMore PolylistxmlFormat.

Lemma element_children_ind (P : element -> Prop) :
  (forall tg at_ tx tl c, Forall P c -> P (Element tg at_ tx tl c)) ->
  forall e, P e.
Proof.
  intros HP. fix IH 1. intros [tg at_ tx tl c]. apply HP.
  induction c as [|e c IHc]; constructor; [apply IH|exact IHc].
Qed.

Lemma times_S (n : nat) (s : string) : times (S n) s = s +:+ times n s.
Proof.
  unfold times. destruct n as [|n].
  - cbn [replicate String.concat]. by rewrite append_nil_r.
  - reflexivity.
Qed.

Lemma lstrip_spaces (n : nat) (s : string) :
  lstrip (times n "  " +:+ s) = lstrip s.
Proof.
  induction n as [|n IH]; [reflexivity|].
  rewrite times_S, append_assoc. exact IH.
Qed.

Lemma blank_lstrip (s : string) : lstrip s = "" -> blank (Some s) = true.
Proof.
  intros Hs. unfold blank, strip. rewrite Hs.
  rewrite (bool_decide_eq_true_2 (reverse_str (lstrip (reverse_str "")) = ""))
    by reflexivity.
  apply orb_true_r.
Qed.

(** The texts that the formatter assigns are blank. *)
Lemma blank_indent (level : nat) :
  blank (Some (nl +:+ times level "  ")) = true /\
  blank (Some ((nl +:+ times level "  ") +:+ "  ")) = true.
Proof.
  split; apply blank_lstrip.
  - change (lstrip (times level "  ") = "").
    rewrite <- (append_nil_r (times level "  ")). by rewrite lstrip_spaces.
  - rewrite append_assoc. change (lstrip (times level "  " +:+ "  ") = "").
    by rewrite lstrip_spaces.
Qed.

Lemma map_alter_absorb {A B} (u : A -> B) (f : A -> A) (n : nat) (l : list A) :
  (forall x, u (f x) = u x) -> map u (alter f n l) = map u l.
Proof.
  intros Hu. revert n. induction l as [|x l IH]; intros n; [reflexivity|].
  destruct n as [|n]; cbn.
  - by rewrite Hu.
  - f_equal. apply IH.
Qed.

Lemma unspaced_set_tail (t : string) (e : element) :
  blank (tail e) = true -> blank (Some t) = true ->
  unspaced (set_tail (Some t) e) = unspaced e.
Proof.
  destruct e as [tg at_ tx tl c]. cbn [tail set_tail unspaced].
  by intros -> ->.
Qed.

Lemma unspaced_dedent_last (level : nat) (c : list element) :
  map unspaced (dedent_last (nl +:+ times level "  ") c) = map unspaced c.
Proof.
  unfold dedent_last. apply map_alter_absorb. intros e.
  destruct (blank (tail e)) eqn:Hb; [|reflexivity].
  apply unspaced_set_tail; [exact Hb|]. apply blank_indent.
Qed.

(** X6. [pretty_format] changes blank texts and tails only: the tags,
    the attributes, the children and their order, and every text and tail
    that is not blank are those of the element it was given, at every
    level and for every [indent]. *)
Theorem pretty_format_unspaced (e : element) (level : nat) (indent : string) :
  unspaced (pretty_format e level indent) = unspaced e.
Proof.
  revert level indent.
  induction e as [tg at_ tx tl c IH] using element_children_ind.
  intros level indent. destruct c as [|e c].
  - cbn [pretty_format].
    destruct (negb (level =? 0)%nat && blank tl) eqn:Hc; [|reflexivity].
    apply andb_prop in Hc as [_ Hb]. cbn [unspaced map].
    by rewrite Hb, (proj1 (blank_indent level)).
  - cbn [pretty_format]. cbn [unspaced].
    rewrite unspaced_dedent_last, map_map. f_equal.
    + destruct (blank tx) eqn:Hb; [|by rewrite Hb].
      by rewrite (proj2 (blank_indent level)).
    + destruct (blank tl) eqn:Hb; [|by rewrite Hb].
      by rewrite (proj1 (blank_indent level)).
    + apply map_ext_Forall. eapply Forall_impl; [exact IH|].
      intros x Hx. apply Hx.
Qed.

(** Below the root, an element whose tail has been set to a blank text is
    formatted as the element itself, but for the tail. *)
Lemma pretty_format_set_tail (t : string) (e : element) (level : nat)
    (indent : string) :
  blank (Some t) = true -> blank (tail e) = true ->
  pretty_format (set_tail (Some t) e) (S level) indent
  = pretty_format e (S level) indent.
Proof.
  intros Ht He. destruct e as [tg at_ tx tl c]. cbn [tail] in He.
  cbn [set_tail]. destruct c as [|x c]; cbn [pretty_format].
  - cbn [Nat.eqb negb andb]. by rewrite Ht, He.
  - by rewrite Ht, He.
Qed.

Lemma pretty_format_tail_blank (e : element) (level : nat) (indent : string) :
  blank (tail (pretty_format e level indent)) = blank (tail e).
Proof.
  destruct e as [tg at_ tx tl c]. destruct c as [|x c]; cbn [pretty_format].
  - destruct (negb (level =? 0)%nat && blank tl) eqn:Hc; [|reflexivity].
    apply andb_prop in Hc as [_ Hb]. cbn [tail].
    by rewrite Hb, (proj1 (blank_indent level)).
  - cbn [tail]. destruct (blank tl) eqn:Hb; [|exact Hb].
    apply blank_indent.
Qed.

Lemma set_tail_set_tail (t t' : option string) (e : element) :
  set_tail t (set_tail t' e) = set_tail t e.
Proof. by destruct e. Qed.

Lemma dedent_last_length (i : string) (c : list element) :
  length (dedent_last i c) = length c.
Proof. unfold dedent_last. apply length_alter. Qed.

(** Formatting the children again and setting the tail of the last one
    gives the children as they were formatted. *)
Lemma dedent_last_again (level : nat) (indent : string) (c : list element) :
  Forall (fun e => pretty_format e (S level) indent = e) c ->
  dedent_last (nl +:+ times level "  ")
    (map (fun e => pretty_format e (S level) indent)
       (dedent_last (nl +:+ times level "  ") c))
  = dedent_last (nl +:+ times level "  ") c.
Proof.
  intros Hfix. set (i := nl +:+ times level "  ").
  unfold dedent_last at 1. rewrite length_map, dedent_last_length.
  apply list_eq. intros k.
  destruct (decide (k = length c - 1)%nat) as [->|Hk].
  - unfold dedent_last.
    destruct (c !! (length c - 1)%nat) as [x|] eqn:Hx.
    + rewrite list_lookup_alter_eq.
      change (map ?f ?l) with (f <$> l).
      rewrite list_lookup_fmap, !list_lookup_alter_eq, Hx.
      cbn [fmap option_fmap option_map]. f_equal.
      assert (Hfx : pretty_format x (S level) indent = x).
      { rewrite Forall_forall in Hfix. apply Hfix.
        by eapply list_elem_of_lookup_2. }
      cbv beta. destruct (blank (tail x)) eqn:Hb.
      * rewrite pretty_format_set_tail, Hfx by (done || apply blank_indent).
        by rewrite Hb.
      * rewrite Hfx. by rewrite Hb.
    + rewrite !list_lookup_alter_eq. change (map ?f ?l) with (f <$> l).
      by rewrite list_lookup_fmap, list_lookup_alter_eq, Hx.
  - unfold dedent_last. rewrite list_lookup_alter_ne by done.
    change (map ?f ?l) with (f <$> l).
    rewrite list_lookup_fmap, !list_lookup_alter_ne by done.
    destruct (c !! k) as [x|] eqn:Hx; [|reflexivity].
    cbn [fmap option_fmap option_map]. f_equal.
    rewrite Forall_forall in Hfix. apply Hfix.
    by eapply list_elem_of_lookup_2.
Qed.

Lemma pretty_format_node tg at_ tx tl (c : list element) (level : nat)
    (indent : string) :
  c <> [] ->
  pretty_format (Element tg at_ tx tl c) level indent
  = Element tg at_
      (if blank tx then Some ((nl +:+ times level "  ") +:+ "  ") else tx)
      (if blank tl then Some (nl +:+ times level "  ") else tl)
      (dedent_last (nl +:+ times level "  ")
         (map (fun e => pretty_format e (S level) "  ") c)).
Proof.
  intros Hc. destruct c as [|x c]; [done|].
  cbn [pretty_format]. by rewrite Nat.add_1_r.
Qed.

(** X7. [pretty_format] is idempotent: formatting a formatted tree, at the
    same level, changes nothing. *)
Theorem pretty_format_idempotent (e : element) (level : nat)
    (indent indent' : string) :
  pretty_format (pretty_format e level indent) level indent'
  = pretty_format e level indent.
Proof.
  revert level indent indent'.
  induction e as [tg at_ tx tl c IH] using element_children_ind.
  intros level indent indent'. destruct c as [|x c].
  - cbn [pretty_format].
    destruct (negb (level =? 0)%nat && blank tl) eqn:Hc.
    + cbn [pretty_format]. apply andb_prop in Hc as [-> _].
      by rewrite (proj1 (blank_indent level)).
    + cbn [pretty_format]. by rewrite Hc.
  - rewrite (pretty_format_node _ _ _ _ (x :: c)) by done.
    rewrite pretty_format_node.
    2:{ intros Hnil. apply (f_equal length) in Hnil.
        rewrite dedent_last_length, length_map in Hnil. done. }
    f_equal.
    + destruct (blank tx) eqn:Hb; [|by rewrite Hb].
      by rewrite (proj2 (blank_indent level)).
    + destruct (blank tl) eqn:Hb; [|by rewrite Hb].
      by rewrite (proj1 (blank_indent level)).
    + apply dedent_last_again. apply Forall_forall. intros y Hy.
      change (map ?f ?l) with (f <$> l) in Hy.
      apply list_elem_of_fmap in Hy as (z & -> & Hz).
      rewrite Forall_forall in IH. by apply IH.
Qed.
End PrettyFormatFacts.

Section PrettyFormatRead.
Context {float_t geom header : Type}.
Context `{Builtins float_t} `{Wkt geom} `{FitsHeader float_t header}.
Import PyStr PyStrMore PolylistxmlFormat Polylistxml.

Lemma pretty_format_attrib (e : element) (level : nat) (indent : string) :
  attrib (pretty_format e level indent) = attrib e.
Proof.
  destruct e as [tg at_ tx tl [|x c]]; cbn [pretty_format]; [|reflexivity].
  by destruct (negb (level =? 0)%nat && blank tl).
Qed.

Lemma get_XML_attrs_attrib (e e' : element) :
  attrib e = attrib e' -> get_XML_attrs e = get_XML_attrs e'.
Proof. unfold get_XML_attrs. by intros ->. Qed.

Lemma fromxml_poly_reads (e e' : element) :
  attrib e = attrib e' -> text e = text e' ->
  fromxml_poly e = fromxml_poly e'.
Proof.
  intros Ha Ht. unfold fromxml_poly.
  by rewrite (get_XML_attrs_attrib e e' Ha), Ht.
Qed.

Lemma mapM_map_eq {A B} (f : A -> result B) (l l' : list A) :
  map f l = map f l' -> mapM f l = mapM f l'.
Proof.
  revert l'. induction l as [|x l IH]; intros [|x' l']; try done.
  cbn [map]. intros [= Hx Hl]. cbn [mapM]. by rewrite Hx, (IH l' Hl).
Qed.

Lemma fromxml_item_reads (e e' : element) :
  attrib e = attrib e' ->
  map fromxml_poly (children e) = map fromxml_poly (children e') ->
  fromxml_item e = fromxml_item e'.
Proof.
  intros Ha Hc. unfold fromxml_item.
  rewrite (get_XML_attrs_attrib e e' Ha), !collect_mapM.
  rewrite (mapM_map_eq _ _ _ Hc).
  apply (f_equal length) in Hc. rewrite !length_map in Hc. by rewrite Hc.
Qed.

Lemma fromxml_reads (e e' : element) :
  attrib e = attrib e' ->
  map (fun c => (attrib c, fromxml_item c)) (children e)
  = map (fun c => (attrib c, fromxml_item c)) (children e') ->
  fromxml e = fromxml e'.
Proof.
  intros Ha Hc. unfold fromxml.
  rewrite (get_XML_attrs_attrib e e' Ha).
  assert (Hlen : length (children e) = length (children e')).
  { apply (f_equal length) in Hc. by rewrite !length_map in Hc. }
  assert (Hitems : map fromxml_item (drop 1 (children e))
                   = map fromxml_item (drop 1 (children e'))).
  { apply (f_equal (map snd)) in Hc. rewrite !map_map in Hc. cbn [snd] in Hc.
    change (map fromxml_item (children e) = map fromxml_item (children e'))
      in Hc.
    change (map ?f ?l) with (f <$> l). rewrite !fmap_drop.
    change (?f <$> ?l) with (map f l). by rewrite Hc. }
  rewrite !collect_mapM, (mapM_map_eq _ _ _ Hitems), Hlen.
  destruct (children e) as [|h c], (children e') as [|h' c']; try done.
  cbn [subscript lookup list_lookup mbind result_bind].
  injection Hc as Hh _ _.
  by rewrite (get_XML_attrs_attrib h h' Hh).
Qed.

Lemma pretty_format_leaf_text tg at_ tx tl (level : nat) (indent : string) :
  text (pretty_format (Element tg at_ tx tl []) level indent) = tx.
Proof.
  cbn [pretty_format]. by destruct (negb (level =? 0)%nat && blank tl).
Qed.

Lemma dedent_last_reads {B} (u : element -> B) (i : string) (c : list element) :
  (forall t e, u (set_tail t e) = u e) ->
  map u (dedent_last i c) = map u c.
Proof.
  intros Hu. unfold dedent_last. apply map_alter_absorb. intros e.
  by destruct (blank (tail e)).
Qed.

Lemma fromxml_item_set_tail (t : option string) (e : element) :
  fromxml_item (set_tail t e) = fromxml_item e.
Proof. by destruct e. Qed.

Lemma fromxml_poly_set_tail (t : option string) (e : element) :
  fromxml_poly (set_tail t e) = fromxml_poly e.
Proof. by destruct e. Qed.

Lemma fromxml_item_formatted (it : Item float_t geom) (level : nat)
    (indent : string) :
  fromxml_item (pretty_format (toxml_item it) level indent)
  = fromxml_item (toxml_item it).
Proof.
  apply fromxml_item_reads; [apply pretty_format_attrib|].
  unfold toxml_item. destruct (item_geos it) as [|ge geos] eqn:Hg.
  - cbn [map pretty_format].
    by destruct (negb (level =? 0)%nat && blank None).
  - rewrite pretty_format_node by done. cbn [children].
    rewrite (dedent_last_reads _ _ _ fromxml_poly_set_tail), map_map.
    apply map_ext_Forall, Forall_forall. intros e He.
    change (map ?f ?l) with (f <$> l) in He.
    apply list_elem_of_fmap in He as (z & -> & _).
    apply fromxml_poly_reads; [apply pretty_format_attrib|].
    apply pretty_format_leaf_text.
Qed.

(** X8. What [write] formats, [fromxml] reads as before: [fromxml] on the
    tree of [toxml] after [pretty_format] returns what it returns on the
    tree of [toxml], for every [Geoset] and every [indent]. *)
Theorem fromxml_pretty_format (g : Geoset float_t geom header)
    (indent : string) :
  fromxml (pretty_format (toxml g) 0 indent) = fromxml (toxml g).
Proof.
  apply fromxml_reads; [apply pretty_format_attrib|].
  unfold toxml. rewrite pretty_format_node by done. cbn [children].
  rewrite (dedent_last_reads (fun c => (attrib c, fromxml_item c))).
  2:{ intros t e. rewrite fromxml_item_set_tail. by destruct e. }
  rewrite map_map. cbn [map]. f_equal.
  rewrite !map_map. apply map_ext. intros it.
  by rewrite pretty_format_attrib, fromxml_item_formatted.
Qed.
End PrettyFormatRead.

(** ** polylistxml: attributes written and read back *)

Section LegacyAttrs.
Context {float_t geom header : Type}.
Context `{Builtins float_t} `{Wkt geom} `{FitsHeader float_t header}.
Import PyStr Polylistxml.

Lemma attrib_set_fresh (k v : string) (d : list (string * string)) :
  k ∉ map fst d -> attrib_set k v d = d ++ [(k, v)].
Proof.
  induction d as [|[k' v'] d IH]; cbn [attrib_set map fst]; intros Hk;
    [reflexivity|].
  destruct (String.eqb_spec k' k) as [->|Hne].
  - exfalso. apply Hk. by constructor.
  - cbn [app]. rewrite IH; [reflexivity|]. intros Hin. apply Hk.
    by constructor.
Qed.

(** The native attributes that [add_XML_attrs] leaves on an element that
    had none: one for each key that is not empty, in the order of the
    map. *)
Lemma add_XML_attrs_from (acc : list (string * string))
    (d : list (string * scalar float_t)) :
  NoDup (map fst acc ++ map fst d) ->
  add_XML_attrs d acc
  = acc ++ map (fun kv => (fst kv, render (snd kv)))
             (filter (fun kv => fst kv <> "") d).
Proof.
  revert acc. unfold add_XML_attrs.
  induction d as [|[k v] d IH]; intros acc Hnd; cbn [fold_left].
  - by rewrite app_nil_r.
  - cbn [map fst snd] in *. rewrite filter_cons. cbn [fst].
    apply NoDup_app in Hnd as (Hacc & Hdisj & Hd).
    apply NoDup_cons in Hd as [Hk Hd].
    destruct (String.eqb_spec k "") as [->|Hne].
    + rewrite decide_False by (intros Hn; by apply Hn).
      apply IH. apply NoDup_app. split; [exact Hacc|]. split; [|exact Hd].
      intros x Hx Hx'. apply (Hdisj x Hx). by constructor.
    + rewrite decide_True by exact Hne.
      rewrite attrib_set_fresh.
      2:{ intros Hin. apply (Hdisj k Hin). by constructor. }
      rewrite IH.
      * by rewrite <- app_assoc.
      * rewrite map_app. cbn [map fst]. rewrite <- app_assoc. cbn [app].
        apply NoDup_app. split; [exact Hacc|]. split.
        -- intros x Hx Hx'. apply (Hdisj x Hx). exact Hx'.
        -- by constructor.
Qed.

Lemma filter_keys_NoDup {A B} (h : A -> B) (P : string * A -> Prop)
    `{forall x, Decision (P x)} (d : list (string * A)) :
  NoDup (map fst d) ->
  NoDup (map fst (map (fun kv => (fst kv, h (snd kv))) (filter P d))).
Proof.
  rewrite map_map. cbn [fst]. induction d as [|[k v] d IH]; [done|].
  cbn [map fst]. intros [Hk Hd]%NoDup_cons. rewrite filter_cons.
  destruct (decide (P (k, v))); [|by apply IH].
  cbn [map fst]. apply NoDup_cons. split; [|by apply IH].
  intros Hin. apply Hk. apply list_elem_of_fmap in Hin as ([k' v'] & -> & Hin).
  apply list_elem_of_filter in Hin as [_ Hin].
  apply list_elem_of_fmap. by exists (k', v').
Qed.

Lemma od_get_read_back (f : scalar float_t -> scalar float_t) (k : string)
    (d : list (string * scalar float_t)) :
  k <> "" ->
  od_get k (map (fun kv => (fst kv, f (snd kv)))
              (filter (fun kv => fst kv <> "") d))
  = f <$> od_get k d.
Proof.
  intros Hk. induction d as [|[k' v'] d IH]; [reflexivity|].
  rewrite filter_cons. cbn [fst od_get].
  destruct (decide (k' <> "")) as [Hk'|Hk'].
  - cbn [map od_get fst snd]. by destruct (String.eqb k' k).
  - destruct (String.eqb_spec k' k) as [->|_]; [|exact IH].
    exfalso. by apply Hk'.
Qed.

(** The map that [get_XML_attrs] makes of the attributes kept: they are
    in the order written, none twice. *)
Lemma wrap_attrs_kept (d : list (string * scalar float_t)) :
  NoDup (map fst d) ->
  wrap_attrs (map (fun kv => (fst kv, infer_spec (render (snd kv))))
                (filter (fun kv => fst kv <> "") d))
  = match filter (fun kv => fst kv <> "") d with
    | [] => None
    | kept => Some (map (fun kv => (fst kv, infer_spec (render (snd kv))))
                      kept)
    end.
Proof.
  intros Hnd.
  pose proof (filter_keys_NoDup (fun v => infer_spec (render v))
                (fun kv => fst kv <> "") d Hnd) as Hnd'.
  destruct (filter (fun kv => fst kv <> "") d) as [|kv kept] eqn:Hf;
    [reflexivity|].
  unfold wrap_attrs. cbn [map]. f_equal.
  by apply OrderedDict_id.
Qed.

Lemma od_get_kept_empty (f : scalar float_t -> scalar float_t)
    (d : list (string * scalar float_t)) :
  od_get "" (map (fun kv => (fst kv, f (snd kv)))
               (filter (fun kv => fst kv <> "") d)) = None.
Proof.
  induction d as [|[k' v'] d IH]; [reflexivity|].
  rewrite filter_cons. cbn [fst].
  destruct (decide (k' <> "")) as [Hk'|Hk']; [|exact IH].
  cbn [map od_get fst snd].
  destruct (String.eqb_spec k' "") as [->|_]; [done|exact IH].
Qed.

Lemma kept_nil (d : list (string * scalar float_t)) :
  filter (fun kv => fst kv <> "") d = [] <->
  Forall (fun kv => fst kv = "") d.
Proof.
  induction d as [|[k' v'] d IH]; [by split; [constructor|]|].
  rewrite filter_cons. cbn [fst].
  destruct (decide (k' <> "")) as [Hk'|Hk'].
  - split; [discriminate|]. intros [Hk _]%Forall_cons. by destruct Hk'.
  - rewrite IH, Forall_cons. cbn [fst].
    destruct (decide (k' = "")) as [->|Hne]; [tauto|].
    by destruct Hk'.
Qed.

(** X9. The attributes that [toxml] writes on an element, read back by
    [get_XML_attrs], as a map from keys to values, whatever the order in
    which the attributes of the element come: the value of a key that is
    not the empty text is the type inferred anew from the text that was
    written for it, a key that the map written does not have is not read
    back, and the empty key is never read back, for it is never written;
    the result is [None] exactly when the map written has no key other
    than the empty one. *)
Theorem legacy_attrs_read_back (d : list (string * scalar float_t))
    (tg : string) (tx tl : option string) (c : list element) :
  NoDup (map fst d) ->
  exists a : option (odict float_t),
    get_XML_attrs (Element tg (add_XML_attrs d []) tx tl c) = Ok a /\
    (a = None <-> Forall (fun kv => fst kv = "") d) /\
    forall k : string,
      (a ≫= od_get k)
      = if decide (k = "") then None
        else (fun v => infer_spec (render v)) <$> od_get k d.
Proof.
  intros Hnd. rewrite get_XML_attrs_spec. cbn [attrib].
  rewrite (add_XML_attrs_from [] d) by exact Hnd. cbn [app].
  rewrite map_map. cbn [fst snd]. rewrite (wrap_attrs_kept d Hnd).
  eexists. split; [reflexivity|].
  pose proof (kept_nil d) as Hnil.
  pose proof (od_get_kept_empty (fun v => infer_spec (render v)) d) as He.
  pose proof (fun k Hk => od_get_read_back (fun v => infer_spec (render v))
                            k d Hk) as Hget.
  destruct (filter (fun kv => fst kv <> "") d) as [|kv kept].
  - split; [by split; [intros _; apply Hnil|]|].
    intros k. cbn [mbind option_bind].
    destruct (decide (k = "")) as [->|Hk]; [reflexivity|].
    by rewrite <- (Hget k Hk).
  - split.
    + split; [discriminate|]. intros Hall. by apply Hnil in Hall.
    + intros k. cbn [mbind option_bind].
      destruct (decide (k = "")) as [->|Hk]; [exact He|].
      exact (Hget k Hk).
Qed.

(** X10. A [Geo] written by [toxml] and read by [fromxml]: the value of
    every key that is not empty comes back as the type inferred from its
    text. An integer comes back as it was when [int] reads what ['%d']
    prints; a string that [int] reads comes back as the integer, not as
    the string. *)
Theorem legacy_attr_types (d : list (string * scalar float_t)) (k : string)
    (v : scalar float_t) :
  NoDup (map fst d) -> k <> "" -> od_get k d = Some v ->
  exists (ge : Geo float_t geom) (a : odict float_t),
    fromxml_poly (toxml_poly (mkGeo None (Some d))) = Ok ge /\
    geo_geo ge = None /\ geo_attrs ge = Some a /\
    od_get k a = Some (infer_spec (render v)) /\
    (forall n, v = SInt n -> int_literal (format_d n) = Some n ->
               od_get k a = Some (SInt n)) /\
    (forall s n, v = SStr s -> int_literal s = Some n ->
                 od_get k a = Some (SInt n)).
Proof.
  intros Hnd Hk Hv. unfold fromxml_poly, toxml_poly.
  cbn [geo_attrs geo_geo text]. rewrite get_XML_attrs_spec. cbn [attrib].
  rewrite (add_XML_attrs_from [] d) by exact Hnd. cbn [app].
  rewrite map_map. cbn [fst snd]. rewrite (wrap_attrs_kept d Hnd).
  cbn [mbind result_bind mret result_ret].
  pose proof (od_get_read_back (fun v => infer_spec (render v)) k d Hk) as Hget.
  rewrite Hv in Hget. cbn [fmap option_fmap option_map] in Hget.
  destruct (filter (fun kv => fst kv <> "") d) as [|kv kept] eqn:Hf;
    [discriminate|].
  eexists _, _. split; [reflexivity|]. cbn [geo_geo geo_attrs].
  split; [reflexivity|]. split; [reflexivity|]. split; [exact Hget|].
  split.
  - intros n -> Hn. rewrite Hget. cbn [render]. unfold infer_spec.
    by rewrite Hn.
  - intros s n -> Hs. rewrite Hget. cbn [render format_s]. unfold infer_spec.
    by rewrite Hs.
Qed.
End LegacyAttrs.

(** An attribute with the empty key, an integer and a string of digits. *)
Lemma legacy_attrs_read_back_witness :
  exists m : odict Reference.rfloat,
    Polylistxml.get_XML_attrs (float_t := Reference.rfloat)
      (Element "POLY"
         (Polylistxml.add_XML_attrs
            [("", SInt 1); ("n", SInt 7); ("name", SStr "12")] [])
         None None [])
    = Ok (Some m) /\
    od_get "" m = None /\ od_get "n" m = Some (SInt 7) /\
    od_get "name" m = Some (SInt 12) /\ od_get "other" m = None.
Proof.
  destruct (legacy_attrs_read_back
              [("", SInt 1); ("n", SInt 7); ("name", SStr "12")]
              "POLY" None None [])
    as (a & Hrun & Hnone & Hget).
  - apply (bool_decide_unpack _). vm_compute. reflexivity.
  - destruct a as [m|].
    + exists m. split; [exact Hrun|].
      split; [exact (Hget "")|]. split; [exact (Hget "n")|].
      split; [exact (Hget "name")|exact (Hget "other")].
    + exfalso. apply proj1 in Hnone. specialize (Hnone eq_refl).
      apply Forall_cons in Hnone as [_ Hnone].
      apply Forall_cons in Hnone as [Hn _]. discriminate.
Defined.

Lemma legacy_attr_types_witness :
  exists (ge : Geo Reference.rfloat Reference.rgeom)
         (a : odict Reference.rfloat),
    Polylistxml.fromxml_poly
      (Polylistxml.toxml_poly
         (mkGeo None (Some [("n", SInt 7); ("name", SStr "12")]))) = Ok ge /\
    geo_attrs ge = Some a /\ od_get "name" a = Some (SInt 12).
Proof.
  destruct (legacy_attr_types (geom := Reference.rgeom)
              [("n", SInt 7); ("name", SStr "12")] "name" (SStr "12"))
    as (ge & a & Hge & _ & Ha & _ & _ & Hstr).
  - apply (bool_decide_unpack _). vm_compute. reflexivity.
  - discriminate.
  - reflexivity.
  - exists ge, a. split; [exact Hge|]. split; [exact Ha|].
    exact (Hstr "12" 12 eq_refl eq_refl).
Defined.

(** ** ds9regfile: what [write] needs and what it leaves out *)

Section Ds9WriteFacts.
Context {float_t geom header : Type}.
Context `{Builtins float_t} `{Shapely float_t geom}.
Import PyStr GeosetModel Ds9regfile.

Abbreviation store := (@GeosetModel.store float_t geom header).

Lemma foldM_Ok_each {A B} (f : B -> A -> result B) (l : list A) (b r : B) :
  foldM f b l = Ok r -> forall x, x ∈ l -> exists b1 b2, f b1 x = Ok b2.
Proof.
  revert b. induction l as [|y l IH]; intros b Hr x Hx; [by inversion Hx|].
  cbn [foldM] in Hr. destruct (f b y) as [b'|e] eqn:Hy; [|discriminate].
  cbn [mbind result_bind] in Hr.
  apply elem_of_cons in Hx as [->|Hx]; [by exists b, b'|].
  by apply (IH b').
Qed.

Lemma elem_of_enumerate {A} (l : list A) (x : A) :
  x ∈ l -> exists i, (i, x) ∈ enumerate l.
Proof.
  intros Hx. apply list_elem_of_lookup_1 in Hx as [i Hi].
  exists i. apply (list_elem_of_lookup_2 _ i). unfold enumerate.
  apply lookup_zip_with_Some. exists i, x. split; [reflexivity|].
  split; [|exact Hi]. apply lookup_seq. split; [reflexivity|].
  by eapply lookup_lt_Some.
Qed.

Lemma foldM_extends {A B} (f : list B -> A -> result (list B)) (l : list A)
    (b r : list B) :
  (forall b x b', f b x = Ok b' -> exists t, b' = b ++ t) ->
  foldM f b l = Ok r -> exists t, r = b ++ t.
Proof.
  intros Hf. revert b. induction l as [|x l IH]; intros b; cbn [foldM].
  - intros [= <-]. exists []. by rewrite app_nil_r.
  - destruct (f b x) as [b'|e] eqn:Hx; [|discriminate].
    cbn [mbind result_bind]. intros Hr.
    destruct (Hf _ _ _ Hx) as [t ->]. destruct (IH _ Hr) as [t' ->].
    exists (t ++ t'). by rewrite app_assoc.
Qed.

Lemma fold_left_extends {A B} (h : A -> B) (l : list A) (b : list B) :
  fold_left (fun lines x => lines ++ [h x]) l b = b ++ map h l.
Proof.
  revert b. induction l as [|x l IH]; intros b; cbn [fold_left map].
  - by rewrite app_nil_r.
  - rewrite IH. by rewrite <- app_assoc.
Qed.

(** X11. [write] needs a geometry in every [Geo]: when it returns, no
    [Geo] of the tree is without one (a [Geo] without geometry, which
    the two XML backends write, makes [write] raise), and the first line
    written is the coordinate system, [physical] when none is given. *)
Theorem write_needs_geometry (g : Geoset float_t geom header)
    (coordsys : option string) (fmt : string) (lines : list string) :
  write_lines g coordsys fmt = Ok lines ->
  Forall (fun it => Forall (fun ge => geo_geo ge <> None) (item_geos it))
    (gs_items g) /\
  exists rest,
    lines = (match coordsys with Some c => c | None => "physical" end +:+ nl)
            :: rest.
Proof.
  unfold write_lines. intros Hw. split.
  2:{ apply foldM_extends in Hw as [t ->]; [by exists t|].
      intros b [i it] b' Hb. cbn [fst snd] in Hb.
      apply foldM_extends in Hb; [exact Hb|].
      intros c [j ge] c' Hc. cbn [fst snd] in Hc.
      destruct (geo_geo ge) as [p|]; [|discriminate].
      cbn [mbind result_bind] in Hc.
      destruct (if String.eqb (geom_type p) "Polygon" then Ok [p]
                else geom_iter p) as [polys|e]; [|discriminate].
      cbn [mbind result_bind] in Hc.
      apply foldM_extends in Hc; [exact Hc|].
      intros d [k sub] d' Hd. cbn [fst snd] in Hd.
      destruct (exterior_coords sub) as [ext|e]; [|discriminate].
      cbn [mbind result_bind] in Hd.
      destruct (interiors_coords sub) as [holes|e]; [|discriminate].
      cbn [mbind result_bind] in Hd. injection Hd as <-.
      rewrite fold_left_extends, <- app_assoc. by eexists. }
  apply Forall_forall. intros it Hit.
  apply Forall_forall. intros ge Hge.
  destruct (elem_of_enumerate _ _ Hit) as [i Hi].
  destruct (foldM_Ok_each _ _ _ _ Hw _ Hi) as (b1 & b2 & Hitem).
  cbn [fst snd] in Hitem.
  destruct (elem_of_enumerate _ _ Hge) as [j Hj].
  destruct (foldM_Ok_each _ _ _ _ Hitem _ Hj) as (c1 & c2 & Hgeo).
  cbn [fst snd] in Hgeo. intros Hnone. rewrite Hnone in Hgeo. discriminate.
Qed.

Lemma foldM_skip {A B} (f : B -> A -> result B) (l : list A) (b : B) :
  Forall (fun x => forall b, f b x = Ok b) l -> foldM f b l = Ok b.
Proof.
  induction 1 as [|x l Hx _ IH]; [reflexivity|].
  cbn [foldM]. rewrite Hx. exact IH.
Qed.

(** X12. Items without geos leave no line: a tree whose items are all
    empty is written as the coordinate system line alone, and that text
    is read as a [Geoset] without items, without header, whose attributes
    hold the coordinate system only. The items, their attributes, the
    attributes of the tree and its header are not in the file. *)
Theorem write_drops_empty_items (g : Geoset float_t geom header) (s0 : store) :
  Forall (fun it => item_geos it = []) (gs_items g) ->
  write g None = Ok ("physical" +:+ nl) /\
  exists s',
    read ("physical" +:+ nl) s0 = Ok (VGeoset (length (st_geosets s0)), s') /\
    reify_geoset s' (VGeoset (length (st_geosets s0)))
    = Some (mkGeoset [] (Some [("coordsys", SStr "physical")]) None).
Proof.
  intros Hempty. split.
  - unfold write, write_lines. rewrite foldM_skip; [reflexivity|].
    apply Forall_forall. intros [i it] Hin b. cbn [fst snd].
    assert (Hit : item_geos it = []).
    { rewrite Forall_forall in Hempty. apply Hempty.
      unfold enumerate in Hin. apply list_elem_of_lookup_1 in Hin as [k Hk].
      apply lookup_zip_with_Some in Hk as (x & y & [= -> ->] & _ & Hy).
      by eapply list_elem_of_lookup_2. }
    by rewrite Hit.
  - exists (layout s0 [] (Some [("coordsys", SStr "physical")])).
    split; [|apply (reify_layout s0 [])].
    unfold read.
    change ("physical" +:+ nl)
      with (String.concat "" (map (fun b => b +:+ nl) ["physical"])) at 1.
    rewrite readlines_lines by (by repeat constructor).
    unfold read_lines. cbn [map read_loop].
    erewrite bind_ok; [|apply Geoset_init_layout].
    erewrite bind_ok; [reflexivity|].
    erewrite bind_ok; [|apply coordsys_line]. reflexivity.
Qed.
End Ds9WriteFacts.

Lemma write_needs_geometry_witness :
  Forall (fun it => Forall (fun ge => geo_geo ge <> None) (item_geos it))
    (gs_items Reference.two_groups) /\
  exists rest, ("physical" +:+ PyStr.nl) :: Reference.region_lines
               = ("physical" +:+ PyStr.nl) :: rest.
Proof.
  apply (write_needs_geometry Reference.two_groups None ".15f").
  vm_compute. reflexivity.
Defined.

Lemma write_drops_empty_items_witness :
  Ds9regfile.write (float_t := Reference.rfloat) (geom := Reference.rgeom)
    (header := Reference.rheader)
    (mkGeoset [mkItem [] (Some [("n", SInt 7)]); mkItem [] None]
       (Some [("epoch", SInt 2000)]) (Some [("CRVAL1", SInt 3)]))
    None
  = Ok ("physical" +:+ PyStr.nl) /\
  exists s',
    Ds9regfile.read (float_t := Reference.rfloat) (geom := Reference.rgeom)
      (header := Reference.rheader)
      ("physical" +:+ PyStr.nl) GeosetModel.empty_store
    = Ok (GeosetModel.VGeoset 0, s') /\
    GeosetModel.reify_geoset s' (GeosetModel.VGeoset 0)
    = Some (mkGeoset [] (Some [("coordsys", SStr "physical")]) None).
Proof.
  apply (write_drops_empty_items (float_t := Reference.rfloat)
           (geom := Reference.rgeom) (header := Reference.rheader)
           (mkGeoset [mkItem [] (Some [("n", SInt 7)]); mkItem [] None]
              (Some [("epoch", SInt 2000)]) (Some [("CRVAL1", SInt 3)]))
           GeosetModel.empty_store).
  repeat constructor.
Defined.

(** ** _geoset: the methods of [Item] and [Geoset] *)

Section MethodFacts.
Context {float_t geom header wcs_t : Type}.
Context `{Builtins float_t} `{Shapely float_t geom}.
Context `{FitsHeader float_t header} `{AstropyWcs float_t header wcs_t}.
Import GeosetModel GeosetMethods.

Abbreviation store := (@GeosetModel.store float_t geom header).

(** *** The methods of [Geo] *)

Lemma Geo_method_does (conv : geom -> result (list geom)) (s : store) (a : nat)
    (g : Geo float_t geom) :
  st_geos s !! a = Some g ->
  bind (get_geo (VGeo a)) (fun o =>
  bind (match geo_geo o with
        | None => ret None
        | Some p =>
            bind (lift (conv p))
                 (fun l => bind (lift (subscript l 0)) (fun q => ret (Some q)))
        end) (fun geo =>
  Geo_init geo (copy_attrs (geo_attrs o)))) s
  = match geo_step (fun p => l ← conv p; subscript l 0) g with
    | Ok g' => Ok (VGeo (length (st_geos s)), with_geo s g')
    | Raise e => Raise e
    end.
Proof.
  intros Hg. unfold bind at 1. unfold get_geo. rewrite Hg.
  unfold geo_step. destruct (geo_geo g) as [p|]; [|reflexivity].
  unfold bind, lift. destruct (conv p) as [l|e]; [|reflexivity].
  cbn [mbind result_bind]. destruct (subscript l 0) as [q|e]; reflexivity.
Qed.

Lemma Geo_translate_does (dx dy : float_t) :
  geo_method_does (header := header) (fun geo => Geo_translate geo dx dy)
    (translate_geometry dx dy).
Proof. intros s a g Hg. by apply (Geo_method_does _ s a g). Qed.

Lemma Geo_pix2world_does (hdr : option header) :
  geo_method_does (header := header) (fun geo => Geo_pix2world geo hdr) (pix2world_geometry hdr).
Proof. intros s a g Hg. by apply (Geo_method_does _ s a g). Qed.

Lemma Geo_world2pix_does (hdr : option header) :
  geo_method_does (header := header) (fun geo => Geo_world2pix geo hdr) (world2pix_geometry hdr).
Proof. intros s a g Hg. by apply (Geo_method_does _ s a g). Qed.

Lemma Geo_copy_does :
  geo_method_does (header := header) Geo_copy copy_geometry.
Proof.
  intros s a g Hg. unfold Geo_copy, bind at 1, get_geo. rewrite Hg.
  unfold geo_step, copy_geometry. destruct (geo_geo g) as [p|]; [|reflexivity].
  unfold bind, lift. destruct (geom_union p empty_Point) as [q|e]; reflexivity.
Qed.

(** *** The methods of [Item] *)

Lemma reify_geo_Some (s : store) (v : value) (g : Geo float_t geom) :
  reify_geo s v = Some g -> exists a, v = VGeo a /\ st_geos s !! a = Some g.
Proof. destruct v; try discriminate. intros Hg. by eexists. Qed.

Lemma append_last (ls : list (list value)) (l : list value) (y : value)
    (gs : list (Geo float_t geom)) (os : list (@item_obj float_t))
    (ss : list (@geoset_obj float_t header)) :
  append (VList (length ls)) y (mkStore (ls ++ [l]) gs os ss)
  = Ok (tt, mkStore (ls ++ [l ++ [y]]) gs os ss).
Proof.
  unfold append. cbn [st_lists st_geos st_items st_geosets].
  rewrite list_lookup_middle by reflexivity.
  by rewrite insert_app_r_alt, Nat.sub_diag by reflexivity.
Qed.

(** The loop of the comprehension over the elements of [self.geos]: the
    new list is the last of the store, the [Geo]s made so far are
    [done]. *)
Lemma comprehension_geos (geo_method : value -> M value)
    (f : geom -> result geom) (s : store) :
  geo_method_does geo_method f ->
  forall (vs : list value) (geos done : list (Geo float_t geom)),
    mapM (reify_geo s) vs = Some geos ->
    for_each vs
      (fun x => bind (geo_method x)
                  (fun y => append (VList (length (st_lists s))) y))
      (mkStore
         (st_lists s ++ [map VGeo (seq (length (st_geos s)) (length done))])
         (st_geos s ++ done) (st_items s) (st_geosets s))
    = match mapM (geo_step f) geos with
      | Ok new =>
          Ok (tt,
              mkStore
                (st_lists s
                 ++ [map VGeo (seq (length (st_geos s))
                                (length done + length new))])
                (st_geos s ++ done ++ new) (st_items s) (st_geosets s))
      | Raise e => Raise e
      end.
Proof.
  intros Hgm. induction vs as [|v vs IH]; intros geos done Hre.
  - injection Hre as <-. cbn. unfold ret.
    by rewrite Nat.add_0_r, app_nil_r.
  - cbn [mapM] in Hre.
    destruct (reify_geo s v) as [g|] eqn:Hv; [|discriminate].
    destruct (mapM (reify_geo s) vs) as [geos'|] eqn:Hvs; [|discriminate].
    injection Hre as <-.
    apply reify_geo_Some in Hv as (a & -> & Ha).
    cbn [for_each mapM]. unfold bind at 1. unfold bind at 1.
    rewrite (Hgm _ a g) by (cbn [st_geos]; by apply lookup_app_l_Some).
    destruct (geo_step f g) as [g'|e]; [|reflexivity].
    cbn [mbind result_bind]. unfold with_geo.
    cbn [st_lists st_geos st_items st_geosets].
    rewrite append_last, length_app.
    replace (map VGeo (seq (length (st_geos s)) (length done))
             ++ [VGeo (length (st_geos s) + length done)])
      with (map VGeo (seq (length (st_geos s)) (S (length done))))
      by (by rewrite seq_snoc, map_app).
    rewrite <- app_assoc.
    specialize (IH geos' (done ++ [g']) eq_refl).
    rewrite length_app in IH. cbn [length] in IH.
    rewrite Nat.add_1_r in IH. rewrite IH.
    destruct (mapM (geo_step f) geos') as [new|e]; [|reflexivity].
    cbn [mbind result_bind length].
    rewrite <- app_assoc. cbn [app].
    by replace (S (length done) + length new)%nat
      with (length done + S (length new))%nat by lia.
Qed.

Lemma iterate_app (s : store) (v : value) (vs : list value)
    (ls : list (list value)) (gs : list (Geo float_t geom))
    (os : list (@item_obj float_t)) (ss : list (@geoset_obj float_t header)) :
  seq_values s v = Some vs ->
  iterate v (mkStore (st_lists s ++ ls) gs os ss)
  = Ok (vs, mkStore (st_lists s ++ ls) gs os ss).
Proof.
  destruct v as [|a|ws|a|a|a]; cbn [seq_values iterate]; try discriminate.
  - intros Ha. cbn [st_lists]. by rewrite (lookup_app_l_Some _ _ _ _ Ha).
  - by intros [= ->].
Qed.

Lemma reify_item_Some (s : store) (v : value) (it : Item float_t geom) :
  reify_item s v = Some it ->
  exists b o vs,
    v = VItem b /\ st_items s !! b = Some o /\
    seq_values s (io_geos o) = Some vs /\
    mapM (reify_geo s) vs = Some (item_geos it) /\
    io_attrs o = item_attrs it.
Proof.
  destruct v as [|a|ws|a|b|a]; cbn [reify_item]; try discriminate.
  destruct (st_items s !! b) as [o|] eqn:Ho; [|discriminate].
  cbn [mbind option_bind].
  destruct (seq_values s (io_geos o)) as [vs|] eqn:Hvs; [|discriminate].
  cbn [mbind option_bind].
  destruct (mapM (reify_geo s) vs) as [geos|] eqn:Hgeos; [|discriminate].
  cbn [mbind option_bind]. intros [= <-]. by exists b, o, vs.
Qed.

Lemma comprehension_geos_all (geo_method : value -> M value)
    (f : geom -> result geom) (s : store) (vs : list value)
    (geos : list (Geo float_t geom)) :
  geo_method_does geo_method f ->
  mapM (reify_geo s) vs = Some geos ->
  for_each vs
    (fun x => bind (geo_method x)
                (fun y => append (VList (length (st_lists s))) y))
    (mkStore (st_lists s ++ [[]]) (st_geos s) (st_items s) (st_geosets s))
  = match mapM (geo_step f) geos with
    | Ok new =>
        Ok (tt,
            mkStore
              (st_lists s
               ++ [map VGeo (seq (length (st_geos s)) (length new))])
              (st_geos s ++ new) (st_items s) (st_geosets s))
    | Raise e => Raise e
    end.
Proof.
  intros Hgm Hgeos.
  pose proof (comprehension_geos geo_method f s Hgm vs geos [] Hgeos) as Hloop.
  cbn [length seq map app] in Hloop. rewrite app_nil_r in Hloop.
  exact Hloop.
Qed.

(** A method of [Item] on an [Item] that holds the tree [it]: the new
    [Item] holds the tree of [item_step], in the store [with_item]. *)
Lemma Item_rebuild_does (geo_method : value -> M value)
    (f : geom -> result geom) (s : store) (v : value)
    (it : Item float_t geom) :
  geo_method_does geo_method f ->
  reify_item s v = Some it ->
  Item_rebuild geo_method v s
  = match item_step f it with
    | Ok it' => Ok (VItem (length (st_items s)), with_item s it')
    | Raise e => Raise e
    end.
Proof.
  intros Hgm Hit.
  apply reify_item_Some in Hit as (b & o & vs & -> & Ho & Hvs & Hgeos & Hattrs).
  unfold Item_rebuild. rewrite (bind_ok _ _ s o s) by (cbn; by rewrite Ho).
  unfold comprehension, bind at 1, bind at 1. unfold alloc_list at 1.
  unfold bind at 1. rewrite (iterate_app s _ vs) by exact Hvs.
  unfold bind at 1.
  rewrite (comprehension_geos_all geo_method f s vs _ Hgm Hgeos).
  unfold item_step.
  destruct (mapM (geo_step f) (item_geos it)) as [new|e]; [|reflexivity].
  cbn [mbind result_bind]. unfold ret at 1.
  unfold bind at 1. unfold get_item. cbn [st_items]. rewrite Ho.
  unfold Item_init, bind, truthy, with_item.
  cbn [st_lists st_geos st_items st_geosets item_geos item_attrs].
  rewrite list_lookup_middle by reflexivity.
  rewrite Hattrs.
  destruct new as [|g' new].
  - cbn [length seq map is_nil negb Nat.eqb]. unfold alloc_list, alloc_item.
    cbn [st_lists st_geos st_items st_geosets].
    rewrite length_app, <- app_assoc. reflexivity.
  - cbn [length seq map is_nil negb Nat.eqb has_iter]. unfold ret, alloc_item.
    cbn [st_lists st_geos st_items st_geosets]. reflexivity.
Qed.

(** *** Stores that grow *)

Lemma extends_refl (s : store) : extends s s.
Proof. by repeat split. Qed.

Lemma extends_trans (s1 s2 s3 : store) :
  extends s1 s2 -> extends s2 s3 -> extends s1 s3.
Proof.
  intros (Ha & Hb & Hc & Hd) (Ha' & Hb' & Hc' & Hd').
  repeat split; by etrans.
Qed.

Lemma seq_values_extends (s s' : store) (v : value) (vs : list value) :
  extends s s' -> seq_values s v = Some vs -> seq_values s' v = Some vs.
Proof.
  intros (Hl & _). destruct v; cbn [seq_values]; try done.
  intros Ha. by eapply prefix_lookup_Some.
Qed.

Lemma reify_geo_extends (s s' : store) (v : value) (g : Geo float_t geom) :
  extends s s' -> reify_geo s v = Some g -> reify_geo s' v = Some g.
Proof.
  intros (_ & Hg & _). destruct v; cbn [reify_geo]; try done.
  intros Ha. by eapply prefix_lookup_Some.
Qed.

Lemma mapM_option_mono {A B} (f f' : A -> option B) (l : list A) (k : list B) :
  (forall x y, f x = Some y -> f' x = Some y) ->
  mapM f l = Some k -> mapM f' l = Some k.
Proof.
  intros Hf. revert k. induction l as [|x l IH]; intros k; [done|].
  cbn [mapM]. destruct (f x) as [y|] eqn:Hx; [|discriminate].
  cbn [mbind option_bind].
  destruct (mapM f l) as [k'|]; [|discriminate].
  cbn [mbind option_bind]. intros [= <-].
  by rewrite (Hf _ _ Hx), (IH k' eq_refl).
Qed.

Lemma reify_item_extends (s s' : store) (v : value) (it : Item float_t geom) :
  extends s s' -> reify_item s v = Some it -> reify_item s' v = Some it.
Proof.
  intros Hext Hit.
  apply reify_item_Some in Hit as (b & o & vs & -> & Ho & Hvs & Hgeos & Hattrs).
  cbn [reify_item].
  rewrite (prefix_lookup_Some _ _ _ _ Ho (proj1 (proj2 (proj2 Hext)))).
  cbn [mbind option_bind]. rewrite (seq_values_extends s s' _ _ Hext Hvs).
  cbn [mbind option_bind].
  rewrite (mapM_option_mono _ (reify_geo s') _ _
             (fun x y => reify_geo_extends s s' x y Hext) Hgeos).
  cbn [mbind option_bind]. destruct it. cbn in *. by rewrite Hattrs.
Qed.

Lemma reify_geoset_extends (s s' : store) (v : value)
    (t : Geoset float_t geom header) :
  extends s s' -> reify_geoset s v = Some t -> reify_geoset s' v = Some t.
Proof.
  intros Hext. destruct v as [|a|ws|a|a|a]; cbn [reify_geoset]; try done.
  destruct (st_geosets s !! a) as [o|] eqn:Ho; [|discriminate].
  rewrite (prefix_lookup_Some _ _ _ _ Ho (proj2 (proj2 (proj2 Hext)))).
  cbn [mbind option_bind].
  destruct (seq_values s (go_items o)) as [vs|] eqn:Hvs; [|discriminate].
  rewrite (seq_values_extends s s' _ _ Hext Hvs). cbn [mbind option_bind].
  destruct (mapM (reify_item s) vs) as [items|] eqn:Hitems; [|discriminate].
  rewrite (mapM_option_mono _ (reify_item s') _ _
             (fun x y => reify_item_extends s s' x y Hext) Hitems).
  done.
Qed.

Lemma with_item_extends (s : store) (it : Item float_t geom) :
  extends s (with_item s it).
Proof.
  unfold with_item, extends.
  cbn [st_lists st_geos st_items st_geosets].
  split; [by apply prefix_app_r|]. split; [by apply prefix_app_r|].
  split; [by apply prefix_app_r|done].
Qed.

Lemma new_item_mono (s0 a b : store) (v : value) (it : Item float_t geom) :
  new_item s0 a v it ->
  st_geos a `prefix_of` st_geos b -> st_items a `prefix_of` st_items b ->
  (forall c l, (length (st_lists s0) <= c)%nat ->
               st_lists a !! c = Some l -> st_lists b !! c = Some l) ->
  new_item s0 b v it.
Proof.
  intros (i & o & c & gl & -> & Hi & Ho & Hattrs & Hc & Hlen & Hgl & Hgeos)
    Hg Hit Hl.
  exists i, o, c, gl. split; [reflexivity|]. split; [exact Hi|].
  split; [by eapply prefix_lookup_Some|]. split; [exact Hattrs|].
  split; [exact Hc|]. split; [exact Hlen|]. split; [by apply Hl|].
  eapply Forall2_impl; [exact Hgeos|].
  intros w g (d & -> & Hd & Hlook). exists d. split; [reflexivity|].
  split; [exact Hd|]. by eapply prefix_lookup_Some.
Qed.

Lemma new_geos_lookup (gs new : list (Geo float_t geom)) (G0 : nat)
    (gs' : list (Geo float_t geom)) :
  (G0 <= length gs)%nat -> gs' = gs ++ new ->
  Forall2 (fun w g => exists d, w = VGeo d /\ (G0 <= d)%nat /\
                                gs' !! d = Some g)
    (map VGeo (seq (length gs) (length new))) new.
Proof.
  intros HG ->. apply Forall2_same_length_lookup_2.
  - by rewrite length_map, length_seq.
  - intros j w g Hw Hg. change (map ?f ?l) with (f <$> l) in Hw.
    rewrite list_lookup_fmap in Hw.
    destruct (seq (length gs) (length new) !! j) as [d|] eqn:Hd;
      [|discriminate].
    injection Hw as <-. apply lookup_seq in Hd as [-> _].
    exists (length gs + j)%nat. split; [reflexivity|]. split; [lia|].
    rewrite lookup_app_r by lia.
    by replace (length gs + j - length gs)%nat with j by lia.
Qed.

Lemma new_item_with_item (s0 sk : store) (it : Item float_t geom) :
  (length (st_lists s0) <= length (st_lists sk))%nat ->
  (length (st_geos s0) <= length (st_geos sk))%nat ->
  (length (st_items s0) <= length (st_items sk))%nat ->
  new_item s0 (with_item sk it) (VItem (length (st_items sk))) it.
Proof.
  intros Hl Hg Hi. unfold new_item, with_item.
  cbn [st_lists st_geos st_items st_geosets].
  destruct (item_geos it) as [|g geos] eqn:Hgeos.
  - cbn [length Nat.eqb seq map].
    eexists _, _, _, _. split; [reflexivity|]. split; [exact Hi|].
    split; [by apply list_lookup_middle|]. split; [reflexivity|].
    split; [reflexivity|]. split; [lia|]. split; [|constructor].
    rewrite lookup_app_r by lia.
    by replace (length (st_lists sk) + 1 - length (st_lists sk))%nat
      with 1%nat by lia.
  - cbn [length Nat.eqb].
    eexists _, _, _, _. split; [reflexivity|]. split; [exact Hi|].
    split; [by apply list_lookup_middle|]. split; [reflexivity|].
    split; [reflexivity|]. split; [lia|]. split.
    + by apply list_lookup_middle.
    + by apply (new_geos_lookup (st_geos sk) (g :: geos)).
Qed.

Lemma prefix_length_le {A} (l k : list A) :
  l `prefix_of` k -> (length l <= length k)%nat.
Proof. intros [t ->]. rewrite length_app. lia. Qed.

(** One turn of the comprehension of a method of [Geoset]: the new [Item]
    of [with_item] is appended to the new list. *)
Lemma rebuilding_step (s sk : store) (done : list (Item float_t geom))
    (it : Item float_t geom) :
  rebuilding s sk done ->
  exists sk',
    append (VList (length (st_lists s))) (VItem (length (st_items sk)))
      (with_item sk it) = Ok (tt, sk') /\
    rebuilding s sk' (done ++ [it]).
Proof.
  intros (Hext & Hgs & Hlen & Hout & Hdone).
  destruct Hext as (Hl & Hg & Hi & Hss).
  pose proof (lookup_lt_Some _ _ _ Hout) as HL.
  assert (HW : st_lists (with_item sk it) !! length (st_lists s)
               = Some (map VItem (seq (length (st_items s)) (length done)))).
  { unfold with_item. cbn [st_lists]. by apply lookup_app_l_Some. }
  eexists. split.
  { unfold append. rewrite HW. reflexivity. }
  unfold rebuilding, extends. cbn [st_lists st_geos st_items st_geosets].
  assert (Hagree : forall c l, (length (st_lists (with_list s)) <= c)%nat ->
            st_lists sk !! c = Some l ->
            <[length (st_lists s) :=
                map VItem (seq (length (st_items s)) (length done))
                ++ [VItem (length (st_items sk))]]>
              (st_lists (with_item sk it)) !! c = Some l).
  { intros c l Hc Hlook. unfold with_list in Hc. cbn [st_lists] in Hc.
    rewrite length_app in Hc. cbn [length] in Hc.
    rewrite list_lookup_insert_ne by lia.
    unfold with_item. cbn [st_lists]. by apply lookup_app_l_Some. }
  split; [split; [|split; [|split]]|split; [|split; [|split]]].
  - destruct Hl as [rest Hrest]. unfold with_item. cbn [st_lists].
    rewrite Hrest, <- app_assoc, insert_app_r_alt by lia.
    by apply prefix_app_r.
  - etrans; [exact Hg|]. unfold with_item. cbn [st_geos].
    by apply prefix_app_r.
  - etrans; [exact Hi|]. unfold with_item. cbn [st_items].
    by apply prefix_app_r.
  - unfold with_item. cbn [st_geosets]. exact Hss.
  - unfold with_item. cbn [st_geosets]. exact Hgs.
  - unfold with_item. cbn [st_items]. rewrite !length_app, Hlen.
    cbn [length]. lia.
  - rewrite list_lookup_insert_eq.
    + rewrite length_app. cbn [length]. rewrite Nat.add_1_r, seq_snoc, map_app.
      by rewrite Hlen.
    + unfold with_item. cbn [st_lists]. rewrite length_app. lia.
  - rewrite length_app. cbn [length]. rewrite Nat.add_1_r, seq_snoc, map_app.
    apply Forall2_app.
    + eapply Forall2_impl; [exact Hdone|]. intros v it' Hv.
      eapply new_item_mono; [exact Hv| | |exact Hagree].
      * unfold with_item. cbn [st_geos]. by apply prefix_app_r.
      * unfold with_item. cbn [st_items]. by apply prefix_app_r.
    + constructor; [|constructor]. cbn [map]. rewrite <- Hlen.
      eapply new_item_mono.
      * apply (new_item_with_item (with_list s) sk it).
        -- unfold with_list. cbn [st_lists]. rewrite length_app.
           cbn [length]. lia.
        -- unfold with_list. cbn [st_geos]. by apply prefix_length_le.
        -- unfold with_list. cbn [st_items]. by apply prefix_length_le.
      * done.
      * done.
      * intros c l Hc Hlook. unfold with_list in Hc. cbn [st_lists] in Hc.
        rewrite length_app in Hc. cbn [length] in Hc. cbn [st_lists].
        by rewrite list_lookup_insert_ne by lia.
Qed.

Lemma for_each_ok {A} (body : A -> M unit) (x : A) (l : list A)
    (s s' : store) :
  body x s = Ok (tt, s') -> for_each (x :: l) body s = for_each l body s'.
Proof. intros Hx. cbn [for_each]. unfold bind. by rewrite Hx. Qed.

Lemma for_each_raise {A} (body : A -> M unit) (x : A) (l : list A)
    (s : store) (e : exn) :
  body x s = Raise e -> for_each (x :: l) body s = Raise e.
Proof. intros Hx. cbn [for_each]. unfold bind. by rewrite Hx. Qed.

(** The loop of the comprehension over the elements of [self.items]. *)
Lemma comprehension_items (geo_method : value -> M value)
    (f : geom -> result geom) (s : store) :
  geo_method_does geo_method f ->
  forall (vs : list value) (items done : list (Item float_t geom))
         (sk : store),
    mapM (reify_item s) vs = Some items ->
    rebuilding s sk done ->
    match mapM (item_step f) items with
    | Ok new =>
        exists sm,
          for_each vs
            (fun x => bind (Item_rebuild geo_method x)
                        (fun y => append (VList (length (st_lists s))) y))
            sk = Ok (tt, sm) /\
          rebuilding s sm (done ++ new)
    | Raise e =>
        for_each vs
          (fun x => bind (Item_rebuild geo_method x)
                      (fun y => append (VList (length (st_lists s))) y))
          sk = Raise e
    end.
Proof.
  intros Hgm. induction vs as [|v vs IH]; intros items done sk Hre Hinv.
  - injection Hre as <-. cbn. exists sk. split; [reflexivity|].
    by rewrite app_nil_r.
  - cbn [mapM] in Hre.
    destruct (reify_item s v) as [it|] eqn:Hv; [|discriminate].
    destruct (mapM (reify_item s) vs) as [items'|] eqn:Hvs; [|discriminate].
    injection Hre as <-. cbn [mapM].
    pose proof Hinv as (Hext & _).
    pose proof (Item_rebuild_does geo_method f sk v it Hgm
                  (reify_item_extends s sk v it Hext Hv)) as Hstep.
    destruct (item_step f it) as [it'|e]; cbn [mbind result_bind].
    2:{ apply (for_each_raise
                 (fun x => bind (Item_rebuild geo_method x)
                             (fun y => append (VList (length (st_lists s))) y))).
        by apply bind_raise. }
    destruct (rebuilding_step s sk done it' Hinv) as (sk' & Happ & Hinv').
    assert (Hbody : bind (Item_rebuild geo_method v)
                      (fun y => append (VList (length (st_lists s))) y) sk
                    = Ok (tt, sk')).
    { by rewrite (bind_ok _ _ _ _ _ Hstep). }
    specialize (IH items' (done ++ [it']) sk' eq_refl Hinv').
    pose proof (for_each_ok
                  (fun x => bind (Item_rebuild geo_method x)
                              (fun y => append (VList (length (st_lists s))) y))
                  v vs sk sk' Hbody) as Hcons.
    destruct (mapM (item_step f) items') as [new|e]; cbn [mbind result_bind].
    + destruct IH as (sm & Hloop & Hsm). exists sm.
      split; [by rewrite Hcons|]. by rewrite <- app_assoc in Hsm.
    + by rewrite Hcons.
Qed.

Lemma rebuilding_start (s : store) : rebuilding s (with_list s) [].
Proof.
  unfold rebuilding, with_list, extends.
  cbn [st_lists st_geos st_items st_geosets length seq map].
  split; [split; [by apply prefix_app_r|done]|].
  split; [reflexivity|]. split; [lia|].
  split; [by apply list_lookup_middle|constructor].
Qed.

Lemma mapM_Forall2_Some {A B} (R : A -> B -> Prop) (f : A -> option B)
    (l : list A) (k : list B) :
  (forall x y, R x y -> f x = Some y) -> Forall2 R l k -> mapM f l = Some k.
Proof.
  intros Hf. induction 1 as [|x y l k Hxy _ IH]; [reflexivity|].
  cbn [mapM]. rewrite (Hf _ _ Hxy). cbn [mbind option_bind]. by rewrite IH.
Qed.

Lemma new_item_reify (s s' : store) (v : value) (it : Item float_t geom) :
  new_item s s' v it -> reify_item s' v = Some it.
Proof.
  intros (b & o & c & gl & -> & _ & Ho & Hattrs & Hc & _ & Hgl & Hgeos).
  cbn [reify_item]. rewrite Ho. cbn [mbind option_bind]. rewrite Hc.
  cbn [seq_values]. rewrite Hgl. cbn [mbind option_bind].
  assert (Hre : mapM (reify_geo s') gl = Some (item_geos it)).
  { eapply mapM_Forall2_Some; [|exact Hgeos].
    by intros w g (d & -> & _ & Hd). }
  rewrite Hre. cbn [mbind option_bind]. destruct it. cbn in *.
  by rewrite Hattrs.
Qed.

Lemma new_geoset_reify (s s' : store) (v : value)
    (t : Geoset float_t geom header) :
  new_geoset s s' v t -> reify_geoset s' v = Some t.
Proof.
  intros (a & o & c & il & -> & _ & Ho & Hattrs & Hhdr & Hc & _ & Hil & Hitems).
  cbn [reify_geoset]. rewrite Ho. cbn [mbind option_bind]. rewrite Hc.
  cbn [seq_values]. rewrite Hil. cbn [mbind option_bind].
  assert (Hre : mapM (reify_item s') il = Some (gs_items t)).
  { eapply mapM_Forall2_Some; [|exact Hitems].
    intros w it Hw. by eapply new_item_reify. }
  rewrite Hre. cbn [mbind option_bind]. destruct t. cbn in *.
  by rewrite Hattrs, Hhdr.
Qed.

Lemma reify_geoset_Some (s : store) (v : value)
    (t : Geoset float_t geom header) :
  reify_geoset s v = Some t ->
  exists a o vs,
    v = VGeoset a /\ st_geosets s !! a = Some o /\
    seq_values s (go_items o) = Some vs /\
    mapM (reify_item s) vs = Some (gs_items t) /\
    go_attrs o = gs_attrs t /\ go_hdr o = gs_hdr t.
Proof.
  destruct v as [|b|ws|b|b|a]; cbn [reify_geoset]; try discriminate.
  destruct (st_geosets s !! a) as [o|] eqn:Ho; [|discriminate].
  cbn [mbind option_bind].
  destruct (seq_values s (go_items o)) as [vs|] eqn:Hvs; [|discriminate].
  cbn [mbind option_bind].
  destruct (mapM (reify_item s) vs) as [items|] eqn:Hitems; [|discriminate].
  cbn [mbind option_bind]. intros [= <-]. by exists a, o, vs.
Qed.

Lemma comprehension_items_does (geo_method : value -> M value)
    (f : geom -> result geom) (s : store) (v : value) (vs : list value)
    (items : list (Item float_t geom)) :
  geo_method_does geo_method f ->
  seq_values s v = Some vs ->
  mapM (reify_item s) vs = Some items ->
  match mapM (item_step f) items with
  | Ok new =>
      exists sm,
        comprehension v (Item_rebuild geo_method) s
        = Ok (VList (length (st_lists s)), sm) /\
        rebuilding s sm new
  | Raise e => comprehension v (Item_rebuild geo_method) s = Raise e
  end.
Proof.
  intros Hgm Hvs Hitems.
  pose proof (comprehension_items geo_method f s Hgm vs items []
                (with_list s) Hitems (rebuilding_start s)) as Hloop.
  assert (Hc : comprehension v (Item_rebuild geo_method) s
               = bind (for_each vs
                         (fun x => bind (Item_rebuild geo_method x)
                                     (fun y => append (VList (length (st_lists s))) y)))
                      (fun _ => ret (VList (length (st_lists s))))
                      (with_list s)).
  { unfold comprehension. rewrite (bind_ok _ _ s _ (with_list s) eq_refl).
    unfold with_list. by rewrite (bind_ok _ _ _ _ _ (iterate_app s v vs _ _ _ _ Hvs)). }
  rewrite Hc. destruct (mapM (item_step f) items) as [new|e].
  - destruct Hloop as (sm & Hloop & Hsm). exists sm.
    split; [by rewrite (bind_ok _ _ _ _ _ Hloop)|exact Hsm].
  - by apply bind_raise.
Qed.

(** A method of [Geoset] on a [Geoset] that holds the tree [t]: it
    returns a new [Geoset] that holds the tree of [geoset_step] in new
    objects, in a store that has the objects of [s] as they were; or it
    raises what the first failing conversion raises. *)
Lemma Geoset_rebuild_does (geo_method : value -> M value)
    (f : geom -> result geom) (s : store) (v : value)
    (t : Geoset float_t geom header) :
  geo_method_does geo_method f ->
  reify_geoset s v = Some t ->
  match geoset_step f t with
  | Ok t' =>
      exists s',
        Geoset_rebuild (Item_rebuild geo_method) v s
        = Ok (VGeoset (length (st_geosets s)), s') /\
        extends s s' /\
        new_geoset s s' (VGeoset (length (st_geosets s))) t'
  | Raise e => Geoset_rebuild (Item_rebuild geo_method) v s = Raise e
  end.
Proof.
  intros Hgm Ht.
  apply reify_geoset_Some in Ht
    as (a & o & vs & -> & Ho & Hvs & Hitems & Hattrs & Hhdr).
  assert (Hget : forall s1 : store, st_geosets s1 = st_geosets s ->
                   get_geoset (VGeoset a) s1 = Ok (o, s1)).
  { intros s1 Hs1. unfold get_geoset. by rewrite Hs1, Ho. }
  pose proof (comprehension_items_does geo_method f s (go_items o) vs
                (gs_items t) Hgm Hvs Hitems) as Hcomp.
  unfold Geoset_rebuild, geoset_step.
  rewrite (bind_ok _ _ _ _ _ (Hget s eq_refl)).
  destruct (mapM (item_step f) (gs_items t)) as [new|e];
    cbn [mbind result_bind].
  2:{ by apply bind_raise. }
  destruct Hcomp as (sm & Hcomp & Hsm).
  destruct Hsm as (Hext & Hgs & Hlen & Hout & Hnew).
  rewrite (bind_ok _ _ _ _ _ Hcomp), (bind_ok _ _ _ _ _ (Hget sm Hgs)).
  unfold Geoset_init. cbn [is_None has_iter negb]. unfold bind, ret, alloc_geoset.
  rewrite Hgs. eexists. split; [reflexivity|].
  destruct Hext as (Hl & Hg & Hi & Hss). split.
  - unfold extends. cbn [st_lists st_geos st_items st_geosets].
    split; [exact Hl|]. split; [exact Hg|]. split; [exact Hi|].
    by apply prefix_app_r.
  - unfold new_geoset. cbn [st_lists st_geos st_items st_geosets].
    eexists _, _, _, _. split; [reflexivity|]. split; [lia|].
    split; [by apply list_lookup_middle|].
    cbn [go_attrs go_hdr go_items gs_attrs gs_hdr gs_items].
    split; [by rewrite Hattrs|]. split; [by rewrite Hhdr|].
    split; [reflexivity|]. split; [lia|]. split; [exact Hout|].
    eapply Forall2_impl; [exact Hnew|]. intros w it Hw.
    destruct Hw as (b & o' & c & gl & -> & Hb & Ho' & Ha' & Hc & Hlc & Hgl & Hgeos).
    exists b, o', c, gl. unfold with_list in *.
    cbn [st_lists st_geos st_items st_geosets] in *.
    rewrite length_app in Hlc. cbn [length] in Hlc.
    repeat (split; [first [done|lia]|]). exact Hgeos.
Qed.

(** *** The four methods of [Geoset] *)

Lemma mapM_result_Forall2 {A B} (f : A -> result B) (l : list A) (k : list B) :
  mapM f l = Ok k -> Forall2 (fun x y => f x = Ok y) l k.
Proof.
  revert k. induction l as [|x l IH]; intros k; cbn [mapM].
  - intros [= <-]. constructor.
  - destruct (f x) as [y|e] eqn:Hx; [|discriminate]. cbn [mbind result_bind].
    destruct (mapM f l) as [k'|e]; [|discriminate]. cbn [mbind result_bind].
    intros [= <-]. constructor; [exact Hx|by apply IH].
Qed.

(** The tree of [geoset_step]: item for item and geo for geo the tree it
    was made from, a [Geo] without geometry where there was none and with
    the converted geometry where there was one, every attribute map and
    the header copied. *)
Lemma geoset_step_shape (f : geom -> result geom)
    (t t' : Geoset float_t geom header) :
  geoset_step f t = Ok t' ->
  gs_attrs t' = copy_attrs (gs_attrs t) /\
  gs_hdr t' = match gs_hdr t with
              | None => None
              | Some h => Some (header_copy h)
              end /\
  Forall2
    (fun it it' =>
       item_attrs it' = copy_attrs (item_attrs it) /\
       Forall2
         (fun g g' =>
            geo_attrs g' = copy_attrs (geo_attrs g) /\
            match geo_geo g with
            | None => geo_geo g' = None
            | Some p => exists q, f p = Ok q /\ geo_geo g' = Some q
            end)
         (item_geos it) (item_geos it'))
    (gs_items t) (gs_items t').
Proof.
  unfold geoset_step.
  destruct (mapM (item_step f) (gs_items t)) as [items|e] eqn:Hitems;
    [|discriminate].
  cbn [mbind result_bind]. intros [= <-]. cbn [gs_attrs gs_hdr gs_items].
  split; [reflexivity|]. split; [reflexivity|].
  apply mapM_result_Forall2 in Hitems.
  eapply Forall2_impl; [exact Hitems|]. intros it it'. unfold item_step.
  destruct (mapM (geo_step f) (item_geos it)) as [geos|e] eqn:Hgeos;
    [|discriminate].
  cbn [mbind result_bind]. intros [= <-]. cbn [item_attrs item_geos].
  split; [reflexivity|].
  apply mapM_result_Forall2 in Hgeos.
  eapply Forall2_impl; [exact Hgeos|]. intros g g'. unfold geo_step.
  destruct (geo_geo g) as [p|].
  - destruct (f p) as [q|e]; [|discriminate]. cbn. intros [= <-].
    cbn. split; [reflexivity|]. by exists q.
  - cbn. by intros [= <-].
Qed.

(** X13. [Geoset.copy] is a deep copy that leaves the original alone. On
    a [Geoset] that holds the tree [t] it returns a new [Geoset] that
    holds the copied tree in objects of which the store had none: the
    [Geoset], its list of items, every [Item], every list of geos and
    every [Geo] are new. Every object that the store had is as it was,
    so the original still holds [t]. Each geometry of the copy is the
    union of the original one with the empty point; when a union raises,
    [copy] raises the same. *)
Theorem Geoset_copy_deep (s : store) (v : value)
    (t : Geoset float_t geom header) :
  reify_geoset s v = Some t ->
  match geoset_step copy_geometry t with
  | Ok t' =>
      exists s',
        Geoset_copy v s = Ok (VGeoset (length (st_geosets s)), s') /\
        new_geoset s s' (VGeoset (length (st_geosets s))) t' /\
        reify_geoset s' (VGeoset (length (st_geosets s))) = Some t' /\
        extends s s' /\
        reify_geoset s' v = Some t
  | Raise e => Geoset_copy v s = Raise e
  end.
Proof.
  intros Ht.
  pose proof (Geoset_rebuild_does Geo_copy copy_geometry s v t
                Geo_copy_does Ht) as Hdoes.
  destruct (geoset_step copy_geometry t) as [t'|e]; [|exact Hdoes].
  destruct Hdoes as (s' & Hrun & Hext & Hnew). exists s'.
  split; [exact Hrun|]. split; [exact Hnew|].
  split; [by eapply new_geoset_reify|]. split; [exact Hext|].
  by eapply reify_geoset_extends.
Qed.

(** X14. [Geoset.translate] on a [Geoset] that holds the tree [t] returns
    a new [Geoset] whose tree has the items and geos of [t] in number and
    order: a [Geo] without geometry stays without, a geometry is what
    [poly_translate] returns for it alone, the attribute maps and the
    header are copies. The original still holds [t]. When a translation
    raises, [translate] raises the same. *)
Theorem Geoset_translate_tree (s : store) (v : value) (dx dy : float_t)
    (t : Geoset float_t geom header) :
  reify_geoset s v = Some t ->
  match geoset_step (translate_geometry dx dy) t with
  | Ok t' =>
      exists s',
        Geoset_translate v dx dy s = Ok (VGeoset (length (st_geosets s)), s') /\
        reify_geoset s' (VGeoset (length (st_geosets s))) = Some t' /\
        reify_geoset s' v = Some t /\
        Forall2
          (fun it it' =>
             Forall2
               (fun g g' =>
                  match geo_geo g with
                  | None => geo_geo g' = None
                  | Some p =>
                      exists q,
                        Utils.poly_translate [p] (Utils.One dx) (Utils.One dy)
                        = Ok [q] /\ geo_geo g' = Some q
                  end)
               (item_geos it) (item_geos it'))
          (gs_items t) (gs_items t')
  | Raise e => Geoset_translate v dx dy s = Raise e
  end.
Proof.
  intros Ht.
  pose proof (Geoset_rebuild_does (fun geo => Geo_translate geo dx dy)
                (translate_geometry dx dy) s v t
                (Geo_translate_does dx dy) Ht) as Hdoes.
  destruct (geoset_step (translate_geometry dx dy) t) as [t'|e] eqn:Hstep;
    [|exact Hdoes].
  destruct Hdoes as (s' & Hrun & Hext & Hnew). exists s'.
  split; [exact Hrun|]. split; [by eapply new_geoset_reify|].
  split; [by eapply reify_geoset_extends|].
  destruct (geoset_step_shape _ _ _ Hstep) as (_ & _ & Hshape).
  eapply Forall2_impl; [exact Hshape|]. intros it it' [_ Hgeos].
  eapply Forall2_impl; [exact Hgeos|]. intros g g' [_ Hg].
  destruct (geo_geo g) as [p|]; [|exact Hg].
  destruct Hg as (q & Hq & Hg'). exists q. split; [|exact Hg'].
  unfold translate_geometry in Hq.
  destruct (Utils.poly_translate [p] (Utils.One dx) (Utils.One dy))
    as [l|e] eqn:Hl; [|discriminate].
  pose proof (mapM_result_length _ _ _ Hl) as Hlen.
  cbn in Hlen. destruct l as [|q' [|q'' l]]; try discriminate.
  cbn in Hq. by injection Hq as ->.
Qed.

Lemma default_hdr_does (s : store) (v : value) (hdr : option header)
    (t : Geoset float_t geom header) :
  reify_geoset s v = Some t ->
  default_hdr v hdr s
  = Ok (match hdr with None => gs_hdr t | Some _ => hdr end, s).
Proof.
  intros Ht. destruct hdr as [h|]; [reflexivity|].
  apply reify_geoset_Some in Ht as (a & o & vs & -> & Ho & _ & _ & _ & Hhdr).
  unfold default_hdr, bind, get_geoset, ret. by rewrite Ho, Hhdr.
Qed.

(** X15. [Geoset.pix2world] and [Geoset.world2pix] convert with the
    header given or, when it is [None], with the header stored in the
    [Geoset]; the header of the [Geoset] returned is in both cases a copy
    of the stored one, never the header given. The tree returned is the
    tree of the original with every geometry converted, the original
    still holds its tree, and an error of a conversion is raised as it
    is. *)
Theorem Geoset_wcs_header (s : store) (v : value) (hdr : option header)
    (t : Geoset float_t geom header) :
  reify_geoset s v = Some t ->
  let used := match hdr with None => gs_hdr t | Some _ => hdr end in
  match geoset_step (pix2world_geometry used) t with
  | Ok t' =>
      exists s',
        Geoset_pix2world v hdr s = Ok (VGeoset (length (st_geosets s)), s') /\
        reify_geoset s' (VGeoset (length (st_geosets s))) = Some t' /\
        reify_geoset s' v = Some t /\
        gs_hdr t' = match gs_hdr t with
                    | None => None
                    | Some h => Some (header_copy h)
                    end
  | Raise e => Geoset_pix2world v hdr s = Raise e
  end /\
  match geoset_step (world2pix_geometry used) t with
  | Ok t' =>
      exists s',
        Geoset_world2pix v hdr s = Ok (VGeoset (length (st_geosets s)), s') /\
        reify_geoset s' (VGeoset (length (st_geosets s))) = Some t' /\
        reify_geoset s' v = Some t /\
        gs_hdr t' = match gs_hdr t with
                    | None => None
                    | Some h => Some (header_copy h)
                    end
  | Raise e => Geoset_world2pix v hdr s = Raise e
  end.
Proof.
  intros Ht used. split.
  - pose proof (Geoset_rebuild_does (fun geo => Geo_pix2world geo used)
                  (pix2world_geometry used) s v t
                  (Geo_pix2world_does used) Ht) as Hdoes.
    unfold Geoset_pix2world.
    rewrite (bind_ok _ _ _ _ _ (default_hdr_does s v hdr t Ht)).
    fold used.
    destruct (geoset_step (pix2world_geometry used) t) as [t'|e] eqn:Hstep;
      [|exact Hdoes].
    destruct Hdoes as (s' & Hrun & Hext & Hnew). exists s'.
    split; [exact Hrun|]. split; [by eapply new_geoset_reify|].
    split; [by eapply reify_geoset_extends|].
    by destruct (geoset_step_shape _ _ _ Hstep) as (_ & Hh & _).
  - pose proof (Geoset_rebuild_does (fun geo => Geo_world2pix geo used)
                  (world2pix_geometry used) s v t
                  (Geo_world2pix_does used) Ht) as Hdoes.
    unfold Geoset_world2pix.
    rewrite (bind_ok _ _ _ _ _ (default_hdr_does s v hdr t Ht)).
    fold used.
    destruct (geoset_step (world2pix_geometry used) t) as [t'|e] eqn:Hstep;
      [|exact Hdoes].
    destruct Hdoes as (s' & Hrun & Hext & Hnew). exists s'.
    split; [exact Hrun|]. split; [by eapply new_geoset_reify|].
    split; [by eapply reify_geoset_extends|].
    by destruct (geoset_step_shape _ _ _ Hstep) as (_ & Hh & _).
Qed.

Lemma mapM_raise_some {A B} (f : A -> result B) (e : exn) (l : list A) :
  (forall x, f x = Raise e \/ exists y, f x = Ok y) ->
  Exists (fun x => f x = Raise e) l -> mapM f l = Raise e.
Proof.
  intros Hf. induction 1 as [x l Hx|x l _ IH]; cbn [mapM].
  - by rewrite Hx.
  - destruct (Hf x) as [Hx|[y Hx]]; rewrite Hx; [reflexivity|].
    cbn [mbind result_bind]. by rewrite IH.
Qed.

Lemma mapM_result_map {A B} (f : A -> result B) (h : A -> B) (l : list A) :
  Forall (fun x => f x = Ok (h x)) l -> mapM f l = Ok (map h l).
Proof.
  induction 1 as [|x l Hx _ IH]; [reflexivity|].
  cbn [mapM map]. by rewrite Hx, IH.
Qed.

(** Without a header, each conversion of a geometry raises. *)
Lemma geo_step_no_header (f : geom -> result geom) (g : Geo float_t geom) :
  (forall p, f p = Raise AttributeError) ->
  geo_step f g
  = match geo_geo g with
    | None => Ok (mkGeo None (copy_attrs (geo_attrs g)))
    | Some _ => Raise AttributeError
    end.
Proof.
  intros Hf. unfold geo_step. destruct (geo_geo g) as [p|]; [|reflexivity].
  by rewrite Hf.
Qed.

Lemma geoset_step_no_header (f : geom -> result geom)
    (t : Geoset float_t geom header) :
  (forall p, f p = Raise AttributeError) ->
  (Exists (fun it => Exists (fun g => geo_geo g <> None) (item_geos it))
     (gs_items t) ->
   geoset_step f t = Raise AttributeError) /\
  (Forall (fun it => Forall (fun g => geo_geo g = None) (item_geos it))
     (gs_items t) ->
   geoset_step f t
   = Ok (mkGeoset
           (map (fun it =>
                   mkItem (map (fun g => mkGeo None (copy_attrs (geo_attrs g)))
                             (item_geos it))
                     (copy_attrs (item_attrs it)))
              (gs_items t))
           (copy_attrs (gs_attrs t))
           (match gs_hdr t with
            | None => None
            | Some h => Some (header_copy h)
            end))).
Proof.
  intros Hf. split.
  - intros Hex. unfold geoset_step.
    rewrite (mapM_raise_some (item_step f) AttributeError); [reflexivity| |].
    + intros it. unfold item_step.
      destruct (mapM (geo_step f) (item_geos it)) as [geos|e] eqn:Hgeos;
        [right; eexists; reflexivity|left].
      cbn [mbind result_bind]. f_equal.
      assert (Hall : forall l : list (Geo float_t geom),
                 mapM (geo_step f) l = Raise e -> e = AttributeError).
      { induction l as [|g l IH]; cbn [mapM]; [discriminate|].
        rewrite (geo_step_no_header f g Hf).
        destruct (geo_geo g); cbn [mbind result_bind]; [by intros [= <-]|].
        destruct (mapM (geo_step f) l) as [k|e']; [discriminate|].
        cbn [mbind result_bind]. intros [= <-]. by apply IH. }
      by apply (Hall _ Hgeos).
    + eapply Exists_impl; [exact Hex|]. intros it Hit. unfold item_step.
      rewrite (mapM_raise_some (geo_step f) AttributeError); [reflexivity| |].
      * intros g. rewrite (geo_step_no_header f g Hf).
        destruct (geo_geo g); [by left|right; eexists; reflexivity].
      * eapply Exists_impl; [exact Hit|]. intros g Hg.
        rewrite (geo_step_no_header f g Hf).
        destruct (geo_geo g) eqn:Hgg; [reflexivity|done].
  - intros Hall. unfold geoset_step.
    rewrite (mapM_result_map (item_step f)
               (fun it =>
                  mkItem (map (fun g => mkGeo None (copy_attrs (geo_attrs g)))
                            (item_geos it))
                    (copy_attrs (item_attrs it)))); [reflexivity|].
    eapply Forall_impl; [exact Hall|]. intros it Hit. unfold item_step.
    rewrite (mapM_result_map (geo_step f)
               (fun g => mkGeo None (copy_attrs (geo_attrs g))));
      [reflexivity|].
    eapply Forall_impl; [exact Hit|]. intros g Hg.
    rewrite (geo_step_no_header f g Hf). by rewrite Hg.
Qed.

(** X16. Without any header, neither given nor stored, [Geoset.pix2world]
    and [Geoset.world2pix] raise [AttributeError] as soon as one [Geo] of
    the tree has a geometry; when no [Geo] has one they return a new
    [Geoset] with the items and geos of the original, without
    geometries, and copies of the attribute maps. *)
Theorem Geoset_wcs_no_header (s : store) (v : value)
    (t : Geoset float_t geom header) :
  reify_geoset s v = Some t -> gs_hdr t = None ->
  (Exists (fun it => Exists (fun g => geo_geo g <> None) (item_geos it))
     (gs_items t) ->
   Geoset_pix2world v None s = Raise AttributeError /\
   Geoset_world2pix v None s = Raise AttributeError) /\
  (Forall (fun it => Forall (fun g => geo_geo g = None) (item_geos it))
     (gs_items t) ->
   exists s1 s2,
     Geoset_pix2world v None s = Ok (VGeoset (length (st_geosets s)), s1) /\
     Geoset_world2pix v None s = Ok (VGeoset (length (st_geosets s)), s2) /\
     reify_geoset s1 (VGeoset (length (st_geosets s)))
     = reify_geoset s2 (VGeoset (length (st_geosets s))) /\
     reify_geoset s1 (VGeoset (length (st_geosets s)))
     = Some (mkGeoset
               (map (fun it =>
                       mkItem
                         (map (fun g => mkGeo None (copy_attrs (geo_attrs g)))
                            (item_geos it))
                         (copy_attrs (item_attrs it)))
                  (gs_items t))
               (copy_attrs (gs_attrs t)) None)).
Proof.
  intros Ht Hhdr.
  pose proof (Geoset_rebuild_does (fun geo => Geo_pix2world geo None)
                (pix2world_geometry None) s v t
                (Geo_pix2world_does None) Ht) as Hp.
  pose proof (Geoset_rebuild_does (fun geo => Geo_world2pix geo None)
                (world2pix_geometry None) s v t
                (Geo_world2pix_does None) Ht) as Hw.
  pose proof (default_hdr_does s v None t Ht) as Hd. rewrite Hhdr in Hd.
  assert (Hfp : forall p, pix2world_geometry None p = Raise AttributeError)
    by reflexivity.
  assert (Hfw : forall p, world2pix_geometry None p = Raise AttributeError)
    by reflexivity.
  destruct (geoset_step_no_header _ t Hfp) as [Hpe Hpo].
  destruct (geoset_step_no_header _ t Hfw) as [Hwe Hwo].
  unfold Geoset_pix2world, Geoset_world2pix.
  rewrite !(bind_ok _ _ _ _ _ Hd). split.
  - intros Hex. rewrite (Hpe Hex) in Hp. rewrite (Hwe Hex) in Hw. by split.
  - intros Hall. rewrite (Hpo Hall) in Hp. rewrite (Hwo Hall) in Hw.
    rewrite Hhdr in Hp, Hw.
    destruct Hp as (s1 & Hr1 & _ & Hn1). destruct Hw as (s2 & Hr2 & _ & Hn2).
    exists s1, s2. split; [exact Hr1|]. split; [exact Hr2|].
    rewrite (new_geoset_reify _ _ _ _ Hn1), (new_geoset_reify _ _ _ _ Hn2).
    by split.
Qed.
End MethodFacts.
(** The tree that [sample_store] holds in its [Geoset]. *)
Lemma Geoset_copy_deep_witness :
  exists s',
    GeosetMethods.Geoset_copy (GeosetModel.VGeoset 0) Reference.sample_store
    = Ok (GeosetModel.VGeoset 1, s') /\
    GeosetModel.reify_geoset s' (GeosetModel.VGeoset 1)
    = GeosetModel.reify_geoset Reference.sample_store (GeosetModel.VGeoset 0) /\
    GeosetModel.reify_geoset s' (GeosetModel.VGeoset 0)
    = GeosetModel.reify_geoset Reference.sample_store (GeosetModel.VGeoset 0) /\
    GeosetMethods.extends Reference.sample_store s'.
Proof.
  pose proof (Geoset_copy_deep Reference.sample_store
                (GeosetModel.VGeoset 0)
                (mkGeoset
                   [ mkItem [] None;
                     mkItem [ mkGeo (Some Reference.triangle) None;
                              mkGeo (Some Reference.holed_square) None ] None;
                     mkItem [ mkGeo None (Some [("name", SStr "void");
                                                ("n", SInt 1)]) ] None ]
                   None None)
                eq_refl) as Hw.
  cbv beta iota delta [GeosetMethods.geoset_step] in Hw.
  destruct Hw as (s' & Hrun & _ & Hnew & Hext & Hold).
  exists s'. split; [exact Hrun|]. split; [exact Hnew|].
  split; [exact Hold|exact Hext].
Defined.

Lemma Geoset_translate_tree_witness :
  exists s',
    GeosetMethods.Geoset_translate (GeosetModel.VGeoset 0) 1 2
      Reference.sample_store
    = Ok (GeosetModel.VGeoset 1, s') /\
    GeosetModel.reify_geoset s' (GeosetModel.VGeoset 1)
    = Some (mkGeoset
              [ mkItem [] None;
                mkItem [ mkGeo (Some (Reference.RPolygon
                                        [(1, 2); (5, 2); (1, 6); (1, 2)] []))
                           None;
                         mkGeo (Some (Reference.RPolygon
                                        [(1, 2); (11, 2); (11, 12); (1, 12);
                                         (1, 2)]
                                        [[(3, 4); (3, 6); (5, 6); (5, 4);
                                          (3, 4)]]))
                           None ] None;
                mkItem [ mkGeo None (Some [("name", SStr "void");
                                           ("n", SInt 1)]) ] None ]
              None None).
Proof.
  pose proof (Geoset_translate_tree Reference.sample_store
                (GeosetModel.VGeoset 0) 1 2
                (mkGeoset
                   [ mkItem [] None;
                     mkItem [ mkGeo (Some Reference.triangle) None;
                              mkGeo (Some Reference.holed_square) None ] None;
                     mkItem [ mkGeo None (Some [("name", SStr "void");
                                                ("n", SInt 1)]) ] None ]
                   None None)
                eq_refl) as Hw.
  cbv beta iota delta [GeosetMethods.geoset_step] in Hw.
  destruct Hw as (s' & Hrun & Hnew & _).
  exists s'. split; [exact Hrun|exact Hnew].
Defined.

(** A header given for the conversion, none stored: the tree returned
    has no header. *)
Lemma Geoset_wcs_header_witness :
  exists s' t',
    GeosetMethods.Geoset_pix2world (wcs_t := (Z * Z)%type)
      (GeosetModel.VGeoset 0)
      (Some [("CRVAL1", SInt 3); ("CRVAL2", SInt 5)])
      Reference.sample_store
    = Ok (GeosetModel.VGeoset 1, s') /\
    GeosetModel.reify_geoset s' (GeosetModel.VGeoset 1) = Some t' /\
    gs_hdr t' = None /\
    geo_geo <$> (gs_items t' ≫= item_geos)
    = [ Some (Reference.RPolygon [(3, 5); (7, 5); (3, 9); (3, 5)] []);
        Some (Reference.RPolygon
                [(3, 5); (13, 5); (13, 15); (3, 15); (3, 5)]
                [[(5, 7); (5, 9); (7, 9); (7, 7); (5, 7)]]);
        None ].
Proof.
  pose proof (proj1 (Geoset_wcs_header (wcs_t := (Z * Z)%type)
                       Reference.sample_store (GeosetModel.VGeoset 0)
                       (Some [("CRVAL1", SInt 3); ("CRVAL2", SInt 5)])
                       (mkGeoset
                          [ mkItem [] None;
                            mkItem [ mkGeo (Some Reference.triangle) None;
                                     mkGeo (Some Reference.holed_square) None ]
                              None;
                            mkItem [ mkGeo None (Some [("name", SStr "void");
                                                       ("n", SInt 1)]) ] None ]
                          None None)
                       eq_refl)) as Hw.
  cbv beta iota zeta delta [GeosetMethods.geoset_step] in Hw.
  destruct Hw as (s' & Hrun & Hnew & _ & Hhdr).
  eexists s', _. split; [exact Hrun|]. split; [exact Hnew|].
  split; [exact Hhdr|reflexivity].
Defined.

Lemma Geoset_wcs_no_header_witness :
  GeosetMethods.Geoset_pix2world (wcs_t := (Z * Z)%type)
    (GeosetModel.VGeoset 0) None Reference.sample_store
  = Raise AttributeError /\
  GeosetMethods.Geoset_world2pix (wcs_t := (Z * Z)%type)
    (GeosetModel.VGeoset 0) None Reference.sample_store
  = Raise AttributeError.
Proof.
  apply (proj1 (Geoset_wcs_no_header (wcs_t := (Z * Z)%type)
                  Reference.sample_store (GeosetModel.VGeoset 0)
                  (mkGeoset
                     [ mkItem [] None;
                       mkItem [ mkGeo (Some Reference.triangle) None;
                                mkGeo (Some Reference.holed_square) None ]
                         None;
                       mkItem [ mkGeo None (Some [("name", SStr "void");
                                                  ("n", SInt 1)]) ] None ]
                     None None)
                  eq_refl eq_refl)).
  apply Exists_cons_tl, Exists_cons_hd, Exists_cons_hd. discriminate.
Defined.

(** ** ds9regfile: parsing attribute texts *)

Section Ds9AttrsFacts.
Import PyStr Ds9Attrs.

Lemma length_append (a b : string) :
  String.length (a +:+ b) = (String.length a + String.length b)%nat.
Proof.
  induction a as [|x a IH]; [reflexivity|].
  rewrite append_cons. cbn [String.length]. by rewrite IH.
Qed.

Lemma drop_str_app (a b : string) : drop_str (String.length a) (a +:+ b) = b.
Proof. induction a as [|x a IH]; [by destruct b|exact IH]. Qed.

Lemma take_str_app (a b : string) : take_str (String.length a) (a +:+ b) = a.
Proof.
  induction a as [|x a IH]; [by destruct b|].
  rewrite append_cons. cbn [String.length take_str]. by rewrite IH.
Qed.

(** [s[a:b]] for two positions in order inside the text. *)
Lemma slice_inside (s : string) (a b : nat) :
  (a <= b <= String.length s)%nat ->
  slice s (Z.of_nat a) (Z.of_nat b) = take_str (b - a) (drop_str a s).
Proof.
  intros Hab. unfold slice, norm_index.
  rewrite !(proj2 (Z.ltb_ge _ _)) by lia.
  rewrite !Z.min_r, !Z.max_r by lia.
  rewrite <- Nat2Z.inj_sub, !Nat2Z.id by lia. reflexivity.
Qed.

Lemma slice_middle (a m b : string) :
  slice (a +:+ m +:+ b) (Z.of_nat (String.length a))
    (Z.of_nat (String.length a + String.length m)) = m.
Proof.
  rewrite slice_inside by (rewrite !length_append; lia).
  rewrite drop_str_app.
  replace (String.length a + String.length m - String.length a)%nat
    with (String.length m) by lia.
  apply take_str_app.
Qed.

(** [s[a:-1]]. *)
Lemma slice_to_last (a m : string) (x : ascii) :
  slice (a +:+ m +:+ String x "") (Z.of_nat (String.length a)) (-1) = m.
Proof.
  unfold slice, norm_index. rewrite !length_append. cbn [String.length].
  rewrite (proj2 (Z.ltb_ge (Z.of_nat (String.length a)) 0)) by lia.
  change (-1 <? 0) with true. cbv iota.
  rewrite !Z.min_r, !Z.max_r by lia.
  rewrite Nat2Z.id, drop_str_app.
  replace (Z.to_nat (-1 + Z.of_nat (String.length a + (String.length m + 1))
                     - Z.of_nat (String.length a)))
    with (String.length m) by lia.
  apply take_str_app.
Qed.

Lemma indices_of_free (c : ascii) (i : Z) (s : string) :
  contains_char c s = false -> indices_of c i s = [].
Proof.
  revert i. induction s as [|x s IH]; intros i; [reflexivity|].
  cbn [contains_char indices_of]. destruct (Ascii.eqb x c); [discriminate|].
  apply IH.
Qed.

Lemma indices_of_app (c : ascii) (i : Z) (s rest : string) :
  contains_char c s = false ->
  indices_of c i (s +:+ String c rest)
  = (i + Z.of_nat (String.length s))
    :: indices_of c (i + Z.of_nat (String.length s) + 1) rest.
Proof.
  revert i. induction s as [|x s IH]; intros i.
  - intros _. rewrite append_nil_l. cbn [indices_of String.length].
    rewrite Ascii.eqb_refl. by rewrite Z.add_0_r.
  - rewrite append_cons. cbn [contains_char indices_of String.length].
    destruct (Ascii.eqb x c); [discriminate|]. intros Hs.
    rewrite (IH (i + 1) Hs). f_equal; [lia|f_equal; lia].
Qed.

Lemma join_cons_ne (sep x : string) (l : list string) :
  l <> [] -> join sep (x :: l) = x +:+ sep +:+ join sep l.
Proof. destruct l; [done|reflexivity]. Qed.

Lemma segments_ne (w : string) (kvs : list (string * string)) :
  segments w kvs <> [].
Proof. by destruct kvs. Qed.

Lemma consecutive_cons {A} (a b : A) (l : list A) :
  zip (removelast (a :: b :: l)) (List.tl (a :: b :: l))
  = (a, b) :: zip (removelast (b :: l)) (List.tl (b :: l)).
Proof. reflexivity. Qed.

Lemma segments_free (w : string) (kvs : list (string * string)) :
  contains_char "=" w = false ->
  Forall (fun kv => key_ok (fst kv) /\ val_ok (snd kv)) kvs ->
  Forall (fun s => contains_char "=" s = false) (segments w kvs).
Proof.
  intros Hw Hkvs. revert w Hw.
  induction Hkvs as [|[k v] kvs [[_ Hk] [_ Hv]] _ IH]; intros w Hw.
  - constructor; [|constructor].
    by rewrite contains_char_app, Hw.
  - cbn [segments fst snd] in *. constructor; [|by apply IH].
    by rewrite !contains_char_app, Hw, Hk.
Qed.

(** The slices that [parse_ds9_attrs] takes between the positions of the
    equals signs, after the prefix [pre] of the text: the segments, the
    last one without its last character. *)
Lemma slices_cut (kvs : list (string * string)) :
  Forall (fun kv => key_ok (fst kv) /\ val_ok (snd kv)) kvs ->
  forall pre w : string,
    contains_char "=" w = false ->
    map (fun jj => slice (pre +:+ join "=" (segments w kvs))
                     (fst jj + 1) (snd jj))
      (zip (removelast
              ((Z.of_nat (String.length pre) - 1)
               :: indices_of "=" (Z.of_nat (String.length pre))
                    (join "=" (segments w kvs)) ++ [-1]))
           (List.tl
              ((Z.of_nat (String.length pre) - 1)
               :: indices_of "=" (Z.of_nat (String.length pre))
                    (join "=" (segments w kvs)) ++ [-1])))
    = segments_cut w kvs.
Proof.
  induction 1 as [|[k v] kvs [[Hks Hk] [Hvne Hv]] Hkvs IH]; intros pre w Hw.
  - cbn [segments segments_cut join].
    rewrite indices_of_free by (by rewrite contains_char_app, Hw).
    cbn [app removelast List.tl zip_with map fst snd].
    replace (Z.of_nat (String.length pre) - 1 + 1)
      with (Z.of_nat (String.length pre)) by lia.
    change (w +:+ " junk") with (w +:+ (" jun" +:+ "k")).
    rewrite <- (append_assoc w " jun" "k"). by rewrite slice_to_last.
  - cbn [segments segments_cut fst snd] in *.
    rewrite join_cons_ne by apply segments_ne.
    assert (Hfree : contains_char "=" (w +:+ " " +:+ k) = false)
      by (by rewrite !contains_char_app, Hw, Hk).
    set (s0 := w +:+ " " +:+ k) in *.
    change ("=" +:+ join "=" (segments v kvs))
      with (String "=" (join "=" (segments v kvs))).
    rewrite indices_of_app by exact Hfree.
    cbn [app]. rewrite consecutive_cons. cbn [map fst snd]. f_equal.
    + replace (Z.of_nat (String.length pre) - 1 + 1)
        with (Z.of_nat (String.length pre)) by lia.
      rewrite <- Nat2Z.inj_add. apply slice_middle.
    + specialize (IH ((pre +:+ s0) +:+ "=") v Hv).
      assert (Hlen : String.length ((pre +:+ s0) +:+ "=")
                     = (String.length pre + String.length s0 + 1)%nat).
      { rewrite !length_append. reflexivity. }
      rewrite Hlen in IH.
      replace (Z.of_nat (String.length pre + String.length s0 + 1) - 1)
        with (Z.of_nat (String.length pre) + Z.of_nat (String.length s0))
        in IH by lia.
      replace (Z.of_nat (String.length pre + String.length s0 + 1))
        with (Z.of_nat (String.length pre) + Z.of_nat (String.length s0) + 1)
        in IH by lia.
      rewrite <- IH. rewrite !append_assoc. reflexivity.
Qed.

Lemma rsplit1_free (c : ascii) (k : string) :
  contains_char c k = false -> rsplit1 c k = None.
Proof.
  induction k as [|x k IH]; [reflexivity|]. cbn [contains_char rsplit1].
  destruct (Ascii.eqb x c); [discriminate|]. intros Hk. by rewrite IH.
Qed.

Lemma rsplit1_app (c : ascii) (x k : string) :
  contains_char c k = false -> rsplit1 c (x +:+ String c k) = Some (x, k).
Proof.
  intros Hk. induction x as [|y x IH].
  - rewrite append_nil_l. cbn [rsplit1].
    by rewrite (rsplit1_free c k Hk), Ascii.eqb_refl.
  - rewrite append_cons. cbn [rsplit1]. by rewrite IH.
Qed.

Lemma last_char_Some (s : string) : s <> "" -> is_Some (last_char s).
Proof.
  induction s as [|x s IH]; [done|]. intros _. cbn [last_char].
  destruct s as [|y s]; [by eexists|]. by apply IH.
Qed.

Lemma strip_quotes_unquoted (val : string) :
  val <> "" -> Ds9regfile.strip_quotes val = Ok (unquoted val).
Proof.
  intros Hval. unfold Ds9regfile.strip_quotes, unquoted.
  destruct (last_char_Some val Hval) as [b ->].
  destruct val as [|a val]; [done|]. cbn [first_char].
  by destruct (_ || _).
Qed.

(** What the loop of [parse_ds9_attrs] makes of the segments: each key
    with the value before it. *)
Lemma segments_pairs (kvs : list (string * string)) :
  Forall (fun kv => key_ok (fst kv) /\ val_ok (snd kv)) kvs ->
  forall w : string, w <> "" ->
    mapM (fun seg =>
            match rsplit1 " " seg with
            | None => Raise ValueError
            | Some (val, key) =>
                val ← Ds9regfile.strip_quotes val; Ok (key, val)
            end)
      (segments_cut w kvs)
    = Ok (zip (map fst kvs ++ ["jun"])
              (unquoted w :: map (fun kv => unquoted (snd kv)) kvs)).
Proof.
  induction 1 as [|[k v] kvs [[Hks Hk] [Hvne Hv]] Hkvs IH]; intros w Hw.
  - cbn [segments_cut mapM].
    change (w +:+ " jun") with (w +:+ String " " "jun").
    rewrite rsplit1_app by reflexivity.
    rewrite (strip_quotes_unquoted w Hw). reflexivity.
  - cbn [segments_cut mapM fst snd] in *.
    change (w +:+ " " +:+ k) with (w +:+ String " " k).
    rewrite rsplit1_app by exact Hks.
    rewrite (strip_quotes_unquoted w Hw). cbn [mbind result_bind].
    rewrite (IH v Hvne). reflexivity.
Qed.

Lemma zip_keys_vals (kvs : list (string * string)) (k0 v0 : string) :
  zip (removelast (map fst (zip (map fst kvs ++ [k0])
                              (v0 :: map (fun kv => unquoted (snd kv)) kvs))))
      (List.tl (map snd (zip (map fst kvs ++ [k0])
                           (v0 :: map (fun kv => unquoted (snd kv)) kvs))))
  = map (fun kv => (fst kv, unquoted (snd kv))) kvs.
Proof.
  change (map fst (zip ?a ?b)) with ((zip a b).*1).
  change (map snd (zip ?a ?b)) with ((zip a b).*2).
  rewrite fst_zip, snd_zip
    by (cbn [length]; rewrite length_app, !length_map; cbn [length]; lia).
  rewrite removelast_last. cbn [List.tl].
  induction kvs as [|kv kvs IH]; [reflexivity|].
  cbn [map zip_with]. by rewrite IH.
Qed.

(** The parser on a text that is, after its first character, the
    segments joined by equals signs. *)
Lemma parse_ds9_attrs_segments (attrstr : string) (global_attrs : bool)
    (c : ascii) (w : string) (kvs : list (string * string)) :
  (if global_attrs then attrstr +:+ " junk"
   else "junk " +:+ (attrstr +:+ " junk"))
  = String c (join "=" (segments w kvs)) ->
  Ascii.eqb c "=" = false -> w <> "" -> contains_char "=" w = false ->
  Forall (fun kv => key_ok (fst kv) /\ val_ok (snd kv)) kvs ->
  Ds9regfile.parse_ds9_attrs attrstr global_attrs
  = Ok (map (fun kv => (fst kv, unquoted (snd kv))) kvs).
Proof.
  intros HA Hc Hw Hwf Hkvs. unfold Ds9regfile.parse_ds9_attrs.
  cbv zeta. rewrite HA. rewrite collect_mapM.
  cbn [indices_of]. rewrite Hc.
  pose proof (slices_cut kvs Hkvs (String c "") w Hwf) as Hsl.
  cbn [String.length] in Hsl. change (Z.of_nat 1 - 1) with 0 in Hsl.
  change (Z.of_nat 1) with 1 in Hsl.
  change (String c "" +:+ join "=" (segments w kvs))
    with (String c (join "=" (segments w kvs))) in Hsl.
  change (0 + 1) with 1.
  set (J := zip _ _) in *.
  assert (Hmap : forall {A B C} (g : B -> result C) (h : A -> B) (l : list A),
             mapM (fun x => g (h x)) l = mapM g (map h l)).
  { intros A B C g h l. induction l as [|x l IHl]; [reflexivity|].
    cbn [mapM map]. by rewrite IHl. }
  pose (g := fun seg : string =>
              match rsplit1 " " seg with
              | None => Raise ValueError
              | Some (val, key) =>
                  val ← Ds9regfile.strip_quotes val; Ok (key, val)
              end).
  pose (h := fun jj : Z * Z =>
              slice (String c (join "=" (segments w kvs))) (fst jj + 1) (snd jj)).
  change (mapM _ J) with (mapM (fun jj => g (h jj)) J).
  rewrite Hmap. unfold h. rewrite Hsl. unfold g.
  rewrite (segments_pairs kvs Hkvs w Hw).
  cbn [mbind result_bind]. by rewrite zip_keys_vals.
Qed.

Lemma text_segments (kvs : list (string * string)) (w : string) :
  kvs <> [] ->
  w +:+ " " +:+ attrs_text kvs +:+ " junk" = join "=" (segments w kvs).
Proof.
  revert w. induction kvs as [|[k v] kvs IH]; intros w Hne; [done|].
  cbn [segments fst snd]. rewrite join_cons_ne by apply segments_ne.
  destruct kvs as [|kv' kvs].
  - cbn [segments join]. unfold attrs_text, pair_text.
    cbn [map join fst snd]. by rewrite !append_assoc.
  - rewrite <- IH by done. unfold attrs_text.
    cbn [map]. rewrite join_cons_cons. unfold pair_text at 1.
    cbn [fst snd]. by rewrite !append_assoc.
Qed.

(** X17. [parse_ds9_attrs] reads the text [key=value key=value ...] back
    as its pairs, in order, each value without its pair of double quotes
    or of braces: for keys without space and equals sign and values that
    are not empty and have no equals sign (a value may have spaces), on
    the text alone or after a space (the comment of a polygon line), and
    with [global_attrs] on the text after [global ]. *)
Theorem parse_ds9_attrs_pairs (kvs : list (string * string)) :
  Forall (fun kv => key_ok (fst kv) /\ val_ok (snd kv)) kvs ->
  Ds9regfile.parse_ds9_attrs (attrs_text kvs) false
  = Ok (map (fun kv => (fst kv, unquoted (snd kv))) kvs) /\
  Ds9regfile.parse_ds9_attrs (" " +:+ attrs_text kvs) false
  = Ok (map (fun kv => (fst kv, unquoted (snd kv))) kvs) /\
  Ds9regfile.parse_ds9_attrs ("global " +:+ attrs_text kvs) true
  = Ok (map (fun kv => (fst kv, unquoted (snd kv))) kvs).
Proof.
  intros Hkvs. destruct (decide (kvs = [])) as [->|Hne].
  { split; [|split]; reflexivity. }
  split; [|split].
  - apply (parse_ds9_attrs_segments _ false "j" "unk" kvs);
      [|reflexivity|done|reflexivity|exact Hkvs].
    rewrite <- (text_segments kvs "unk" Hne). reflexivity.
  - apply (parse_ds9_attrs_segments _ false "j" "unk " kvs);
      [|reflexivity|done|reflexivity|exact Hkvs].
    rewrite <- (text_segments kvs "unk " Hne). by rewrite !append_assoc.
  - apply (parse_ds9_attrs_segments _ true "g" "lobal" kvs);
      [|reflexivity|done|reflexivity|exact Hkvs].
    rewrite <- (text_segments kvs "lobal" Hne). by rewrite !append_assoc.
Qed.
End Ds9AttrsFacts.

(** A global line of a region file: a plain value, a quoted value with
    spaces, a value in braces. *)
Lemma parse_ds9_attrs_pairs_witness :
  Ds9regfile.parse_ds9_attrs
    ("global "
     +:+ Ds9Attrs.attrs_text
           [ ("color", "green");
             ("font", Reference.quote +:+ "helvetica 10 normal"
                      +:+ Reference.quote);
             ("tag", "{item 3}") ])
    true
  = Ok [("color", "green"); ("font", "helvetica 10 normal");
        ("tag", "item 3")].
Proof.
  refine (eq_trans
            (proj2 (proj2 (parse_ds9_attrs_pairs
               [ ("color", "green");
                 ("font", Reference.quote +:+ "helvetica 10 normal"
                          +:+ Reference.quote);
                 ("tag", "{item 3}") ] _))) _).
  - repeat constructor; discriminate.
  - vm_compute. reflexivity.
Defined.

(** ** ds9regfile: a tree written and read *)

Section DigitFacts.
Import PyStr Ds9regfile Ds9Attrs Ds9RoundTrip.

Lemma all_chars_mono (P Q : ascii -> bool) (s : string) :
  (forall c, P c = true -> Q c = true) ->
  all_chars P s = true -> all_chars Q s = true.
Proof.
  intros HPQ. induction s as [|x s IH]; [reflexivity|].
  cbn [all_chars]. intros [Hx Hs]%andb_prop.
  by rewrite (HPQ x Hx), (IH Hs).
Qed.

Lemma string_of_uint_digits (d : Decimal.uint) :
  all_chars digit (NilEmpty.string_of_uint d) = true.
Proof. induction d; cbn [NilEmpty.string_of_uint all_chars]; done. Qed.

(** ['%d' % n] for a natural number: digits, at least one. *)
Lemma format_d_digits (n : nat) :
  all_chars digit (format_d (Z.of_nat n)) = true /\
  format_d (Z.of_nat n) <> "".
Proof.
  unfold format_d, NilZero.string_of_int.
  destruct (Z.to_int (Z.of_nat n)) as [d|d] eqn:Hd.
  - unfold NilZero.string_of_uint. destruct d; try done;
      (split; [apply (string_of_uint_digits (_ d))|done]).
  - destruct n; discriminate.
Qed.

Lemma digits_free (c : ascii) (n : nat) :
  digit c = false -> contains_char c (format_d (Z.of_nat n)) = false.
Proof.
  intros Hc. eapply all_chars_contains; [apply format_d_digits|exact Hc].
Qed.

(** A separator that does not start in [s]. *)
Lemma split_go_free (c : ascii) (sub cur s : string) :
  contains_char c s = false ->
  split_go (String c sub) 0 cur s = [cur +:+ s].
Proof.
  revert cur. induction s as [|x s IH]; intros cur Hs.
  - by rewrite append_nil_r.
  - cbn [contains_char] in Hs. destruct (Ascii.eqb_spec x c) as [|Hx]; [done|].
    cbn [split_go String.prefix].
    destruct (ascii_dec c x) as [->|_]; [done|].
    rewrite (IH _ Hs), append_assoc. reflexivity.
Qed.

Lemma contains_free (c : ascii) (sub s : string) :
  contains_char c s = false -> contains (String c sub) s = false.
Proof.
  induction s as [|x s IH]; [reflexivity|].
  cbn [contains_char contains String.prefix].
  destruct (Ascii.eqb_spec x c) as [|Hx]; [done|].
  destruct (ascii_dec c x) as [->|_]; [done|]. exact IH.
Qed.

Lemma last_char_snoc (s : string) (x : ascii) :
  last_char (s +:+ String x "") = Some x.
Proof.
  induction s as [|y s IH]; [reflexivity|].
  rewrite append_cons. cbn [last_char]. rewrite IH.
  by destruct (s +:+ String x "") eqn:Hs; [destruct s|].
Qed.

Lemma unquoted_braces (s : string) : unquoted ("{" +:+ s +:+ "}") = s.
Proof.
  unfold unquoted. rewrite append_cons, append_nil_l. cbn [first_char].
  change (String "{" (s +:+ "}")) with ("{" +:+ s +:+ String "}" "").
  rewrite <- append_assoc, last_char_snoc, append_assoc.
  replace (Ascii.eqb "{" "{" && Ascii.eqb "}" "}") with true by reflexivity.
  rewrite orb_true_r.
  exact (slice_to_last "{" s "}").
Qed.

(** A word without whitespace before the rest of the text. *)
Lemma split_ws_word (cur w rest : string) :
  all_chars (fun c => negb (is_space c)) w = true ->
  split_ws_go cur (w +:+ rest) = split_ws_go (cur +:+ w) rest.
Proof.
  revert cur. induction w as [|c w IH]; intros cur Hw.
  - by rewrite append_nil_r.
  - cbn [all_chars] in Hw. apply andb_true_iff in Hw as [Hc Hw].
    apply negb_true_iff in Hc.
    rewrite append_cons. cbn [split_ws_go]. rewrite Hc.
    rewrite (IH _ Hw), append_assoc. reflexivity.
Qed.

Lemma digit_not_space (c : ascii) :
  digit c = true -> negb (is_space c) = true.
Proof.
  destruct c as [[] [] [] [] [] [] [] []]; vm_compute; congruence.
Qed.

Lemma split_ws_tag (name : string) (n : nat) :
  name <> "" ->
  all_chars (fun c => negb (is_space c)) name = true ->
  split_ws (name +:+ " " +:+ format_d (Z.of_nat n))
  = [name; format_d (Z.of_nat n)].
Proof.
  intros Hne Hname. destruct (format_d_digits n) as [Hd Hn].
  unfold split_ws. rewrite (split_ws_word _ _ _ Hname), append_nil_l.
  rewrite append_cons, append_nil_l. cbn [split_ws_go].
  replace (is_space " ") with true by reflexivity.
  assert (Hw : split_ws_go "" (format_d (Z.of_nat n))
               = [format_d (Z.of_nat n)]).
  { rewrite <- (append_nil_r (format_d (Z.of_nat n))) at 1.
    rewrite split_ws_word
      by (eapply all_chars_mono; [apply digit_not_space|exact Hd]).
    rewrite append_nil_l. cbn [split_ws_go].
    by destruct (format_d (Z.of_nat n)). }
  rewrite Hw. by destruct name.
Qed.
End DigitFacts.

Section WriteRead.
Context {float_t geom header : Type}.
Context `{Builtins float_t} `{Shapely float_t geom}.
Import PyStr GeosetModel Ds9regfile Ds9Attrs Ds9RoundTrip.

(** [int] reads the numbers that ['{0:d}'] writes. *)
Hypothesis int_format : forall n : nat,
  int_literal (format_d (Z.of_nat n)) = Some (Z.of_nat n).

Lemma contains_prefix (sub s : string) :
  String.prefix sub s = true -> contains sub s = true.
Proof. intros Hp. destruct s; cbn [contains]; by rewrite Hp. Qed.

Lemma contains_cons (sub s : string) (c : ascii) :
  contains sub s = true -> contains sub (String c s) = true.
Proof. intros Hs. cbn [contains]. rewrite Hs. by destruct (String.prefix _ _). Qed.

Lemma split_last_background (rest : string) :
  contains_char "b" rest = false ->
  split_last "background" (" background" +:+ rest) = rest.
Proof.
  intros Hrest. unfold split_last, split.
  rewrite !append_cons, append_nil_l.
  cbn [split_go String.prefix String.length Nat.sub].
  destruct (ascii_dec "b" " ") as [|_]; [discriminate|].
  repeat (destruct (ascii_dec _ _) as [_|]; [|done]).
  replace (String.prefix "" rest) with true by (by destruct rest).
  cbn [split_go]. rewrite (split_go_free "b" _ _ _ Hrest).
  reflexivity.
Qed.

Lemma tags_free (c : ascii) (i j k : nat) :
  digit c = false ->
  contains_char c " tag={itemgeopoly}" = false ->
  contains_char c
    (tag_text "item" i +:+ tag_text "geo" j +:+ tag_text "poly" k) = false.
Proof.
  intros Hd Hc. unfold tag_text.
  rewrite !contains_char_app, !(digits_free c _ Hd).
  cbn [contains_char] in *.
  repeat match type of Hc with
         | (if ?b then _ else _) = _ => destruct b; [discriminate|]
         end.
  reflexivity.
Qed.

Lemma written_tags (i j k : nat) :
  parse_ds9_attrs
    (tag_text "item" i +:+ tag_text "geo" j +:+ tag_text "poly" k) false
  = Ok [("tag", "item " +:+ format_d (Z.of_nat i));
        ("tag", "geo " +:+ format_d (Z.of_nat j));
        ("tag", "poly " +:+ format_d (Z.of_nat k))].
Proof.
  rewrite (parse_ds9_attrs_segments _ false "j" "unk "
             [("tag", "{" +:+ ("item " +:+ format_d (Z.of_nat i)) +:+ "}");
              ("tag", "{" +:+ ("geo " +:+ format_d (Z.of_nat j)) +:+ "}");
              ("tag", "{" +:+ ("poly " +:+ format_d (Z.of_nat k)) +:+ "}")]).
  - cbn [map fst snd]. by rewrite !unquoted_braces.
  - unfold tag_text. cbn [segments join fst snd].
    rewrite !append_assoc. reflexivity.
  - reflexivity.
  - done.
  - reflexivity.
  - repeat (constructor;
            [split; [by split|split; [by rewrite append_cons|]];
             cbn [snd];
             rewrite !contains_char_app, digits_free by reflexivity;
             reflexivity|]).
    constructor.
Qed.

Lemma written_indices (i j k : nat) :
  mapM parse_index
    [("tag", "item " +:+ format_d (Z.of_nat i));
     ("tag", "geo " +:+ format_d (Z.of_nat j));
     ("tag", "poly " +:+ format_d (Z.of_nat k))]
  = Ok [("item", Z.of_nat i); ("geo", Z.of_nat j); ("poly", Z.of_nat k)].
Proof.
  apply three_indices; try apply int_format.
  - exact (split_ws_tag "item" i ltac:(done) eq_refl).
  - exact (split_ws_tag "geo" j ltac:(done) eq_refl).
  - exact (split_ws_tag "poly" k ltac:(done) eq_refl).
Qed.

(** The comment of a line that [write] produces. *)
Lemma written_comment (hole : bool) (i j k : nat) :
  parse_comment
    (split_last "#"
       (" #" +:+ (if hole then " background" else "")
        +:+ tag_text "item" i +:+ tag_text "geo" j +:+ tag_text "poly" k))
  = Ok (hole, [("item", Z.of_nat i); ("geo", Z.of_nat j);
               ("poly", Z.of_nat k)]).
Proof.
  set (T := tag_text "item" i +:+ tag_text "geo" j +:+ tag_text "poly" k).
  assert (Hb : contains_char "b" T = false) by (by apply tags_free).
  assert (Hh : contains_char "#" T = false) by (by apply tags_free).
  assert (Hsplit : split_last "#"
                     (" #" +:+ (if hole then " background" else "") +:+ T)
                   = (if hole then " background" else "") +:+ T).
  { change (" #" +:+ ?x) with (" " +:+ String "#" x).
    unfold split_last, split.
    rewrite (split_go_char "#" "" " ") by reflexivity.
    rewrite split_go_free; [by rewrite append_nil_l|].
    rewrite contains_char_app, Hh. by destruct hole. }
  rewrite Hsplit.
  apply (parse_comment_eq _ hole
           [("tag", "item " +:+ format_d (Z.of_nat i));
            ("tag", "geo " +:+ format_d (Z.of_nat j));
            ("tag", "poly " +:+ format_d (Z.of_nat k))]).
  - destruct hole.
    + change (" background" +:+ T) with (String " " ("background" +:+ T)).
      apply contains_cons, contains_prefix, prefix_append.
    + rewrite append_nil_l. by apply contains_free.
  - destruct hole.
    + rewrite (split_last_background _ Hb). apply written_tags.
    + rewrite append_nil_l. apply written_tags.
  - apply written_indices.
Qed.

(** A line that [write] produces for a ring is a whole line that reads
    as the polygon of the ring with the indices and the mark written. *)
Lemma written_line (fmt : string) (ring : list (float_t * float_t))
    (q : geom) (hole : bool) (i j k : nat) :
  ring_read fmt ring q ->
  whole_line (polygon_line (ring_text fmt ring) hole (tag_text "item" i)
                (tag_text "geo" j) (tag_text "poly" k)) /\
  reads_as (polygon_line (ring_text fmt ring) hole (tag_text "item" i)
              (tag_text "geo" j) (tag_text "poly" k))
    (mkTagged (Z.of_nat i) (Z.of_nat j) (Z.of_nat k) hole q).
Proof.
  intros (ring' & Hring & Hq).
  set (T := " #" +:+ (if hole then " background" else "")
            +:+ tag_text "item" i +:+ tag_text "geo" j +:+ tag_text "poly" k).
  assert (HT : contains_char (ascii_of_nat 10) T = false).
  { unfold T. do 2 rewrite contains_char_app.
    rewrite (tags_free _ i j k) by reflexivity.
    by destruct hole. }
  assert (Hline : polygon_line (ring_text fmt ring) hole (tag_text "item" i)
                    (tag_text "geo" j) (tag_text "poly" k)
                  = "polygon(" +:+ ring_text fmt ring +:+ ")" +:+ T +:+ nl).
  { unfold polygon_line, T. rewrite !append_assoc. reflexivity. }
  rewrite Hline. split.
  - exists ("polygon(" +:+ ring_text fmt ring +:+ ")" +:+ T).
    split; [by rewrite !append_assoc|].
    rewrite !contains_char_app, HT.
    destruct Hring as [Htoks _].
    unfold ring_text. rewrite tokens_free_of by done. reflexivity.
  - apply (rereads_line fmt ring ring' q T hole
             [("item", Z.of_nat i); ("geo", Z.of_nat j); ("poly", Z.of_nat k)]);
      [exact Hring|exact Hq|exact HT|apply written_comment|reflexivity].
Qed.

Abbreviation store := (@GeosetModel.store float_t geom header).

Lemma foldM_snoc {A B} (f : B -> A -> result B) (b : B) (l : list A) (x : A) :
  foldM f b (l ++ [x]) = (b' ← foldM f b l; f b' x).
Proof.
  revert b. induction l as [|y l IH]; intros b; cbn [foldM app].
  - cbn [mbind result_bind]. by destruct (f b x).
  - destruct (f b y) as [b'|e]; cbn [mbind result_bind]; [apply IH|done].
Qed.

Lemma foldM_cons_ok {A B} (f : B -> A -> result B) (b : B) (x : A)
    (l : list A) (b' r : B) :
  f b x = Ok b' -> foldM f b' l = Ok r -> foldM f b (x :: l) = Ok r.
Proof. intros Hx Hl. cbn [foldM]. by rewrite Hx. Qed.

(** One more line for the reader. *)
Lemma append_line (lines : list string) (root root' : list (list geom))
    (prev prev' : option (Z * Z * Z)) (line : string) (ln : tagged_line) :
  lines_read lines root prev -> whole_line line -> reads_as line ln ->
  spec_step (root, prev) ln = Ok (root', prev') ->
  lines_read (lines ++ [line]) root' prev'.
Proof.
  intros (L & lns & -> & Hw & Hr & Hf) Hline Hln Hstep.
  exists (L ++ [line]), (lns ++ [ln]). split; [reflexivity|].
  split; [apply Forall_app; split; [done|by constructor]|].
  split; [apply Forall2_app; [done|constructor; [exact Hln|constructor]]|].
  rewrite foldM_snoc, Hf. exact Hstep.
Qed.

Lemma spec_new_group (root : list (list geom)) (prev : option (Z * Z * Z))
    (i : nat) (j k : Z) (hole : bool) (q : geom) :
  before_item i prev ->
  spec_step (root, prev) (mkTagged (Z.of_nat i) j k hole q)
  = Ok (root ++ [[q]], Some (Z.of_nat i, j, k)).
Proof.
  intros Hp. unfold spec_step. cbn [t_item t_geo t_poly t_hole t_polygon].
  rewrite bool_decide_eq_true_2; [reflexivity|].
  destruct prev as [[[i' j'] k']|]; [|done].
  cbn in *. intros [= ->]. lia.
Qed.

Lemma spec_new_geo (r : list (list geom)) (grp : list geom)
    (i j j' k k' : Z) (hole : bool) (q : geom) :
  j' <> j ->
  spec_step (r ++ [grp], Some (i, j', k')) (mkTagged i j k hole q)
  = Ok (r ++ [grp ++ [q]], Some (i, j, k)).
Proof.
  intros Hj. unfold spec_step. cbn [t_item t_geo t_poly t_hole t_polygon].
  rewrite bool_decide_eq_false_2 by (cbn; intros Hne; by apply Hne).
  rewrite bool_decide_eq_true_2 by (cbn; congruence).
  by rewrite on_last_snoc.
Qed.

Lemma spec_union (r : list (list geom)) (grp : list geom) (g u : geom)
    (i j k k' : Z) (hole : bool) (q : geom) :
  k' <> k -> geom_union g q = Ok u ->
  spec_step (r ++ [grp ++ [g]], Some (i, j, k')) (mkTagged i j k hole q)
  = Ok (r ++ [grp ++ [u]], Some (i, j, k)).
Proof.
  intros Hk Hu. unfold spec_step. cbn [t_item t_geo t_poly t_hole t_polygon].
  rewrite bool_decide_eq_false_2 by (cbn; intros Hne; by apply Hne).
  rewrite bool_decide_eq_false_2 by (cbn; intros Hne; by apply Hne).
  rewrite bool_decide_eq_true_2 by (cbn; congruence).
  rewrite on_last_snoc, on_last_snoc, Hu. reflexivity.
Qed.

Lemma spec_hole (r : list (list geom)) (grp : list geom) (g d : geom)
    (i j k : Z) (q : geom) :
  geom_difference g q = Ok d ->
  spec_step (r ++ [grp ++ [g]], Some (i, j, k)) (mkTagged i j k true q)
  = Ok (r ++ [grp ++ [d]], Some (i, j, k)).
Proof.
  intros Hd. unfold spec_step. cbn [t_item t_geo t_poly t_hole t_polygon].
  rewrite !bool_decide_eq_false_2 by (cbn; intros Hne; by apply Hne).
  rewrite on_last_snoc, on_last_snoc, Hd. reflexivity.
Qed.

(** The bodies of the loops of [write]. *)
Local Abbreviation hole_line fmt i j k :=
  (fun lines hole =>
     lines ++ [polygon_line (ring_text fmt hole) true (tag_text "item" i)
                 (tag_text "geo" j) (tag_text "poly" k)]).

Local Abbreviation part_body fmt i j :=
  (fun lines (ks : nat * geom) =>
     ext ← exterior_coords (snd ks);
     holes ← interiors_coords (snd ks);
     Ok (fold_left (hole_line fmt i j (fst ks)) holes
           (lines ++ [polygon_line (ring_text fmt ext) false
                        (tag_text "item" i) (tag_text "geo" j)
                        (tag_text "poly" (fst ks))]))).

Local Abbreviation geo_body fmt i :=
  (fun lines (jg : nat * Geo float_t geom) =>
     poly ← match geo_geo (snd jg) with
            | Some p => Ok p
            | None => Raise AttributeError
            end;
     polys ← (if String.eqb (geom_type poly) "Polygon" then Ok [poly]
              else geom_iter poly);
     foldM (part_body fmt i (fst jg)) lines (enumerate polys)).

Local Abbreviation item_body fmt :=
  (fun lines (ii : nat * Item float_t geom) =>
     foldM (geo_body fmt (fst ii)) lines (enumerate (item_geos (snd ii)))).

(** The lines of the holes of a polygon: each is taken off the current
    Primitive. *)
Lemma holes_read (fmt : string) (i j k : nat) (r : list (list geom))
    (grp : list geom) (hs : list (list (float_t * float_t)))
    (qhs : list geom) :
  Forall2 (ring_read fmt) hs qhs ->
  forall lines g d,
    foldM geom_difference g qhs = Ok d ->
    lines_read lines (r ++ [grp ++ [g]])
      (Some (Z.of_nat i, Z.of_nat j, Z.of_nat k)) ->
    lines_read (fold_left (hole_line fmt i j k) hs lines)
      (r ++ [grp ++ [d]]) (Some (Z.of_nat i, Z.of_nat j, Z.of_nat k)).
Proof.
  induction 1 as [|h qh hs qhs Hh _ IH]; intros lines g d Hd Hl.
  - injection Hd as <-. exact Hl.
  - cbn [foldM] in Hd.
    destruct (geom_difference g qh) as [g'|] eqn:Hg; [|done].
    cbn [fold_left]. apply (IH _ g' d Hd).
    destruct (written_line fmt h qh true i j k Hh) as [Hw Hr].
    eapply append_line; [exact Hl|exact Hw|exact Hr|].
    by apply spec_hole.
Qed.

(** The lines of the first polygon of a [Geo]: a new Primitive, in a new
    Group if the [Geo] is the first written of its item. *)
Lemma part_first (fmt : string) (i j : nat) (r root : list (list geom))
    (grp : list geom) (prev : option (Z * Z * Z)) (lines : list string)
    (p : geom) (part : geom * list geom) (d0 : geom) :
  next_geo i j r grp root prev -> lines_read lines root prev ->
  part_read fmt p part ->
  foldM geom_difference (fst part) (snd part) = Ok d0 ->
  exists lines',
    part_body fmt i j lines (0%nat, p) = Ok lines' /\
    lines_read lines' (r ++ [grp ++ [d0]])
      (Some (Z.of_nat i, Z.of_nat j, 0)).
Proof.
  intros Hnext Hl (e & hs & He & Hhs & Hre & Hrh) Hd0.
  cbn [fst snd]. rewrite He, Hhs. cbn [mbind result_bind].
  eexists. split; [reflexivity|].
  apply (holes_read fmt i j 0 r grp hs (snd part) Hrh _ (fst part) d0 Hd0).
  destruct (written_line fmt e (fst part) false i j 0 Hre) as [Hw Hr].
  eapply append_line; [exact Hl|exact Hw|exact Hr|].
  destruct Hnext as [(-> & -> & Hb)|(_ & -> & j' & k' & -> & Hj)].
  - by apply spec_new_group.
  - apply spec_new_geo. lia.
Qed.

(** The lines of a further polygon of a [Geo]: merged into the
    Primitive. *)
Lemma part_next (fmt : string) (i j k : nat) (k' : Z)
    (r : list (list geom)) (grp : list geom) (g d : geom)
    (lines : list string) (p : geom) (part : geom * list geom) :
  k' < Z.of_nat k ->
  lines_read lines (r ++ [grp ++ [g]]) (Some (Z.of_nat i, Z.of_nat j, k')) ->
  part_read fmt p part -> merge_part g part = Ok d ->
  exists lines',
    part_body fmt i j lines (k, p) = Ok lines' /\
    lines_read lines' (r ++ [grp ++ [d]])
      (Some (Z.of_nat i, Z.of_nat j, Z.of_nat k)).
Proof.
  intros Hk Hl (e & hs & He & Hhs & Hre & Hrh) Hd.
  unfold merge_part in Hd.
  destruct (geom_union g (fst part)) as [u|] eqn:Hu; [|done].
  cbn [mbind result_bind] in Hd.
  cbn [fst snd]. rewrite He, Hhs. cbn [mbind result_bind].
  eexists. split; [reflexivity|].
  apply (holes_read fmt i j k r grp hs (snd part) Hrh _ u d Hd).
  destruct (written_line fmt e (fst part) false i j k Hre) as [Hw Hr].
  eapply append_line; [exact Hl|exact Hw|exact Hr|].
  apply spec_union; [lia|exact Hu].
Qed.

Lemma parts_read (fmt : string) (i j : nat) (r : list (list geom))
    (grp : list geom) (polys : list geom) (parts : list (geom * list geom)) :
  Forall2 (part_read fmt) polys parts ->
  forall (k : nat) (k' : Z) lines g d,
    k' < Z.of_nat k ->
    foldM merge_part g parts = Ok d ->
    lines_read lines (r ++ [grp ++ [g]])
      (Some (Z.of_nat i, Z.of_nat j, k')) ->
    exists lines' k'',
      foldM (part_body fmt i j) lines (zip (seq k (length polys)) polys)
      = Ok lines' /\
      lines_read lines' (r ++ [grp ++ [d]])
        (Some (Z.of_nat i, Z.of_nat j, k'')).
Proof.
  induction 1 as [|p part polys parts Hp _ IH]; intros k k' lines g d Hk Hd Hl.
  - injection Hd as <-. by exists lines, k'.
  - cbn [foldM] in Hd.
    destruct (merge_part g part) as [g'|] eqn:Hg; [|done].
    cbn [mbind result_bind] in Hd.
    destruct (part_next fmt i j k k' r grp g g' lines p part Hk Hl Hp Hg)
      as (lines1 & Hrun1 & Hl1).
    destruct (IH (S k) (Z.of_nat k) lines1 g' d ltac:(lia) Hd Hl1)
      as (lines' & k'' & Hrun & Hl').
    exists lines', k''. split; [|exact Hl'].
    cbn [length seq zip_with foldM].
    etransitivity; [|exact Hrun].
    by rewrite Hrun1.
Qed.

(** The lines of one [Geo]. *)
Lemma geo_read (fmt : string) (i j : nat) (r root : list (list geom))
    (grp : list geom) (prev : option (Z * Z * Z)) (lines : list string)
    (ge : Geo float_t geom) (d : geom) :
  geo_written fmt ge d ->
  next_geo i j r grp root prev -> lines_read lines root prev ->
  exists lines' root' prev',
    geo_body fmt i lines (j, ge) = Ok lines' /\
    lines_read lines' root' prev' /\
    next_geo i (S j) r (grp ++ [d]) root' prev'.
Proof.
  intros (p & polys & part & parts & d0 & Hp & Hpolys & Hparts & Hd0 & Hd)
    Hnext Hl.
  apply Forall2_cons_inv_r in Hparts as (p0 & polys' & Hp0 & Hrest & ->).
  destruct (part_first fmt i j r root grp prev lines p0 part d0 Hnext Hl Hp0
              Hd0) as (lines1 & Hrun1 & Hl1).
  destruct (parts_read fmt i j r grp polys' parts Hrest 1 0 lines1 d0 d
              ltac:(lia) Hd Hl1) as (lines' & k'' & Hrun & Hl').
  exists lines', (r ++ [grp ++ [d]]), (Some (Z.of_nat i, Z.of_nat j, k'')).
  split; [|split; [exact Hl'|]].
  - cbn [fst snd]. rewrite Hp. cbn [mbind result_bind].
    unfold polygons_of in Hpolys. rewrite Hpolys. cbn [mbind result_bind].
    unfold enumerate. cbn [length seq zip_with foldM].
    etransitivity; [|exact Hrun].
    by rewrite Hrun1.
  - right. split; [by destruct grp|]. split; [reflexivity|].
    exists (Z.of_nat j), k''. split; [reflexivity|lia].
Qed.

Lemma geos_read (fmt : string) (i : nat) (r : list (list geom))
    (geos : list (Geo float_t geom)) (ds : list geom) :
  Forall2 (geo_written fmt) geos ds ->
  forall (j : nat) grp lines root prev,
    next_geo i j r grp root prev -> lines_read lines root prev ->
    exists lines' root' prev',
      foldM (geo_body fmt i) lines (zip (seq j (length geos)) geos)
      = Ok lines' /\
      lines_read lines' root' prev' /\
      next_geo i (j + length geos) r (grp ++ ds) root' prev'.
Proof.
  induction 1 as [|ge d geos ds Hge _ IH]; intros j grp lines root prev Hn Hl.
  - exists lines, root, prev. split; [reflexivity|]. split; [exact Hl|].
    cbn [length]. by rewrite Nat.add_0_r, app_nil_r.
  - destruct (geo_read fmt i j r root grp prev lines ge d Hge Hn Hl)
      as (lines1 & root1 & prev1 & Hrun1 & Hl1 & Hn1).
    destruct (IH (S j) (grp ++ [d]) lines1 root1 prev1 Hn1 Hl1)
      as (lines' & root' & prev' & Hrun & Hl' & Hn').
    exists lines', root', prev'. split; [|split; [exact Hl'|]].
    + cbn [length seq zip_with foldM].
      etransitivity; [|exact Hrun].
      by rewrite Hrun1.
    + cbn [length]. rewrite <- app_assoc in Hn'.
      by replace (j + S (length geos))%nat with (S j + length geos)%nat by lia.
Qed.

Lemma before_item_S (i : nat) (prev : option (Z * Z * Z)) :
  before_item i prev -> before_item (S i) prev.
Proof. destruct prev as [[[i' j'] k']|]; cbn; [lia|done]. Qed.

(** The lines of the items: one Group for each item that has a [Geo]. *)
Lemma items_read (fmt : string) (items : list (Item float_t geom))
    (dss : list (list geom)) :
  Forall2 (fun it grp => Forall2 (geo_written fmt) (item_geos it) grp)
    items dss ->
  forall (i : nat) lines root prev,
    lines_read lines root prev -> before_item i prev ->
    exists lines' prev',
      foldM (item_body fmt) lines (zip (seq i (length items)) items)
      = Ok lines' /\
      lines_read lines' (root ++ filter (fun grp => grp <> []) dss) prev'.
Proof.
  induction 1 as [|it ds items dss Hit _ IH]; intros i lines root prev Hl Hb.
  - exists lines, prev. split; [reflexivity|]. by rewrite app_nil_r.
  - destruct (geos_read fmt i root (item_geos it) ds Hit 0 [] lines root prev
                ltac:(by left) Hl)
      as (lines1 & root1 & prev1 & Hrun1 & Hl1 & Hn1).
    cbn [app] in Hn1.
    assert (Hnext : root1 = root ++ filter (fun grp => grp <> []) [ds] /\
                    before_item (S i) prev1).
    { destruct Hn1 as [(-> & -> & Hb1)|(Hne & -> & j' & k' & -> & _)].
      - split; [by rewrite app_nil_r|by apply before_item_S].
      - split; [|cbn; lia].
        by rewrite filter_cons_True. }
    destruct Hnext as [-> Hb1].
    destruct (IH (S i) lines1 _ prev1 Hl1 Hb1) as (lines' & prev' & Hrun & Hl').
    exists lines', prev'. split.
    + cbn [length seq zip_with].
      apply (foldM_cons_ok _ _ _ _ lines1); [exact Hrun1|exact Hrun].
    + rewrite <- app_assoc in Hl'.
      by rewrite <- filter_app in Hl'.
Qed.

Lemma whole_lines (L : list string) :
  Forall whole_line L ->
  exists bodies,
    L = map (fun b => b +:+ nl) bodies /\
    Forall (fun b => contains_char (ascii_of_nat 10) b = false) bodies.
Proof.
  induction 1 as [|line L (b & -> & Hb) _ (bodies & -> & Hbodies)].
  - by exists [].
  - exists (b :: bodies). split; [reflexivity|by constructor].
Qed.

(** X18. A tree written by [write] and read by [read]: when every [Geo]
    of the tree has a geometry of at least one polygon and the rings are
    read back from their texts, the reader returns a tree with the
    coordinate system [physical] as its only attribute, with one [Item]
    for each item of the tree that has a [Geo] (an item without is not
    written), in order, and in it one [Geo] for each [Geo] of the item:
    the polygon read from the exterior of its first polygon less, one by
    one, the polygons read from the holes, then merged with each further
    polygon of a MultiPolygon, the union with its exterior less its
    holes. Attributes below the root and the header are not written. *)
Theorem write_read_geoset (geoset : Geoset float_t geom header)
    (root : list (list geom)) (s0 : store) :
  Forall2 (fun it grp => Forall2 (geo_written "{0:.15f}") (item_geos it) grp)
    (gs_items geoset) root ->
  exists content s',
    write geoset None = Ok content /\
    read content s0 = Ok (VGeoset (length (st_geosets s0)), s') /\
    reify_geoset s' (VGeoset (length (st_geosets s0)))
    = Some (tree_of (filter (fun grp => grp <> []) root)
              (Some [("coordsys", SStr "physical")])).
Proof.
  intros Hroot.
  destruct (items_read "{0:.15f}" (gs_items geoset) root Hroot 0
              ["physical" +:+ nl] [] None) as (lines & prev & Hrun & Hl).
  { exists [], []. by repeat split; try constructor. }
  { exact I. }
  cbn [app] in Hl.
  destruct Hl as (L & lns & -> & Hw & Hr & Hspec).
  destruct (whole_lines L Hw) as (bodies & -> & Hbodies).
  assert (Hlines : write_lines geoset None ".15f"
                   = Ok (map (fun b => b +:+ nl) ("physical" :: bodies)))
    by exact Hrun.
  pose proof (read_loop_refines s0 (Some [("coordsys", SStr "physical")])
                _ lns Hr [] None init_locals ltac:(by repeat split)) as Hloop.
  rewrite Hspec in Hloop. destruct Hloop as (l' & Hloop & _).
  eexists _, (layout s0 (filter (fun grp => grp <> []) root)
                (Some [("coordsys", SStr "physical")])).
  split; [|split; [|apply reify_layout]].
  - unfold write. rewrite Hlines. reflexivity.
  - unfold read. rewrite readlines_lines by (by constructor).
    unfold read_lines. cbn [map read_loop].
    erewrite bind_ok; [|apply Geoset_init_layout].
    erewrite bind_ok.
    2: { erewrite bind_ok; [|apply coordsys_line]. exact Hloop. }
    reflexivity.
Qed.
End WriteRead.

(** The reference [int] reads the numbers that ['{0:d}'] writes. *)
Lemma ref_int_format (n : nat) :
  int_literal (float_t := Reference.rfloat) (format_d (Z.of_nat n))
  = Some (Z.of_nat n).
Proof.
  change (Reference.ref_int_literal (format_d (Z.of_nat n))
          = Some (Z.of_nat n)).
  unfold Reference.ref_int_literal, format_d.
  rewrite NilZero.isi.
  - cbn. f_equal. apply DecimalZ.of_to.
  - destruct n; [done|]. cbn. intros [= Hp].
    by apply DecimalPos.Unsigned.to_uint_nonnil in Hp.
  - by destruct n.
Qed.

(** The tree [mixed_tree] of the reference libraries, written and read
    back: the item without [Geo] is gone, the MultiPolygon is put
    together again from its two polygons and the hole. *)
Lemma write_read_geoset_witness :
  exists content s',
    Ds9regfile.write ReferenceTree.mixed_tree None = Ok content /\
    Ds9regfile.read content GeosetModel.empty_store
    = Ok (GeosetModel.VGeoset 0, s') /\
    GeosetModel.reify_geoset s' (GeosetModel.VGeoset 0)
    = Some (Ds9regfile.tree_of (header := Reference.rheader)
              [ [ Reference.triangle;
                  Reference.RMulti
                    [Reference.holed_square; ReferenceTree.far_triangle] ];
                [ Reference.holed_square ] ]
              (Some [("coordsys", SStr "physical")])).
Proof.
  apply (write_read_geoset (float_t := Reference.rfloat)
           (geom := Reference.rgeom) (header := Reference.rheader)
           ref_int_format
           ReferenceTree.mixed_tree
           [ [];
             [ Reference.triangle;
               Reference.RMulti
                 [Reference.holed_square; ReferenceTree.far_triangle] ];
             [ Reference.holed_square ] ]
           GeosetModel.empty_store).
  assert (Hring : forall ring : list (Z * Z),
            Ds9regfile.rereads "{0:.15f}" ring ring ->
            Ds9RoundTrip.ring_read "{0:.15f}" ring (Reference.RPolygon ring []))
    by (intros ring Hr; exists ring; by split).
  repeat constructor.
  - exists Reference.triangle, [Reference.triangle],
      (Reference.triangle, []), [], Reference.triangle.
    repeat split. constructor; [|constructor].
    eexists _, _. repeat split; [|constructor].
    apply Hring. split; [apply (bool_decide_unpack _)|]; vm_compute; reflexivity.
  - exists (Reference.RMulti
              [Reference.holed_square; ReferenceTree.far_triangle]),
      [Reference.holed_square; ReferenceTree.far_triangle],
      (Reference.RPolygon Reference.outer_ring [],
       [Reference.RPolygon Reference.hole_ring []]),
      [(ReferenceTree.far_triangle, [])], Reference.holed_square.
    repeat split.
    repeat (constructor;
            [eexists _, _; split; [reflexivity|]; split; [reflexivity|];
             split;
             [|repeat (constructor; [|])]|]).
    all: try (apply Hring; split; [apply (bool_decide_unpack _)|];
              vm_compute; reflexivity).
    all: constructor.
  - exists Reference.holed_square, [Reference.holed_square],
      (Reference.RPolygon Reference.outer_ring [],
       [Reference.RPolygon Reference.hole_ring []]), [],
      Reference.holed_square.
    repeat split. constructor; [|constructor].
    eexists _, _. repeat split; [|constructor; [|constructor]];
      (apply Hring; split; [apply (bool_decide_unpack _)|];
       vm_compute; reflexivity).
Defined.

(** ** ds9regfile: the lines before the polygons *)

Section Ds9Header.
Context {float_t geom header : Type}.
Context `{Builtins float_t} `{Shapely float_t geom}.
Import PyStr GeosetModel Ds9regfile Ds9Attrs.

Abbreviation store := (@GeosetModel.store float_t geom header).

Lemma set_attrs_layout (s0 : store) (a a' : option (odict float_t)) :
  set_geoset_attrs (VGeoset (length (st_geosets s0))) a' (layout s0 [] a)
  = Ok (tt, layout s0 [] a').
Proof.
  unfold set_geoset_attrs, update_geoset, bind, get_geoset, layout.
  cbn [st_geosets]. rewrite list_lookup_middle by reflexivity.
  cbn [st_lists st_geos st_items st_geosets go_items go_attrs go_hdr go__geos].
  rewrite insert_app_r_alt by reflexivity. rewrite Nat.sub_diag.
  reflexivity.
Qed.

Lemma get_geoset_layout (s0 : store) (a : option (odict float_t)) :
  get_geoset (VGeoset (length (st_geosets s0))) (layout s0 [] a)
  = Ok (mkGeosetObj (VList (length (st_lists s0))) a None VNone,
        layout s0 [] a).
Proof.
  unfold get_geoset, layout. cbn [st_geosets].
  by rewrite list_lookup_middle by reflexivity.
Qed.

(** A comment line or a blank line. *)
Lemma skipped_line (geoset : value) (l : locals) (line : string) :
  startswith (split_first nl line) "#" = true \/ split_first nl line = "" ->
  read_line (header := header) geoset l line = ret l.
Proof.
  intros [Hc|He]; unfold read_line.
  - by rewrite Hc.
  - by rewrite He.
Qed.

Lemma skipped_lines (geoset : value) (l : locals) (comments rest : list string)
    (s : store) :
  Forall (fun line => startswith (split_first nl line) "#" = true \/
                      split_first nl line = "") comments ->
  read_loop geoset l (comments ++ rest) s = read_loop geoset l rest s.
Proof.
  induction 1 as [|line comments Hline _ IH]; [reflexivity|].
  cbn [app read_loop]. by rewrite (skipped_line _ _ _ Hline), bind_ret.
Qed.

Lemma parse_global (kvs : list (string * string)) :
  Forall (fun kv => key_ok (fst kv) /\ val_ok (snd kv)) kvs ->
  parse_ds9_attrs ("global " +:+ attrs_text kvs) true
  = Ok (map (fun kv => (fst kv, unquoted (snd kv))) kvs).
Proof.
  intros Hkvs. destruct (decide (kvs = [])) as [->|Hne]; [reflexivity|].
  apply (parse_ds9_attrs_segments _ true "g" "lobal" kvs);
    [|reflexivity|done|reflexivity|exact Hkvs].
  rewrite <- (text_segments kvs "lobal" Hne). by rewrite !append_assoc.
Qed.

(** The line of the global attributes: they become the attributes of the
    [Geoset], in place of those it has. *)
Lemma global_line (s0 : store) (l : locals) (a : option (odict float_t))
    (kvs : list (string * string)) :
  Forall (fun kv => key_ok (fst kv) /\ val_ok (snd kv)) kvs ->
  contains_char (ascii_of_nat 10) (attrs_text kvs) = false ->
  read_line (VGeoset (length (st_geosets s0))) l
    ("global " +:+ attrs_text kvs +:+ nl) (layout s0 [] a)
  = Ok (l, layout s0 []
             (Some (OrderedDict
                      (map (fun kv => (fst kv, SStr (unquoted (snd kv))))
                         kvs)))).
Proof.
  intros Hkvs Hnl. unfold read_line.
  assert (Hbody : split_first nl ("global " +:+ attrs_text kvs +:+ nl)
                  = "global " +:+ attrs_text kvs).
  { rewrite <- (split_first_line ("global " +:+ attrs_text kvs) "").
    - by rewrite append_nil_r, !append_assoc.
    - by rewrite contains_char_app, Hnl. }
  rewrite Hbody.
  change ("global " +:+ attrs_text kvs)
    with (String "g" ("lobal " +:+ attrs_text kvs)) at 1 2.
  replace (startswith (String "g" ("lobal " +:+ attrs_text kvs)) "#")
    with false by reflexivity.
  rewrite bool_decide_eq_false_2 by discriminate. cbn [orb].
  replace (startswith ("global " +:+ attrs_text kvs) "global") with true
    by (symmetry; exact (prefix_append "global" (" " +:+ attrs_text kvs))).
  rewrite (parse_global kvs Hkvs).
  erewrite bind_ok; [|reflexivity].
  erewrite bind_ok; [reflexivity|].
  rewrite map_map. cbn [fst snd]. apply set_attrs_layout.
Qed.

(** The line of the coordinate system: one more attribute. *)
Lemma coordsys_line_on (s0 : store) (l : locals) (a : option (odict float_t))
    (c : string) :
  c = "physical" \/ c = "fk5" ->
  read_line (VGeoset (length (st_geosets s0))) l (c +:+ nl) (layout s0 [] a)
  = Ok (l, layout s0 []
             (Some (od_set "coordsys" (SStr c)
                      (match a with Some d => d | None => [] end)))).
Proof.
  intros Hc. unfold read_line.
  assert (Hbody : split_first nl (c +:+ nl) = c)
    by (by destruct Hc as [->| ->]).
  rewrite Hbody.
  replace (startswith c "#") with false by (by destruct Hc as [->| ->]).
  replace (startswith c "global") with false by (by destruct Hc as [->| ->]).
  rewrite (bool_decide_eq_false_2 (c = ""))
    by (by destruct Hc as [->| ->]).
  rewrite (bool_decide_eq_true_2 (c ∈ ["physical"; "fk5"]))
    by (destruct Hc as [->| ->]; repeat constructor).
  cbn [orb].
  erewrite bind_ok; [|apply get_geoset_layout].
  erewrite bind_ok; [reflexivity|]. cbn [go_attrs]. apply set_attrs_layout.
Qed.

(** X19. The lines before the polygons of a region file: comment lines
    and blank lines are passed over; the pairs of the [global] line
    become the attributes of the [Geoset], each value a string without
    its quotes or braces, a key that comes again keeping its first place
    with its last value; the line of the coordinate system, [physical]
    or [fk5], then adds [coordsys] to them. The polygon lines that follow
    are read as without these lines. *)
Theorem read_global_attrs (comments : list string)
    (kvs : list (string * string)) (c : string) (lines : list string)
    (lns : list tagged_line) (root : list (list geom))
    (prev : option (Z * Z * Z)) (s0 : store) :
  Forall (fun line => startswith (split_first nl line) "#" = true \/
                      split_first nl line = "") comments ->
  Forall (fun kv => key_ok (fst kv) /\ val_ok (snd kv)) kvs ->
  contains_char (ascii_of_nat 10) (attrs_text kvs) = false ->
  c = "physical" \/ c = "fk5" ->
  Forall2 reads_as lines lns ->
  foldM spec_step ([], None) lns = Ok (root, prev) ->
  exists s',
    read_lines
      (comments ++ ("global " +:+ attrs_text kvs +:+ nl) :: (c +:+ nl) :: lines)
      s0
    = Ok (VGeoset (length (st_geosets s0)), s') /\
    reify_geoset s' (VGeoset (length (st_geosets s0)))
    = Some (tree_of root
              (Some (od_set "coordsys" (SStr c)
                       (OrderedDict
                          (map (fun kv => (fst kv, SStr (unquoted (snd kv))))
                             kvs))))).
Proof.
  intros Hcomments Hkvs Hnl Hc Hlines Hspec.
  pose proof (read_loop_refines s0
                (Some (od_set "coordsys" (SStr c)
                         (OrderedDict
                            (map (fun kv => (fst kv, SStr (unquoted (snd kv))))
                               kvs))))
                lines lns Hlines [] None init_locals ltac:(by repeat split))
    as Hloop.
  rewrite Hspec in Hloop. destruct Hloop as (l' & Hloop & _).
  eexists. split; [|apply reify_layout].
  unfold read_lines.
  erewrite bind_ok; [|apply Geoset_init_layout].
  erewrite bind_ok; [reflexivity|].
  rewrite (skipped_lines _ _ _ _ _ Hcomments). cbn [read_loop].
  erewrite bind_ok; [|by apply global_line].
  erewrite bind_ok; [|by apply coordsys_line_on].
  exact Hloop.
Qed.
End Ds9Header.

(** A file as DS9 lays it out, with the polygon lines of [two_groups]:
    a comment, a blank line, the global attributes with [color] twice,
    the coordinate system. *)
Lemma read_global_attrs_witness :
  exists s',
    Ds9regfile.read_lines (header := Reference.rheader)
      ([ "# Region file format: DS9 version 4.1" +:+ PyStr.nl; PyStr.nl ]
       ++ ("global "
           +:+ Ds9Attrs.attrs_text
                 [ ("color", "green");
                   ("font", Reference.quote +:+ "helvetica 10 normal"
                            +:+ Reference.quote);
                   ("select", "1");
                   ("color", "red") ]
           +:+ PyStr.nl)
          :: ("fk5" +:+ PyStr.nl) :: Reference.region_lines)
      GeosetModel.empty_store
    = Ok (GeosetModel.VGeoset 0, s') /\
    GeosetModel.reify_geoset s' (GeosetModel.VGeoset 0)
    = Some (Ds9regfile.tree_of
              [[Reference.triangle]; [Reference.holed_square]]
              (Some [ ("color", SStr "red");
                      ("font", SStr "helvetica 10 normal");
                      ("select", SStr "1");
                      ("coordsys", SStr "fk5") ])).
Proof.
  apply (read_global_attrs (header := Reference.rheader)
           [ "# Region file format: DS9 version 4.1" +:+ PyStr.nl; PyStr.nl ]
           [ ("color", "green");
             ("font", Reference.quote +:+ "helvetica 10 normal"
                      +:+ Reference.quote);
             ("select", "1");
             ("color", "red") ]
           "fk5" Reference.region_lines
           [ Ds9regfile.mkTagged 0 0 0 false Reference.triangle;
             Ds9regfile.mkTagged 1 0 0 false
               (Reference.RPolygon Reference.outer_ring []);
             Ds9regfile.mkTagged 1 0 0 true
               (Reference.RPolygon Reference.hole_ring []) ]
           [[Reference.triangle]; [Reference.holed_square]]
           (Some (1, 0, 0)) GeosetModel.empty_store).
  - constructor; [left; reflexivity|].
    constructor; [right; reflexivity|constructor].
  - repeat constructor; discriminate.
  - reflexivity.
  - by right.
  - repeat constructor;
      (eexists; split; [vm_compute; reflexivity|by repeat split]).
  - reflexivity.
Defined.

(** ** polylistxml: the tree and its geometries, written and read *)

Section PolylistShape.
Context {float_t geom header : Type}.
Context `{Builtins float_t} `{Wkt geom} `{FitsHeader float_t header}.
Import Polylistxml.

Lemma fromxml_poly_geometry (ge : Geo float_t geom) (reload : geom -> geom) :
  (forall p, geo_geo ge = Some p -> wkt_loads (wkt_dumps p) = Ok (reload p)) ->
  exists ge', fromxml_poly (toxml_poly ge) = Ok ge' /\
    geo_geo ge' = reload <$> geo_geo ge.
Proof.
  intros Hw. unfold fromxml_poly. rewrite get_XML_attrs_spec. simpl.
  destruct (geo_geo ge) as [p|] eqn:Hp; simpl.
  - rewrite (Hw p eq_refl). simpl. by eexists.
  - by eexists.
Qed.

Lemma fromxml_item_geometry (it : Item float_t geom) (reload : geom -> geom) :
  Forall (fun ge => forall p, geo_geo ge = Some p ->
                    wkt_loads (wkt_dumps p) = Ok (reload p)) (item_geos it) ->
  exists it', fromxml_item (toxml_item it) = Ok it' /\
    Forall2 (fun ge ge' => geo_geo ge' = reload <$> geo_geo ge)
      (item_geos it) (item_geos it').
Proof.
  intros Hw. unfold fromxml_item. rewrite get_XML_attrs_spec. simpl.
  destruct (mapM_map_Forall2 fromxml_poly toxml_poly
              (fun ge ge' => geo_geo ge' = reload <$> geo_geo ge)
              (item_geos it)) as (k & Hk & HF).
  { intros ge Hge. apply fromxml_poly_geometry.
    exact (proj1 (Forall_forall _ _) Hw ge Hge). }
  assert (Hgeos :
    (if bool_decide (0 < length (map toxml_poly (item_geos it)))%nat
     then collect fromxml_poly (map toxml_poly (item_geos it))
     else Ok []) = Ok k).
  { rewrite collect_mapM. case_bool_decide as Hlen; [exact Hk|].
    destruct (item_geos it); simpl in *; [|lia].
    by injection Hk as <-. }
  rewrite Hgeos. simpl. by eexists.
Qed.

(** X20. The legacy XML of a tree, read back: when the geometry texts
    that [toxml] writes are loaded again, [p] as [reload p], [fromxml]
    returns a tree with as many items as the tree written and in each as
    many [Geo]s, in order, the geometry of each [Geo] reloaded and a [Geo]
    without geometry read back without. The attributes are no part of
    this: their values come back through the inference of types. *)
Theorem polylistxml_round_trip_shape (g : Geoset float_t geom header)
    (reload : geom -> geom) :
  Forall (fun it =>
            Forall (fun ge => forall p, geo_geo ge = Some p ->
                              wkt_loads (wkt_dumps p) = Ok (reload p))
              (item_geos it)) (gs_items g) ->
  exists g',
    fromxml (toxml g) = Ok g' /\
    Forall2 (fun it it' =>
               Forall2 (fun ge ge' => geo_geo ge' = reload <$> geo_geo ge)
                 (item_geos it) (item_geos it'))
      (gs_items g) (gs_items g').
Proof.
  intros Hw. unfold fromxml. rewrite !get_XML_attrs_spec. simpl.
  rewrite get_XML_attrs_spec. simpl.
  destruct (mapM_map_Forall2 fromxml_item toxml_item
              (fun it it' =>
                 Forall2 (fun ge ge' => geo_geo ge' = reload <$> geo_geo ge)
                   (item_geos it) (item_geos it'))
              (gs_items g)) as (k & Hk & HF).
  { intros it Hit. apply fromxml_item_geometry.
    exact (proj1 (Forall_forall _ _) Hw it Hit). }
  assert (Hitems :
    (if bool_decide (1 < S (length (map toxml_item (gs_items g))))%nat
     then collect fromxml_item (map toxml_item (gs_items g))
     else Ok []) = Ok k).
  { rewrite collect_mapM. case_bool_decide as Hlen; [exact Hk|].
    destruct (gs_items g); simpl in *; [|lia].
    by injection Hk as <-. }
  rewrite drop_0, Hitems. simpl. by eexists.
Qed.
End PolylistShape.

(** The tree [two_groups] of the reference libraries: two items of one
    [Geo] each, the geometries as written. *)
Lemma polylistxml_round_trip_shape_witness :
  exists g',
    Polylistxml.fromxml (Polylistxml.toxml Reference.two_groups) = Ok g' /\
    Forall2 (fun it it' =>
               Forall2 (fun ge ge' => geo_geo ge' = id <$> geo_geo ge)
                 (item_geos it) (item_geos it'))
      (gs_items Reference.two_groups) (gs_items g').
Proof.
  apply (polylistxml_round_trip_shape Reference.two_groups id).
  repeat constructor; intros p [= <-]; vm_compute; reflexivity.
Defined.
